(** * GDrive synchronisation engine: a shallow embedding of [app/core/sync.js]

    The reconciler methods of the [Sync] class are embedded as functions in a
    small state/error/trace monad.  The object's fields become record fields,
    JS objects used as dictionaries become [gmap]s, rejected promises become
    the [Throw] outcome, and every call that leaves the object (file system,
    local watcher, Drive client, datastore) is recorded in the trace that the
    computation returns.  [await]ed calls are run to completion in program
    order: interleavings of the ten-wide [map(async ...)] windows are not
    modelled.

    The object is taken from the moment [load] has raised [this.loaded],
    which nothing lowers again: every [await this.finishLoading()] returns
    at once and is not written out.  [load] itself raises the flag before
    the first call that awaits it. *)

From Stdlib Require Import Ascii QArith Qcanon.
From stdpp Require Import gmap strings list fin_maps sorting.

(** ** Strings and paths *)

(** [String.prototype.includes]. *)
Definition includes (needle hay : string) : bool :=
  bool_decide (is_Some (String.index 0 needle hay)).

(** JS [a > b] on two strings: lexicographic order on code units. *)
Definition str_gt (a b : string) : bool := String.ltb b a.

(** *** Node's POSIX [path] module: [normalize], [join], [dirname] *)

Definition is_slash (c : ascii) : bool := Ascii.eqb c "/"%char.

(** [s.split("/")] *)
Fixpoint split_slash (s : string) : list string :=
  match s with
  | EmptyString => [EmptyString]
  | String c s' =>
      if is_slash c then EmptyString :: split_slash s'
      else match split_slash s' with
           | seg :: rest => String c seg :: rest
           | [] => [String c EmptyString]
           end
  end.

(** [segs.join("/")] *)
Fixpoint join_slash (segs : list string) : string :=
  match segs with
  | [] => EmptyString
  | [seg] => seg
  | seg :: rest => seg +:+ "/" +:+ join_slash rest
  end.

(** [normalizeString], segment by segment: an empty segment and ["."] are
    dropped; [".."] takes back the segment before it, and where there is
    none to take back it is kept in a relative path and dropped in an
    absolute one.  [res] holds the segments kept so far, the last one
    first. *)
Fixpoint normalize_segments (allowAboveRoot : bool) (res segs : list string)
  : list string :=
  match segs with
  | [] => reverse res
  | seg :: segs' =>
      if bool_decide (seg = EmptyString) || bool_decide (seg = ".") then
        normalize_segments allowAboveRoot res segs'
      else if bool_decide (seg = "..") then
        match res with
        | last :: res' =>
            if bool_decide (last = "..") then
              normalize_segments allowAboveRoot
                (if allowAboveRoot then ".." :: res else res) segs'
            else normalize_segments allowAboveRoot res' segs'
        | [] =>
            normalize_segments allowAboveRoot
              (if allowAboveRoot then [".."] else []) segs'
        end
      else normalize_segments allowAboveRoot (seg :: res) segs'
  end.

Definition starts_with_slash (p : string) : bool :=
  match p with
  | String c _ => is_slash c
  | EmptyString => false
  end.

Fixpoint ends_with_slash (p : string) : bool :=
  match p with
  | EmptyString => false
  | String c EmptyString => is_slash c
  | String _ p' => ends_with_slash p'
  end.

(** [path.normalize] *)
Definition path_normalize (p : string) : string :=
  if bool_decide (p = EmptyString) then "."
  else
    let isAbsolute := starts_with_slash p in
    let trailingSeparator := ends_with_slash p in
    let body :=
      join_slash (normalize_segments (negb isAbsolute) [] (split_slash p)) in
    if bool_decide (body = EmptyString) then
      (if isAbsolute then "/" else if trailingSeparator then "./" else ".")
    else
      (if isAbsolute then "/" else EmptyString) +:+ body
      +:+ (if trailingSeparator then "/" else EmptyString).

(** [path.join(dir, name)]: the non-empty arguments joined by a slash,
    then normalised. *)
Definition path_join (dir name : string) : string :=
  path_normalize
    (if bool_decide (dir = EmptyString) then name
     else if bool_decide (name = EmptyString) then dir
     else dir +:+ "/" +:+ name).

Fixpoint drop_while {A} (f : A → bool) (l : list A) : list A :=
  match l with
  | x :: l' => if f x then drop_while f l' else l
  | [] => []
  end.

(** [path.dirname]: scanning from the end, the slashes that close the path
    are skipped, then its last segment; what stands before the slash found
    there is the result.  The first character is never looked at as a
    separator. *)
Definition path_dirname (p : string) : string :=
  match String.list_ascii_of_string p with
  | [] => "."
  | c0 :: rest =>
      match drop_while (λ c, negb (is_slash c))
              (drop_while is_slash (reverse rest)) with
      | [] => if is_slash c0 then "/" else "."
      | _ :: before =>
          if is_slash c0 && bool_decide (before = []) then "//"
          else String.string_of_list_ascii (c0 :: reverse before)
      end
  end.

(** All the proper directory prefixes of a path followed by the path itself:
    what [mkdirp] creates. *)
Fixpoint prefixes_scan (pre : string) (s : string) : list string :=
  match s with
  | EmptyString => [pre]
  | String c s' =>
      (if Ascii.eqb c "/"%char then
         (if bool_decide (pre = EmptyString) then [] else [pre])
       else [])
      ++ prefixes_scan (pre +:+ String c EmptyString) s'
  end.

Definition path_prefixes (p : string) : list string := prefixes_scan EmptyString p.

(** [k] is [p] itself or lies below the directory [p]. *)
Definition under (p k : string) : bool :=
  bool_decide (k = p) || String.prefix (p +:+ "/") k.

(** Replace the leading [a] of a path under [a] by [b]. *)
Definition rebase (a b k : string) : string :=
  b +:+ String.substring (String.length a) (String.length k - String.length a) k.

(** *** Base64, as [Buffer.from(path).toString('base64')] *)

Definition b64_alphabet : string :=
  "ABCDEFGHIJKLMNOPQRSTUVWXYZabcdefghijklmnopqrstuvwxyz0123456789+/".

Definition b64_char (n : N) : ascii :=
  default "="%char (String.get (N.to_nat n) b64_alphabet).

Fixpoint b64_bytes (l : list N) : list ascii :=
  match l with
  | [] => []
  | [a] => [b64_char (a / 4); b64_char ((a mod 4) * 16); "="; "="]%char
  | [a; b] =>
      [b64_char (a / 4); b64_char ((a mod 4) * 16 + b / 16);
       b64_char ((b mod 16) * 4); "="%char]
  | a :: b :: c :: rest =>
      [b64_char (a / 4); b64_char ((a mod 4) * 16 + b / 16);
       b64_char ((b mod 16) * 4 + c / 64); b64_char (c mod 64)]
      ++ b64_bytes rest
  end.

Definition base64 (s : string) : string :=
  String.string_of_list_ascii (b64_bytes (N_of_ascii <$> String.list_ascii_of_string s)).

(** ** Data model *)

(** A Drive file resource restricted to [fileInfoFields].  Optional fields
    are the ones the code tests for presence. *)
Module File.
Record info := mk {
  id : string;
  name : string;
  mimeType : string;
  md5Checksum : option string;
  size : option N;
  modifiedTime : string;
  parents : option (list string);
  trashed : bool;
}.
End File.

#[global] Instance File_info_eq_dec : EqDecision File.info.
Proof. solve_decision. Defined.

(** One entry of [changes.list]: [removed, fileId, file]. *)
Record Change := {
  removed : bool;
  fileId : string;
  file : option File.info;
}.

#[global] Instance Change_eq_dec : EqDecision Change.
Proof. solve_decision. Defined.

(** One page of [changes.list]. *)
Record ChangesPage := {
  nextPageToken : option string;
  newStartPageToken : option string;
  changes : list Change;
}.

(** Errors are told apart by [err.code] only. *)
Inductive Error :=
| HttpError (code : nat)
| ECONNRESET
| ENOENT (p : string)
| TypeError.

#[global] Instance Error_eq_dec : EqDecision Error.
Proof. solve_decision. Defined.

Inductive Resp (A : Type) :=
| Reply (a : A)
| Fail (e : Error).
Arguments Reply {A} a.
Arguments Fail {A} e.

(** The remote side, the clock and the datastore, as functions of a call
    counter: the answer the [n]-th outgoing call receives.  File contents
    are represented by their md5 digest, the only thing the code observes of
    them; of a datastore call, whether it is rejected. *)
Record Env := {
  files_get : nat → string → Resp File.info;
  files_get_media : nat → string → Resp string;
  changes_list : nat → string → Resp ChangesPage;
  getStartPageToken : nat → Resp string;
  date_now : nat → Z;
  datastore : nat → Resp unit;
}.

(** ** The local disk *)

Inductive Node :=
| RegularFile (md5 : string)
| Directory.

#[global] Instance Node_eq_dec : EqDecision Node.
Proof. solve_decision. Defined.

Definition subtree (p : string) (d : gmap string Node) : gmap string Node :=
  filter (λ kv, under p kv.1 = true) d.

(** [fs.remove]: the entry and everything below it. *)
Definition disk_remove (p : string) (d : gmap string Node) : gmap string Node :=
  filter (λ kv, under p kv.1 = false) d.

(** [mkdirp]: the directory and its missing ancestors. *)
Definition disk_mkdirp (p : string) (d : gmap string Node) : gmap string Node :=
  foldr (λ q acc, match acc !! q with
                  | Some _ => acc
                  | None => <[q := Directory]> acc
                  end) d (path_prefixes p).

Definition rebased (a b : string) (d : gmap string Node) : gmap string Node :=
  list_to_map ((λ kv, (rebase a b kv.1, kv.2)) <$> map_to_list (subtree a d)).

(** [fs.rename a b] when [a] exists. *)
Definition disk_rename (a b : string) (d : gmap string Node) : gmap string Node :=
  rebased a b d ∪ disk_remove b (disk_remove a d).

(** [fs.copy a b] when [a] exists (the destination directory is created). *)
Definition disk_copy (a b : string) (d : gmap string Node) : gmap string Node :=
  rebased a b d ∪ disk_remove b (disk_mkdirp (path_dirname b) d).

(** ** Effects and outcomes *)

(** Calls that leave the [Sync] object. *)
Inductive Effect :=
| WatcherIgnore (p : string)
| FsAccess (p : string)
| FsRemove (p : string)
| FsRename (src dst : string)
| FsCopy (src dst : string)
| Mkdirp (p : string)
| FsCreateWriteStream (p : string)
| Md5File (p : string)
| Delay (ms : Qc)
| FilesGet (fid : string)
| FilesGetMedia (fid : string)
| ChangesList (pageToken : string)
| UpdateConnectivity.

#[global] Instance Effect_eq_dec : EqDecision Effect.
Proof. solve_decision. Defined.

(** How an [async] call ends: resolved, rejected, never settled, or the
    model ran out of fuel. *)
Inductive Outcome (A : Type) :=
| Ok (a : A)
| Throw (e : Error)
| Pending
| OutOfFuel.
Arguments Ok {A} a.
Arguments Throw {A} e.
Arguments Pending {A}.
Arguments OutOfFuel {A}.

Definition M (S E A : Type) : Type := S → Outcome A * S * list E.

Definition ret {S E A} (a : A) : M S E A := λ s, (Ok a, s, []).

Definition bind {S E A B} (m : M S E A) (f : A → M S E B) : M S E B :=
  λ s, match m s with
       | (Ok a, s', ev) => let '(r, s'', ev') := f a s' in (r, s'', ev ++ ev')
       | (Throw e, s', ev) => (Throw e, s', ev)
       | (Pending, s', ev) => (Pending, s', ev)
       | (OutOfFuel, s', ev) => (OutOfFuel, s', ev)
       end.

Notation "'let*' x ':=' m 'in' k" := (bind m (λ x, k))
  (at level 10, x name, m at level 100, k at level 200, only parsing).
Notation "m '>>>' k" := (bind m (λ _, k))
  (at level 90, right associativity, only parsing).

Definition throw {S E A} (e : Error) : M S E A := λ s, (Throw e, s, []).
Definition pending {S E A} : M S E A := λ s, (Pending, s, []).
Definition out_of_fuel {S E A} : M S E A := λ s, (OutOfFuel, s, []).
Definition get {S E} : M S E S := λ s, (Ok s, s, []).
Definition modify {S E} (f : S → S) : M S E unit := λ s, (Ok tt, f s, []).
Definition emit {S E} (e : E) : M S E unit := λ s, (Ok tt, s, [e]).

(** [try { m } catch (err) { h err }]; a promise that never settles cannot
    be caught. *)
Definition try_catch {S E A} (m : M S E A) (h : Error → M S E A) : M S E A :=
  λ s, match m s with
       | (Throw e, s', ev) => let '(r, s'', ev') := h e s' in (r, s'', ev ++ ev')
       | other => other
       end.

(** [for (x of l) { ret.push(...f x) }]. *)
Fixpoint flat_mapM {S E A B} (f : A → M S E (list B)) (l : list A)
  : M S E (list B) :=
  match l with
  | [] => ret []
  | x :: l' =>
      let* ys := f x in
      let* zs := flat_mapM f l' in
      ret (ys ++ zs)
  end.

(** [for (x of l) { f x }]. *)
Fixpoint forM_ {S E A} (f : A → M S E unit) (l : list A) : M S E unit :=
  match l with
  | [] => ret tt
  | x :: l' => f x >>> forM_ f l'
  end.

(** [l.map(async x => f x)] awaited, run in order. *)
Fixpoint map_async {S E A B} (f : A → M S E B) (l : list A) : M S E (list B) :=
  match l with
  | [] => ret []
  | x :: l' =>
      let* y := f x in
      let* ys := map_async f l' in
      ret (y :: ys)
  end.

(** ** Reconciler state

    The fields of [this] that the reconciler methods read or write. *)
Record Recon := {
  fileInfo : gmap string File.info;        (* Metadata Cache *)
  paths : gmap string string;              (* Path Index *)
  onLocalDrive : gmap string bool;         (* Materialized Set *)
  parentInfoCache : gmap string File.info; (* side cache of parent records *)
  lastChanges : gmap string nat;
  rootId : option string;
  folder : string;
  disk : gmap string Node;
  tick : nat;
}.

Definition with_fileInfo (f : gmap string File.info → gmap string File.info)
  (st : Recon) : Recon :=
  {| fileInfo := f (fileInfo st); paths := paths st;
     onLocalDrive := onLocalDrive st; parentInfoCache := parentInfoCache st;
     lastChanges := lastChanges st; rootId := rootId st; folder := folder st;
     disk := disk st; tick := tick st |}.

Definition with_paths (f : gmap string string → gmap string string)
  (st : Recon) : Recon :=
  {| fileInfo := fileInfo st; paths := f (paths st);
     onLocalDrive := onLocalDrive st; parentInfoCache := parentInfoCache st;
     lastChanges := lastChanges st; rootId := rootId st; folder := folder st;
     disk := disk st; tick := tick st |}.

Definition with_onLocalDrive (f : gmap string bool → gmap string bool)
  (st : Recon) : Recon :=
  {| fileInfo := fileInfo st; paths := paths st;
     onLocalDrive := f (onLocalDrive st); parentInfoCache := parentInfoCache st;
     lastChanges := lastChanges st; rootId := rootId st; folder := folder st;
     disk := disk st; tick := tick st |}.

Definition with_parentInfoCache
  (f : gmap string File.info → gmap string File.info) (st : Recon) : Recon :=
  {| fileInfo := fileInfo st; paths := paths st;
     onLocalDrive := onLocalDrive st; parentInfoCache := f (parentInfoCache st);
     lastChanges := lastChanges st; rootId := rootId st; folder := folder st;
     disk := disk st; tick := tick st |}.

Definition with_lastChanges (f : gmap string nat → gmap string nat)
  (st : Recon) : Recon :=
  {| fileInfo := fileInfo st; paths := paths st;
     onLocalDrive := onLocalDrive st; parentInfoCache := parentInfoCache st;
     lastChanges := f (lastChanges st); rootId := rootId st; folder := folder st;
     disk := disk st; tick := tick st |}.

Definition with_disk (f : gmap string Node → gmap string Node)
  (st : Recon) : Recon :=
  {| fileInfo := fileInfo st; paths := paths st;
     onLocalDrive := onLocalDrive st; parentInfoCache := parentInfoCache st;
     lastChanges := lastChanges st; rootId := rootId st; folder := folder st;
     disk := f (disk st); tick := tick st |}.

Definition next_tick (st : Recon) : Recon :=
  {| fileInfo := fileInfo st; paths := paths st;
     onLocalDrive := onLocalDrive st; parentInfoCache := parentInfoCache st;
     lastChanges := lastChanges st; rootId := rootId st; folder := folder st;
     disk := disk st; tick := S (tick st) |}.

Abbreviation R := (M Recon Effect).

(** *** Calls into the file system, the watcher and the timer *)

Definition watcher_ignore (p : string) : R unit := emit (WatcherIgnore p).

Definition delay (ms : Qc) : R unit := emit (Delay ms).

Definition fs_access (p : string) : R unit :=
  λ st, (match disk st !! p with
         | Some _ => Ok tt
         | None => Throw (ENOENT p)
         end, st, [FsAccess p]).

Definition fs_remove (p : string) : R unit :=
  λ st, (Ok tt, with_disk (disk_remove p) st, [FsRemove p]).

Definition fs_rename (src dst : string) : R unit :=
  λ st, match disk st !! src with
        | Some _ => (Ok tt, with_disk (disk_rename src dst) st, [FsRename src dst])
        | None => (Throw (ENOENT src), st, [FsRename src dst])
        end.

Definition fs_copy (src dst : string) : R unit :=
  λ st, match disk st !! src with
        | Some _ => (Ok tt, with_disk (disk_copy src dst) st, [FsCopy src dst])
        | None => (Throw (ENOENT src), st, [FsCopy src dst])
        end.

Definition mkdirp (p : string) : R unit :=
  λ st, (Ok tt, with_disk (disk_mkdirp p) st, [Mkdirp p]).

Definition md5file (p : string) : R string :=
  λ st, (match disk st !! p with
         | Some (RegularFile h) => Ok h
         | _ => Throw (ENOENT p)
         end, st, [Md5File p]).

(** md5 of the empty file a fresh write stream leaves behind. *)
Definition empty_md5 : string := "d41d8cd98f00b204e9800998ecf8427e".

Definition fs_createWriteStream (p : string) : R unit :=
  λ st, (Ok tt, with_disk (<[p := RegularFile empty_md5]>) st,
         [FsCreateWriteStream p]).

(** JS [Array.prototype.sort()] on strings. *)
Definition str_le (a b : string) : Prop := String.leb a b = true.

#[global] Instance str_le_dec a b : Decision (str_le a b).
Proof. unfold str_le. apply _. Defined.

Definition js_sort (l : list string) : list string := merge_sort str_le l.

(** ** The reconciler *)

Section Engine.
Context (env : Env).

Definition drive_files_get (fid : string) : R File.info :=
  λ st, (match files_get env (tick st) fid with
         | Reply i => Ok i
         | Fail e => Throw e
         end, next_tick st, [FilesGet fid]).

Definition drive_files_get_media (fid : string) : R string :=
  λ st, (match files_get_media env (tick st) fid with
         | Reply c => Ok c
         | Fail e => Throw e
         end, next_tick st, [FilesGetMedia fid]).

Definition tryTwice {A} (fn : R A) : R A :=
  try_catch fn
    (λ err, if bool_decide (err = ECONNRESET)
            then delay (Q2Qc 2000) >>> fn
            else throw err).

Definition isFolder (info : File.info) : bool :=
  includes "folder" (File.mimeType info).

Definition shouldIgnoreFile (st : Recon) (info : File.info) : bool :=
  if bool_decide (rootId st = Some (File.id info)) then true
  else if isFolder info then false
  else bool_decide (File.size info = None).

Definition needsParentFetch (st : Recon) (parentId : string) : bool :=
  bool_decide (parentInfoCache st !! parentId = None)
  && bool_decide (fileInfo st !! parentId = None).

(** [batchResults.forEach((info, id) => { if (info) parentInfoCache.set(id, info) })] *)
Definition cache_batch (batch : gmap string (option File.info))
  (c : gmap string File.info) : gmap string File.info :=
  omap (λ o : option File.info, o) batch ∪ c.

(** [storeFileInfo], [getFileInfo] and [getFileInfoBatch] call [getPaths],
    which calls them back: they take the walk as a parameter and [getPaths]
    ties the knot on its fuel. *)
Section Knot.
Context (walk : option File.info → R (list string)).

Definition computePaths_with (info : File.info) : R unit :=
  let* ps := walk (Some info) in
  modify (with_paths (λ m, foldl (λ m p, <[p := File.id info]> m) m ps)).

Definition storeFileInfo_with (info : File.info) : R File.info :=
  computePaths_with info >>>
  modify (with_parentInfoCache
            (λ c, match File.parents info with
                  | Some ps => foldl (λ c p, delete p c) c ps
                  | None => c
                  end)) >>>
  modify (with_fileInfo (<[File.id info := info]>)) >>>
  ret info.

Definition getFileInfo_with (fid : string) : R (option File.info) :=
  let* st := get in
  match fileInfo st !! fid with
  | Some i => ret (Some i)
  | None =>
      let* got :=
        try_catch (let* i := tryTwice (drive_files_get fid) in ret (Some i))
          (λ err, if bool_decide (err = HttpError 404) then ret None
                  else throw err) in
      match got with
      | Some i => let* r := storeFileInfo_with i in ret (Some r)
      | None => ret None
      end
  end.

Definition getFileInfoBatch_with (fileIds : list string)
  : R (gmap string (option File.info)) :=
  let* st := get in
  let idsToFetch := filter (λ i, fileInfo st !! i = None) fileIds in
  if bool_decide (idsToFetch = []) then
    ret (foldl (λ res i, <[i := fileInfo st !! i]> res) ∅ fileIds)
  else
    let* settled :=
      map_async (λ fid,
              try_catch
                (let* fi := getFileInfo_with fid in ret (fid, fi, true))
                (λ err, if bool_decide (err = HttpError 404)
                        then ret (fid, None, true)
                        else ret (fid, None, false)))
           idsToFetch in
    let results :=
      foldl (λ res (r : string * option File.info * bool),
               if r.2 then <[r.1.1 := r.1.2]> res else res)
            (∅ : gmap string (option File.info)) settled in
    let* st' := get in
    ret (foldl (λ res i,
                  match res !! i, fileInfo st' !! i with
                  | None, Some fi => <[i := Some fi]> res
                  | _, _ => res
                  end) results fileIds).

(** The body of the [for (let parent of fileInfo.parents)] loop. *)
Definition parent_paths (childName parent : string) : R (list string) :=
  let* st := get in
  let* parentInfo :=
    match parentInfoCache st !! parent with
    | Some pi => ret (Some pi)
    | None =>
        match fileInfo st !! parent with
        | Some pi =>
            modify (with_parentInfoCache (<[parent := pi]>)) >>> ret (Some pi)
        | None =>
            let* got := getFileInfo_with parent in
            match got with
            | Some pi =>
                modify (with_parentInfoCache (<[parent := pi]>)) >>>
                ret (Some pi)
            | None => ret None
            end
        end
    end in
  let* pps := walk parentInfo in
  ret ((λ pp, path_join pp childName) <$> pps).

Definition getPaths_body (info_opt : option File.info) : R (list string) :=
  match info_opt with
  | None => ret []
  | Some info =>
      let* st := get in
      if bool_decide (rootId st = Some (File.id info)) then ret [folder st]
      else
        match File.parents info with
        | None => ret []
        | Some ps =>
            let parentsToFetch :=
              filter (λ p, needsParentFetch st p = true) ps in
            (if bool_decide (parentsToFetch = []) then ret tt
             else
               let* batch := getFileInfoBatch_with parentsToFetch in
               modify (with_parentInfoCache (cache_batch batch))) >>>
            flat_mapM (parent_paths (File.name info)) ps
        end
  end.
End Knot.

Fixpoint getPaths (n : nat) (info_opt : option File.info) : R (list string) :=
  match n with
  | 0 => out_of_fuel
  | S n' => getPaths_body (getPaths n') info_opt
  end.

Definition storeFileInfo (n : nat) := storeFileInfo_with (getPaths n).
Definition getFileInfo (n : nat) := getFileInfo_with (getPaths n).
Definition getFileInfoBatch (n : nat) := getFileInfoBatch_with (getPaths n).

(** *** The Materialized Set accessors *)

Definition locallyRegistered (st : Recon) (p : string) : bool :=
  bool_decide (is_Some (onLocalDrive st !! base64 p)).

Definition registerLocalFile (p : string) (st : Recon) : Recon :=
  with_onLocalDrive (<[base64 p := true]>) st.

Definition unregisterLocalFile (p : string) (st : Recon) : Recon :=
  with_onLocalDrive (delete (base64 p)) st.

(** *** Local removal *)

(** [for (let path of paths) { try { access; ignore; remove; removed = true } catch {} }] *)
Fixpoint remove_each (ps : list string) (removed_ : bool) : R bool :=
  match ps with
  | [] => ret removed_
  | p :: ps' =>
      let* r :=
        try_catch
          (fs_access p >>> watcher_ignore p >>> fs_remove p >>> ret true)
          (λ _, ret removed_) in
      remove_each ps' r
  end.

Definition removeFileLocally (n : nat) (fid : string) : R bool :=
  let* st := get in
  match fileInfo st !! fid with
  | None => ret false
  | Some info =>
      let* ps := getPaths n (Some info) in
      modify (with_fileInfo (delete fid)) >>>
      modify (with_paths (λ m, foldl (λ m p, delete p m) m ps)) >>>
      if bool_decide (ps = []) then ret false
      else remove_each ps false
  end.

(** *** Download *)

Definition tmp_name (st : Recon) (info : File.info) : string :=
  path_join (folder st) ("." +:+ File.name info +:+ ".tmp").

(** What the response stream writes through the open descriptor: visible
    under the temporary name only while that name still exists. *)
Definition pipe_to (tmpFile content : string) : R unit :=
  modify (with_disk (λ d, match d !! tmpFile with
                          | Some _ => <[tmpFile := RegularFile content]> d
                          | None => d
                          end)).

(** One run of the promise handed to [tryTwice], with its [.catch].  When
    the rename inside the ['end'] handler rejects, neither [resolve] nor
    [reject] is ever called. *)
Definition download_attempt (info : File.info) (tmpFile savePath : string)
  : R unit :=
  try_catch
    (watcher_ignore savePath >>>
     let* content := drive_files_get_media (File.id info) in
     pipe_to tmpFile content >>>
     try_catch (fs_rename tmpFile savePath) (λ _, pending))
    (λ err, fs_remove tmpFile >>> throw err).

Definition downloadFile (n : nat) (info : File.info) : R bool :=
  let* st := get in
  if shouldIgnoreFile st info then ret false
  else
    let* savePaths := getPaths n (Some info) in
    match savePaths with
    | [] => ret false
    | savePath :: others =>
        if isFolder info then
          forM_ (λ p, watcher_ignore p >>> mkdirp p) savePaths >>> ret true
        else
          mkdirp (path_dirname savePath) >>>
          let* alreadyDownloaded :=
            try_catch
              (fs_access savePath >>>
               let* h := md5file savePath in
               ret (bool_decide (Some h = File.md5Checksum info)))
              (λ _, ret false) in
          (if alreadyDownloaded then ret tt
           else
             let* st1 := get in
             let tmpFile := tmp_name st1 info in
             fs_createWriteStream tmpFile >>>
             delay (Q2Qc 80) >>>
             tryTwice (download_attempt info tmpFile savePath)) >>>
          forM_ (λ otherPath,
                   watcher_ignore otherPath >>> fs_copy savePath otherPath)
                others >>>
          ret true
    end.

(** [logChange(type, yesOrNo)] *)
Definition logChange (type : string) (yesOrNo : bool) : R bool :=
  (if yesOrNo then
     modify (with_lastChanges
               (λ m, <[type := S (default 0 (m !! type))]> m))
   else ret tt) >>>
  ret yesOrNo.

(** [addFileLocally]: its own [logChange({type, number})] call passes no
    second argument and so records nothing. *)
Definition addFileLocally (n : nat) (info : File.info) : R bool :=
  storeFileInfo n info >>>
  let* res := downloadFile n info in
  ret res.

(** *** Path delta *)

Definition nth_path (l : list string) (i : nat) : string :=
  default EmptyString (l !! i).

Definition changePaths (oldPaths newPaths : list string) : R unit :=
  if bool_decide (oldPaths = []) then ret tt
  else
    let removedPaths := filter (λ p, p ∉ newPaths) oldPaths in
    let addedPaths := filter (λ p, p ∉ oldPaths) newPaths in
    forM_ (λ p, mkdirp (path_dirname p)) addedPaths >>>
    forM_ (λ i,
             if bool_decide (i < length addedPaths) then
               watcher_ignore (nth_path removedPaths i) >>>
               watcher_ignore (nth_path addedPaths i) >>>
               fs_rename (nth_path removedPaths i) (nth_path addedPaths i)
             else
               watcher_ignore (nth_path removedPaths i) >>>
               fs_remove (nth_path removedPaths i))
          (seq 0 (length removedPaths)) >>>
    forM_ (λ i,
             watcher_ignore (nth_path addedPaths i) >>>
             fs_copy (nth_path newPaths 0) (nth_path addedPaths i))
          (seq (length removedPaths)
               (length addedPaths - length removedPaths)).

(** *** Applying one remote change *)

Definition noChange (oldInfo newInfo : File.info) : bool :=
  if str_gt (File.modifiedTime newInfo) (File.modifiedTime oldInfo) then false
  else if bool_decide (File.name oldInfo ≠ File.name newInfo) then false
  else if bool_decide (File.parents oldInfo ≠ File.parents newInfo) then false
  else true.

Definition handleChange (n : nat) (change : Change) : R bool :=
  let* gone :=
    (if removed change then ret true
     else match file change with
          | Some f => ret (File.trashed f)
          | None => throw TypeError
          end) in
  if (gone : bool) then
    let* r := removeFileLocally n (fileId change) in
    logChange "removed" r
  else
    let* st := get in
    match fileInfo st !! fileId change, file change with
    | _, None => throw TypeError
    | None, Some newInfo =>
        let* r := addFileLocally n newInfo in
        logChange "added" r
    | Some oldInfo, Some newInfo =>
        storeFileInfo n newInfo >>>
        if noChange oldInfo newInfo then ret false
        else
          let* oldPaths := getPaths n (Some oldInfo) in
          let* newPaths := getPaths n (Some newInfo) in
          if bool_decide (newPaths = []) && bool_decide (oldPaths = [])
          then ret false
          else if bool_decide (File.md5Checksum newInfo
                               ≠ File.md5Checksum oldInfo) then
            removeFileLocally n (File.id oldInfo) >>>
            addFileLocally n newInfo >>>
            logChange "updated" true >>>
            ret true
          else if bool_decide (oldPaths = []) then
            (* [logChange("added", <promise>)]: the promise is truthy *)
            logChange "added" true >>>
            addFileLocally n newInfo
          else
            let* st' := get in
            if shouldIgnoreFile st' newInfo then ret false
            else
              let oldSorted := js_sort oldPaths in
              let newSorted := js_sort newPaths in
              if bool_decide (oldSorted = newSorted) then ret false
              else changePaths oldSorted newSorted >>> ret true
    end.

(** ** The poller and the checkpoint *)

(** What [save] writes: the [toSave] fields. *)
Record Checkpoint := {
  cp_changeToken : option string;
  cp_fileInfo : gmap string File.info;
  cp_synced : bool;
  cp_rootId : option string;
  cp_changesToExecute : option (list Change);
  cp_onLocalDrive : gmap string bool;
}.

(** The whole object: the reconciler fields and the ones only the poller
    and [save] touch. *)
Record Sync := {
  recon : Recon;
  changeToken : option string;
  changesToExecute : option (list Change);
  synced : bool;
  syncing : bool;
  handlingRemoteChange : bool;
  handlingLocalChange : bool;
  closed : bool;
  watchingChanges : bool;
  savedTime : Z;
  changesSinceSave : nat;
  stored : option Checkpoint;  (* what the datastore record holds *)
  loading : bool;
  saving : bool;
  running : bool;              (* [this.id] is set: the [running] getter *)
}.

Definition with_recon (f : Recon → Recon) (s : Sync) : Sync :=
  {| recon := f (recon s); changeToken := changeToken s;
     changesToExecute := changesToExecute s; synced := synced s;
     syncing := syncing s; handlingRemoteChange := handlingRemoteChange s;
     handlingLocalChange := handlingLocalChange s; closed := closed s;
     watchingChanges := watchingChanges s; savedTime := savedTime s;
     changesSinceSave := changesSinceSave s; stored := stored s;
     loading := loading s; saving := saving s; running := running s |}.

Definition set_changeToken (t : option string) (s : Sync) : Sync :=
  {| recon := recon s; changeToken := t;
     changesToExecute := changesToExecute s; synced := synced s;
     syncing := syncing s; handlingRemoteChange := handlingRemoteChange s;
     handlingLocalChange := handlingLocalChange s; closed := closed s;
     watchingChanges := watchingChanges s; savedTime := savedTime s;
     changesSinceSave := changesSinceSave s; stored := stored s;
     loading := loading s; saving := saving s; running := running s |}.

Definition set_changesToExecute (c : option (list Change)) (s : Sync) : Sync :=
  {| recon := recon s; changeToken := changeToken s;
     changesToExecute := c; synced := synced s;
     syncing := syncing s; handlingRemoteChange := handlingRemoteChange s;
     handlingLocalChange := handlingLocalChange s; closed := closed s;
     watchingChanges := watchingChanges s; savedTime := savedTime s;
     changesSinceSave := changesSinceSave s; stored := stored s;
     loading := loading s; saving := saving s; running := running s |}.

Definition set_handlingRemoteChange_field (b : bool) (s : Sync) : Sync :=
  {| recon := recon s; changeToken := changeToken s;
     changesToExecute := changesToExecute s; synced := synced s;
     syncing := syncing s; handlingRemoteChange := b;
     handlingLocalChange := handlingLocalChange s; closed := closed s;
     watchingChanges := watchingChanges s; savedTime := savedTime s;
     changesSinceSave := changesSinceSave s; stored := stored s;
     loading := loading s; saving := saving s; running := running s |}.

Definition set_watchingChanges (b : bool) (s : Sync) : Sync :=
  {| recon := recon s; changeToken := changeToken s;
     changesToExecute := changesToExecute s; synced := synced s;
     syncing := syncing s; handlingRemoteChange := handlingRemoteChange s;
     handlingLocalChange := handlingLocalChange s; closed := closed s;
     watchingChanges := b; savedTime := savedTime s;
     changesSinceSave := changesSinceSave s; stored := stored s;
     loading := loading s; saving := saving s; running := running s |}.

Definition set_saved (t : Z) (k : nat) (s : Sync) : Sync :=
  {| recon := recon s; changeToken := changeToken s;
     changesToExecute := changesToExecute s; synced := synced s;
     syncing := syncing s; handlingRemoteChange := handlingRemoteChange s;
     handlingLocalChange := handlingLocalChange s; closed := closed s;
     watchingChanges := watchingChanges s; savedTime := t;
     changesSinceSave := k; stored := stored s;
     loading := loading s; saving := saving s; running := running s |}.

Definition set_stored (c : option Checkpoint) (s : Sync) : Sync :=
  {| recon := recon s; changeToken := changeToken s;
     changesToExecute := changesToExecute s; synced := synced s;
     syncing := syncing s; handlingRemoteChange := handlingRemoteChange s;
     handlingLocalChange := handlingLocalChange s; closed := closed s;
     watchingChanges := watchingChanges s; savedTime := savedTime s;
     changesSinceSave := changesSinceSave s; stored := c;
     loading := loading s; saving := saving s; running := running s |}.

Definition set_loading (b : bool) (s : Sync) : Sync :=
  {| recon := recon s; changeToken := changeToken s;
     changesToExecute := changesToExecute s; synced := synced s;
     syncing := syncing s; handlingRemoteChange := handlingRemoteChange s;
     handlingLocalChange := handlingLocalChange s; closed := closed s;
     watchingChanges := watchingChanges s; savedTime := savedTime s;
     changesSinceSave := changesSinceSave s; stored := stored s;
     loading := b; saving := saving s; running := running s |}.

Definition set_saving (b : bool) (s : Sync) : Sync :=
  {| recon := recon s; changeToken := changeToken s;
     changesToExecute := changesToExecute s; synced := synced s;
     syncing := syncing s; handlingRemoteChange := handlingRemoteChange s;
     handlingLocalChange := handlingLocalChange s; closed := closed s;
     watchingChanges := watchingChanges s; savedTime := savedTime s;
     changesSinceSave := changesSinceSave s; stored := stored s;
     loading := loading s; saving := b; running := running s |}.

Definition set_running (b : bool) (s : Sync) : Sync :=
  {| recon := recon s; changeToken := changeToken s;
     changesToExecute := changesToExecute s; synced := synced s;
     syncing := syncing s; handlingRemoteChange := handlingRemoteChange s;
     handlingLocalChange := handlingLocalChange s; closed := closed s;
     watchingChanges := watchingChanges s; savedTime := savedTime s;
     changesSinceSave := changesSinceSave s; stored := stored s;
     loading := loading s; saving := saving s; running := b |}.

(** What the poller does to the outside, around the reconciler's effects. *)
Inductive Event :=
| Io (e : Effect)
| HandleChange (c : Change)
| DbFindOne
| DbInsert
| DbUpdate (cp : Checkpoint)
| EmitSyncing (b : bool)
| EmitFilesChanged (summary : gmap string nat)
| SpawnWatchChanges.

Abbreviation P := (M Sync Event).

Definition lift {A} (m : R A) : P A :=
  λ s, let '(r, rc, ev) := m (recon s) in
       (r, with_recon (λ _, rc) s, Io <$> ev).

(** JS truthiness of a token: neither [undefined]/[null] nor the empty
    string. *)
Definition truthy (t : option string) : bool :=
  match t with
  | Some s => negb (bool_decide (s = EmptyString))
  | None => false
  end.

Definition drive_changes_list (pageToken : string) : R ChangesPage :=
  λ st, (match changes_list env (tick st) pageToken with
         | Reply pg => Ok pg
         | Fail e => Throw e
         end, next_tick st, [ChangesList pageToken]).

Definition drive_getStartPageToken : R string :=
  λ st, (match getStartPageToken env (tick st) with
         | Reply t => Ok t
         | Fail e => Throw e
         end, next_tick st, []).

Definition Date_now : R Z :=
  λ st, (Ok (date_now env (tick st)), next_tick st, []).

Definition handlingChanges (s : Sync) : bool :=
  syncing s || handlingLocalChange s || handlingRemoteChange s.

Definition notifyChanges : P unit :=
  let* s := get in
  if handlingChanges s then ret tt
  else if bool_decide (lastChanges (recon s) ≠ ∅) then
    emit (EmitFilesChanged (lastChanges (recon s))) >>>
    modify (with_recon (with_lastChanges (λ _, ∅)))
  else ret tt.

(** The [handlingRemoteChange] setter. *)
Definition set_handlingRemoteChange (value : bool) : P unit :=
  let* s := get in
  if bool_decide (handlingRemoteChange s = value) then ret tt
  else
    modify (set_handlingRemoteChange_field value) >>>
    let* s' := get in
    emit (EmitSyncing (handlingChanges s')) >>>
    notifyChanges.

Definition checkpoint_of (s : Sync) : Checkpoint :=
  {| cp_changeToken := changeToken s;
     cp_fileInfo := fileInfo (recon s);
     cp_synced := synced s;
     cp_rootId := rootId (recon s);
     cp_changesToExecute := changesToExecute s;
     cp_onLocalDrive := onLocalDrive (recon s) |}.

(** A call to the datastore. *)
Definition db_call (e : Event) : P unit :=
  λ s, (match datastore env (tick (recon s)) with
        | Reply _ => Ok tt
        | Fail err => Throw err
        end, with_recon next_tick s, [e]).

(** [finishSaveOperation]: a timer loop that ends when the call that raised
    [loading] or [saving] lowers it.  No step of the waiting call does so:
    with a flag up, the wait is the end of the run. *)
Definition finishSaveOperation : P unit :=
  let* s := get in
  if loading s || saving s then pending else ret tt.

(** [save].  Its closing [this.watchChanges()] returns at once when the
    poller runs; otherwise it starts the poller, which is only recorded
    here. *)
Definition save : P unit :=
  let* s := get in
  if loading s || saving s then finishSaveOperation
  else
    modify (set_saving true) >>>
    try_catch
      ((if running s then ret tt
        else db_call DbInsert >>> modify (set_running true)) >>>
       let* s1 := get in
       db_call (DbUpdate (checkpoint_of s1)) >>>
       modify (set_stored (Some (checkpoint_of s1))) >>>
       let* now := lift Date_now in
       modify (set_saved now 0) >>>
       let* s2 := get in
       (if watchingChanges s2 then ret tt
        else modify (set_watchingChanges true) >>> emit SpawnWatchChanges) >>>
       modify (set_saving false))
      (λ err, modify (set_saving false) >>> throw err).

Definition pending_changes (s : Sync) : list Change :=
  default [] (changesToExecute s).

(** The [while] loop of [handleChanges]; the window of ten is applied in
    order. *)
Fixpoint handleChanges_loop (n : nat) : P unit :=
  let* s := get in
  if bool_decide (pending_changes s ≠ []) && negb (closed s) then
    match n with
    | 0 => out_of_fuel
    | S n' =>
        set_handlingRemoteChange true >>>
        let nextChangeQueue := take 10 (pending_changes s) in
        modify (set_changesToExecute (Some (drop 10 (pending_changes s)))) >>>
        forM_ (λ nextChange,
                 emit (HandleChange nextChange) >>>
                 let* changed := lift (handleChange n nextChange) in
                 if (changed : bool) then save
                 else modify (λ s, set_saved (savedTime s)
                                     (S (changesSinceSave s)) s))
              nextChangeQueue >>>
        handleChanges_loop n'
    end
  else ret tt.

Definition handleChanges (n : nat) : P unit :=
  handleChanges_loop n >>>
  set_handlingRemoteChange false >>>
  notifyChanges >>>
  let* now := lift Date_now in
  let* s := get in
  if bool_decide (30000 < now - savedTime s)%Z
     && bool_decide (0 < changesSinceSave s)
  then save
  else ret tt.

(** The [while (pageToken)] loop of [getNewChanges]. *)
Fixpoint getNewChanges_loop (n : nat) (pageToken : option string)
  (acc : list Change) : P (list Change) :=
  match pageToken with
  | Some tok =>
      if truthy pageToken then
        match n with
        | 0 => out_of_fuel
        | S n' =>
            let* result := lift (drive_changes_list tok) in
            (if truthy (newStartPageToken result)
             then modify (set_changeToken (newStartPageToken result))
             else ret tt) >>>
            getNewChanges_loop n' (nextPageToken result)
              (acc ++ changes result)
        end
      else ret acc
  | None => ret acc
  end.

Definition getNewChanges (n : nat) : P (list Change) :=
  let* s := get in
  let* cs := getNewChanges_loop n (changeToken s) [] in
  lift (emit UpdateConnectivity) >>>
  ret cs.

Definition handleNewChanges (n : nat) : P bool :=
  let* cs := getNewChanges n in
  modify (set_changesToExecute (Some cs)) >>>
  let changesCount := length cs in
  handleChanges n >>>
  ret (bool_decide (0 < changesCount)).

Definition initialDelay : Qc := Q2Qc 8000.
Definition minDelay : Qc := Q2Qc 2000.
Definition maxDelay : Qc := Q2Qc 30000.
Definition backoffMultiplier : Qc := Q2Qc 1.5.

Definition Math_min (a b : Qc) : Qc := if decide (a ≤ b)%Qc then a else b.

(** One turn of the [while (!this.closed)] loop of [watchChanges]: the new
    [pollDelay], after sleeping for it. *)
Definition watch_iteration (n : nat) (pollDelay : Qc) : P Qc :=
  let* s := get in
  let* d :=
    (if negb (syncing s) && synced s then
       let* changesDetected := handleNewChanges n in
       ret (if (changesDetected : bool) then minDelay
            else Math_min (pollDelay * backoffMultiplier)%Qc maxDelay)
     else ret initialDelay) in
  lift (delay d) >>>
  ret d.

Fixpoint watch_loop (n iters : nat) (pollDelay : Qc) : P unit :=
  let* s := get in
  if closed s then ret tt
  else
    match iters with
    | 0 => out_of_fuel
    | S iters' =>
        let* d := watch_iteration n pollDelay in
        watch_loop n iters' d
    end.

Definition startWatchingChanges : P unit :=
  let* s := get in
  if truthy (changeToken s) then ret tt
  else
    let* t := lift drive_getStartPageToken in
    let* s' := get in
    if truthy (changeToken s') then ret tt
    else modify (set_changeToken (Some t)).

Definition watchChanges (n iters : nat) : P unit :=
  let* s := get in
  if watchingChanges s then ret tt
  else
    modify (set_watchingChanges true) >>>
    try_catch
      ((if truthy (changeToken s) then ret tt else startWatchingChanges) >>>
       watch_loop n iters (Q2Qc 8000))
      (λ err,
         modify (set_watchingChanges false) >>>
         set_handlingRemoteChange false >>>
         throw err).

End Engine.

(** ** The Materialized Set accessors on the whole object

    [registerLocalFile] and [unregisterLocalFile] also count one more change
    since the last save. *)
Definition count_change (s : Sync) : Sync :=
  set_saved (savedTime s) (S (changesSinceSave s)) s.

Module Registry.

Definition locallyRegistered (s : Sync) (p : string) : bool :=
  locallyRegistered (recon s) p.

Definition registerLocalFile (p : string) (s : Sync) : Sync :=
  count_change (with_recon (registerLocalFile p) s).

Definition unregisterLocalFile (p : string) (s : Sync) : Sync :=
  count_change (with_recon (unregisterLocalFile p) s).

End Registry.

Definition set_closed (b : bool) (s : Sync) : Sync :=
  {| recon := recon s; changeToken := changeToken s;
     changesToExecute := changesToExecute s; synced := synced s;
     syncing := syncing s; handlingRemoteChange := handlingRemoteChange s;
     handlingLocalChange := handlingLocalChange s; closed := b;
     watchingChanges := watchingChanges s; savedTime := savedTime s;
     changesSinceSave := changesSinceSave s; stored := stored s;
     loading := loading s; saving := saving s; running := running s |}.

(** ** Lookups by path: [getParent] and [fileInfoFromPath]

    Both only read the Path Index and the Metadata Cache; [getParent]
    throws on a directory the index does not know, which is [None] here. *)
Definition getParent (st : Recon) (src : string) : option string :=
  paths st !! path_dirname src.

Definition fileInfoFromPath (st : Recon) (path : string) : option File.info :=
  match paths st !! path with
  | None => None
  | Some id => fileInfo st !! id
  end.

(** ** The rest of the object: initial sync, local removals, load *)

Definition with_rootId (r : option string) (st : Recon) : Recon :=
  {| fileInfo := fileInfo st; paths := paths st;
     onLocalDrive := onLocalDrive st; parentInfoCache := parentInfoCache st;
     lastChanges := lastChanges st; rootId := r; folder := folder st;
     disk := disk st; tick := tick st |}.

Definition set_syncing_field (b : bool) (s : Sync) : Sync :=
  {| recon := recon s; changeToken := changeToken s;
     changesToExecute := changesToExecute s; synced := synced s;
     syncing := b; handlingRemoteChange := handlingRemoteChange s;
     handlingLocalChange := handlingLocalChange s; closed := closed s;
     watchingChanges := watchingChanges s; savedTime := savedTime s;
     changesSinceSave := changesSinceSave s; stored := stored s;
     loading := loading s; saving := saving s; running := running s |}.

Definition set_synced (b : bool) (s : Sync) : Sync :=
  {| recon := recon s; changeToken := changeToken s;
     changesToExecute := changesToExecute s; synced := b;
     syncing := syncing s; handlingRemoteChange := handlingRemoteChange s;
     handlingLocalChange := handlingLocalChange s; closed := closed s;
     watchingChanges := watchingChanges s; savedTime := savedTime s;
     changesSinceSave := changesSinceSave s; stored := stored s;
     loading := loading s; saving := saving s; running := running s |}.

Abbreviation P := (M Sync Event).

(** The [syncing] setter. *)
Definition set_syncing (value : bool) : P unit :=
  let* s := get in
  if bool_decide (syncing s = value) then ret tt
  else
    modify (set_syncing_field value) >>>
    let* s' := get in
    emit (EmitSyncing (handlingChanges s')) >>>
    notifyChanges.

(** One page of [files.list]. *)
Record FilesPage := {
  fl_nextPageToken : option string;
  fl_files : list File.info;
}.

(** The calls of the Drive client that only the initial sync and the local
    handlers make, answered like those of [Env] by the number of the call. *)
Record Drive := {
  files_list : nat → string → option string → Resp FilesPage;
  files_trash : nat → string → Resp unit;
  files_delete : nat → string → Resp unit;
}.

(** What these methods do to the outside, around the poller's events. *)
Inductive Action :=
| Ev (e : Event)
| FilesList (q : string) (pageToken : option string)
| FilesTrash (fid : string)
| FilesDelete (fid : string)
| ProcessExit (code : nat)
| WatcherInit.

Abbreviation L := (M Sync Action).

Definition liftP {A} (m : P A) : L A :=
  λ s, let '(r, s', ev) := m s in (r, s', Ev <$> ev).

Definition liftR {A} (m : R A) : L A := liftP (lift m).

(** A call that is not awaited: it is run to its end here, and however it
    ends the caller goes on. *)
Definition detached {A} (m : L A) : L unit :=
  λ s, let '(r, s', ev) := m s in
       (match r with OutOfFuel => OutOfFuel | _ => Ok tt end, s', ev).

(** Keys in the order a JS [Set] keeps them: first insertion. *)
Fixpoint set_add_all (seen l : list string) : list string :=
  match l with
  | [] => seen
  | x :: l' => set_add_all (if decide (x ∈ seen) then seen else seen ++ [x]) l'
  end.

(** [Number(n)] for a string of digits: the double nearest to the integer,
    ties to the even significand; [None] stands for [Infinity]. *)
Definition Number_of (n : N) : option N :=
  if (n <? 2 ^ 53)%N then Some n
  else
    let e := (N.log2 n - 52)%N in
    let q := N.shiftr n e in
    let r := (n - N.shiftl q e)%N in
    let half := N.shiftl 1 (e - 1) in
    let q' := if (half <? r)%N || ((r =? half)%N && N.odd q)
              then (q + 1)%N else q in
    let v := N.shiftl q' e in
    if (v <? 2 ^ 1024)%N then Some v else None.

(** [a + b] on two such numbers. *)
Definition js_add (a b : option N) : option N :=
  match a, b with
  | Some x, Some y => Number_of (x + y)
  | _, _ => None
  end.

(** [{counter, ignored, fileSize}] *)
Record FlowResult := {
  counter : nat;
  ignored : nat;
  fileSize : option N;
}.

(** What the datastore record restores: [this[item] = obj[item] || this[item]]
    over the fields to save.  The two dictionaries are objects and a list of
    changes is an array, all truthy even when empty. *)
Definition restore (cp : Checkpoint) (s : Sync) : Sync :=
  {| recon :=
       {| fileInfo := cp_fileInfo cp; paths := paths (recon s);
          onLocalDrive := cp_onLocalDrive cp;
          parentInfoCache := parentInfoCache (recon s);
          lastChanges := lastChanges (recon s);
          rootId := if truthy (cp_rootId cp) then cp_rootId cp
                    else rootId (recon s);
          folder := folder (recon s); disk := disk (recon s);
          tick := tick (recon s) |};
     changeToken := if truthy (cp_changeToken cp) then cp_changeToken cp
                    else changeToken s;
     changesToExecute := match cp_changesToExecute cp with
                         | Some l => Some l
                         | None => changesToExecute s
                         end;
     synced := cp_synced cp || synced s;
     syncing := syncing s; handlingRemoteChange := handlingRemoteChange s;
     handlingLocalChange := handlingLocalChange s; closed := closed s;
     watchingChanges := watchingChanges s; savedTime := savedTime s;
     changesSinceSave := changesSinceSave s; stored := stored s;
     loading := loading s; saving := saving s; running := running s |}.

(** The object as the constructor leaves it, before [load]: mirroring
    [folder], over the given disk and datastore record. *)
Definition constructed (folder : string) (disk : gmap string Node)
  (db : option Checkpoint) : Sync :=
  {| recon := {| fileInfo := ∅; paths := ∅; onLocalDrive := ∅;
                 parentInfoCache := ∅; lastChanges := ∅; rootId := None;
                 folder := folder; disk := disk; tick := 0 |};
     changeToken := None; changesToExecute := None; synced := false;
     syncing := false; handlingRemoteChange := false;
     handlingLocalChange := false; closed := false;
     watchingChanges := false; savedTime := 0; changesSinceSave := 0;
     stored := db; loading := false; saving := false; running := false |}.

(** The double-quote character. *)
Definition dquote : string := String "034"%char EmptyString.

Section Object.
Context (env : Env) (drive : Drive).
(** [account.permanentlyDeleteSetting] *)
Context (permanentlyDeleteSetting : bool).
(** [Object.values(this.fileInfo)]: the records in the order JS enumerates
    the keys, which the dictionary alone does not determine. *)
Context (values : Recon → list File.info).

Definition drive_files_list (q : string) (pageToken : option string)
  : L FilesPage :=
  λ s, (match files_list drive (tick (recon s)) q pageToken with
        | Reply pg => Ok pg
        | Fail e => Throw e
        end, with_recon next_tick s, [FilesList q pageToken]).

Definition drive_files_trash (fid : string) : L unit :=
  λ s, (match files_trash drive (tick (recon s)) fid with
        | Reply _ => Ok tt
        | Fail e => Throw e
        end, with_recon next_tick s, [FilesTrash fid]).

Definition drive_files_delete (fid : string) : L unit :=
  λ s, (match files_delete drive (tick (recon s)) fid with
        | Reply _ => Ok tt
        | Fail e => Throw e
        end, with_recon next_tick s, [FilesDelete fid]).

(** [tryTwice] around a call of this layer. *)
Definition tryTwice_L {A} (fn : L A) : L A :=
  try_catch fn
    (λ err, if bool_decide (err = ECONNRESET)
            then liftR (delay (Q2Qc 2000)) >>> fn
            else throw err).

(** *** Local removals *)

Definition permanentlyDelete (id : string) : L unit :=
  tryTwice_L (drive_files_delete id) >>>
  liftR (logChange "removed" true) >>>
  ret tt.

Definition moveToTrash (id : string) : L unit :=
  tryTwice_L (drive_files_trash id) >>>
  liftR (logChange "move to trash" true) >>>
  ret tt.

Definition onLocalFileRemoved (n : nat) (src : string) : L unit :=
  let* s := get in
  match paths (recon s) !! src with
  | None => ret tt
  | Some id =>
      (match fileInfo (recon s) !! id with
       | Some _ =>
           let* r := liftR (removeFileLocally env n id) in
           if (r : bool) then liftP (save env) else ret tt
       | None => modify (with_recon (with_paths (delete src)))
       end) >>>
      if permanentlyDeleteSetting then permanentlyDelete id
      else moveToTrash id
  end.

(** [process.exit(1)] ends the process: the call never settles.  The
    removal that follows is not awaited. *)
Definition onLocalDirRemoved (n : nat) (src : string) : L unit :=
  let* s := get in
  if bool_decide (src = folder (recon s)) then
    emit (ProcessExit 1) >>> pending
  else detached (onLocalFileRemoved n src).

(** *** Listing the remote tree *)

Definition filesListChunk (pageToken q : option string) : L FilesPage :=
  tryTwice_L
    (drive_files_list
       (if truthy q then default EmptyString q else "trashed = false")
       (if truthy pageToken then pageToken else None)).

Definition folder_query (folder : string) : option string :=
  if bool_decide (folder = EmptyString) then None
  else Some ("trashed = false and " +:+ dquote +:+ folder +:+ dquote
             +:+ " in parents").

(** The [while (nextPageToken)] loop of [folderContents]. *)
Fixpoint folderContents_loop (n : nat) (q : option string)
  (nextPageToken : option string) (files : list File.info)
  : L (list File.info) :=
  if truthy nextPageToken then
    match n with
    | 0 => out_of_fuel
    | S n' =>
        liftR (delay (Q2Qc 20)) >>>
        let* data := filesListChunk nextPageToken q in
        folderContents_loop n' q (fl_nextPageToken data)
          (files ++ fl_files data)
    end
  else ret files.

Definition folderContents (n : nat) (folder : string) : L (list File.info) :=
  let q := folder_query folder in
  let* chunk := filesListChunk None q in
  folderContents_loop n q (fl_nextPageToken chunk) (fl_files chunk).

Fixpoint downloadFolderStructure (n : nat) (folder : string)
  : L (list File.info) :=
  match n with
  | 0 => out_of_fuel
  | S n' =>
      liftR (delay (Q2Qc 110)) >>>
      let* files := folderContents n folder in
      let* below :=
        flat_mapM (λ file,
                     let* sub :=
                       (if isFolder file
                        then downloadFolderStructure n' (File.id file)
                        else ret []) in
                     liftR (storeFileInfo env n file) >>>
                     ret sub)
                  files in
      ret (files ++ below)
  end.

(** *** [computePaths()] over the whole Metadata Cache *)

Definition parents_to_fetch (st : Recon) (infos : list File.info)
  : list string :=
  set_add_all []
    (filter (λ p, needsParentFetch st p = true)
       (concat ((λ i, default [] (File.parents i)) <$> infos))).

Definition prefetch_parents (n : nat) (infos : list File.info) : R unit :=
  let* st := get in
  let ids := parents_to_fetch st infos in
  if bool_decide (ids = []) then ret tt
  else
    let* batch := getFileInfoBatch env n ids in
    modify (with_parentInfoCache (cache_batch batch)).

Definition computePaths (n : nat) (info : File.info) : R unit :=
  computePaths_with (getPaths env n) info.

Definition computePaths_all (n : nat) : R unit :=
  let* st := get in
  prefetch_parents n (values st) >>>
  let* st' := get in
  forM_ (computePaths n) (values st').

(** *** The initial sync *)

Definition flow_one (n : nat) (acc : FlowResult) (file : File.info)
  : L FlowResult :=
  let* s := get in
  if shouldIgnoreFile (recon s) file then
    ret {| counter := counter acc; ignored := S (ignored acc);
           fileSize := fileSize acc |}
  else
    liftR (downloadFile env n file) >>>
    ret {| counter := S (counter acc); ignored := ignored acc;
           fileSize := match File.size file with
                       | Some size => js_add (fileSize acc) (Number_of size)
                       | None => fileSize acc
                       end |}.

Fixpoint flow_window (n : nat) (acc : FlowResult) (fileQueue : list File.info)
  : L FlowResult :=
  match fileQueue with
  | [] => ret acc
  | file :: rest =>
      let* acc' := flow_one n acc file in
      flow_window n acc' rest
  end.

(** The [while (files.length > 0)] loop of [ParallelMapFlow]; the window of
    ten is run in order. *)
Fixpoint ParallelMapFlow_loop (n : nat) (files : list File.info)
  (acc : FlowResult) : L FlowResult :=
  match files with
  | [] => ret acc
  | _ :: _ =>
      match n with
      | 0 => out_of_fuel
      | S n' =>
          let fileQueue := take 10 files in
          liftR (prefetch_parents (S n') fileQueue) >>>
          let* acc' := flow_window (S n') acc fileQueue in
          ParallelMapFlow_loop n' (drop 10 files) acc'
      end
  end.

Definition ParallelMapFlow (n : nat) (files : list File.info) : L FlowResult :=
  ParallelMapFlow_loop n files
    {| counter := 0; ignored := 0; fileSize := Some 0%N |}.

(** [start], called without a callback while no sync is in progress: the
    assertion at its head holds. *)
Definition start (n : nat) : L unit :=
  liftP (set_syncing true) >>>
  try_catch
    (let* rootInfo := liftR (getFileInfo env n "root") in
     match rootInfo with
     | None => throw TypeError
     | Some ri =>
         modify (with_recon (with_rootId (Some (File.id ri)))) >>>
         liftP (startWatchingChanges env) >>>
         let* files := downloadFolderStructure n "root" in
         liftR (computePaths_all n) >>>
         ParallelMapFlow n files >>>
         liftP (set_syncing false) >>>
         modify (set_synced true) >>>
         liftP (save env)
     end)
    (λ err, liftP (set_syncing false) >>> throw err).

(** *** Loading the checkpoint

    [load].  The record [findOne] returns is what the datastore holds.  The
    closing [this.watchChanges()] is recorded like the one of [save]. *)
Definition load (n : nat) : L unit :=
  let* s := get in
  if loading s || saving s then liftP finishSaveOperation
  else
    modify (set_loading true) >>>
    try_catch
      (liftP (db_call env DbFindOne) >>>
       let* s0 := get in
       let obj := stored s0 in
       (match obj with
        | Some cp => modify (restore cp) >>> modify (set_running true)
        | None => ret tt
        end) >>>
       liftR (computePaths_all n) >>>
       emit WatcherInit >>>
       liftP (handleChanges env n) >>>
       let* s' := get in
       (match obj with
        | Some cp =>
            if cp_synced cp && negb (watchingChanges s') then
              modify (set_watchingChanges true) >>> emit (Ev SpawnWatchChanges)
            else ret tt
        | None => ret tt
        end) >>>
       modify (set_loading false))
      (λ err,
         modify (set_loading false) >>>
         liftP (set_handlingRemoteChange false) >>>
         throw err).

End Object.

(** * Specification-level definitions *)

(** The events of a run pushed behind a prefix. *)
Definition after {St Ev A} (ev : list Ev) (x : Outcome A * St * list Ev)
  : Outcome A * St * list Ev :=
  (x.1.1, x.1.2, ev ++ x.2).

(** An [async] call settles when it resolves or rejects. *)
Definition settles {A} (r : Outcome A) : Prop :=
  match r with
  | Ok _ | Throw _ => True
  | Pending | OutOfFuel => False
  end.

Definition resolved {A} (r : Outcome A) : Prop :=
  match r with
  | Ok _ => True
  | _ => False
  end.

(** A run follows a plan: it settles, what it did is an initial part of the
    plan, and all of the plan when it resolved. *)
Definition follows {St Ev A} (x : Outcome A * St * list Ev) (plan : list Ev)
  : Prop :=
  settles x.1.1
  ∧ (∃ rest, plan = x.2 ++ rest)
  ∧ (resolved x.1.1 → x.2 = plan).

(** A computation leaves a projection of the state alone, however it ends. *)
Definition preserves {St Ev X A} (proj : St → X) (m : M St Ev A) : Prop :=
  ∀ s r s' ev, m s = (r, s', ev) → proj s' = proj s.

(** Every [fs.remove] comes right after the [watcher.ignore] of its path. *)
Definition removes_ignored (ev : list Effect) : Prop :=
  ∀ i p, ev !! i = Some (FsRemove p) →
         ∃ j, i = S j ∧ ev !! j = Some (WatcherIgnore p).

(** *** Download, in the words of the specification *)

(** The canonical path already holds a file whose md5 is the record's. *)
Definition on_disk_with_md5 (d : gmap string Node) (p : string)
  (info : File.info) : bool :=
  match d !! p with
  | Some (RegularFile h) => bool_decide (Some h = File.md5Checksum info)
  | _ => false
  end.

(** What probing the canonical path costs: [fs.access], then [md5file] when
    the path exists. *)
Definition probe_events (d : gmap string Node) (p : string) : list Effect :=
  match d !! p with
  | Some _ => [FsAccess p; Md5File p]
  | None => [FsAccess p]
  end.

(** Every remaining path is ignored and filled from the canonical one. *)
Definition copy_plan (canonical : string) (others : list string)
  : list Effect :=
  concat ((λ o, [WatcherIgnore o; FsCopy canonical o]) <$> others).

(** *** Path materialisation, in the words of the specification *)

(** How the walk resolves a parent id once it needs no fetch: side cache
    first, then the Metadata Cache. *)
Definition resolve (st : Recon) (p : string) : option File.info :=
  match parentInfoCache st !! p with
  | Some i => Some i
  | None => fileInfo st !! p
  end.

(** Every parent of every resolvable record below the root is resolvable:
    the walk never has to fetch. *)
Definition cache_closed (st : Recon) : Prop :=
  ∀ p i, resolve st p = Some i → rootId st ≠ Some (File.id i) →
         ∀ ps q, File.parents i = Some ps → q ∈ ps → is_Some (resolve st q).

Definition parents_resolvable (st : Recon) (info : File.info) : Prop :=
  rootId st ≠ Some (File.id info) →
  ∀ ps q, File.parents info = Some ps → q ∈ ps → is_Some (resolve st q).

(** Below the root, every parent of the record resolves to a record of
    smaller rank: the parent chains are finite and fully cached. *)
Definition ranked (st : Recon) (rank : File.info → nat) (info : File.info)
  : Prop :=
  rootId st ≠ Some (File.id info) →
  ∀ ps q, File.parents info = Some ps → q ∈ ps →
          ∃ j, resolve st q = Some j ∧ rank j < rank info.

(** Two states the walk cannot tell apart. *)
Definition agree (st0 st : Recon) : Prop :=
  rootId st = rootId st0 ∧ folder st = folder st0
  ∧ ∀ p, resolve st p = resolve st0 p.

Definition join_all (childName : string) (parentPaths : list string)
  : list string :=
  (λ pp, path_join pp childName) <$> parentPaths.

(** [pathsOf]: the root folder for the root, nothing for a record without
    parents, and otherwise every path of every parent joined with the
    record's name.  [None] when the fuel runs out. *)
Fixpoint pathsOf (n : nat) (st : Recon) (info : File.info)
  : option (list string) :=
  match n with
  | 0 => None
  | S n' =>
      if bool_decide (rootId st = Some (File.id info)) then Some [folder st]
      else
        match File.parents info with
        | None => Some []
        | Some ps =>
            @concat string <$>
              mapM (λ p, match resolve st p with
                         | Some pi => join_all (File.name info) <$> pathsOf n' st pi
                         | None => Some []
                         end) ps
        end
  end.

Definition outcome_of {A} (o : option A) : Outcome A :=
  match o with
  | Some a => Ok a
  | None => OutOfFuel
  end.

(** *** The poller, in the words of the specification *)

(** From a state satisfying [I] the computation ends, however it ends, in a
    state satisfying [I], having emitted only events satisfying [P]. *)
Definition hoare {St Ev A} (I : St → Prop) (P : Ev → Prop) (m : M St Ev A)
  : Prop :=
  ∀ s r s' ev, I s → m s = (r, s', ev) → I s' ∧ Forall P ev.

(** The computation resolves from every state. *)
Definition total {St Ev A} (m : M St Ev A) : Prop :=
  ∀ s, ∃ a s' ev, m s = (Ok a, s', ev).

(** The changes handed to the reconciler, in order. *)
Definition applied_changes (ev : list Event) : list Change :=
  omap (λ e, match e with HandleChange c => Some c | _ => None end) ev.

(** The change tokens of the checkpoints written, in order. *)
Definition checkpoint_tokens (ev : list Event) : list (option string) :=
  omap (λ e, match e with
             | DbUpdate cp => Some (cp_changeToken cp)
             | _ => None
             end) ev.

Definition not_HandleChange (e : Event) : Prop :=
  match e with HandleChange _ => False | _ => True end.

Definition not_DbUpdate (e : Event) : Prop :=
  match e with DbUpdate _ => False | _ => True end.

(** Every checkpoint among the events carries the token [t]. *)
Definition checkpoints_at (t : option string) (e : Event) : Prop :=
  match e with DbUpdate cp => cp_changeToken cp = t | _ => True end.

(** The server's order on tokens, extended to a token not yet obtained. *)
Definition otok_le (le : string → string → Prop) (a b : option string)
  : Prop :=
  match a, b with
  | None, _ => True
  | Some x, Some y => le x y
  | Some _, None => False
  end.

(** The server never answers with a token below the one it was asked
    with. *)
Definition server_monotone (le : string → string → Prop) (env : Env) : Prop :=
  ∀ k tok pg, changes_list env k tok = Reply pg →
    (∀ t, newStartPageToken pg = Some t → le tok t)
    ∧ (∀ t, nextPageToken pg = Some t → le tok t).

(** The invariant of the apply loop: not closed, and a known list of
    pending changes. *)
Definition open_with (cs : list Change) (s : Sync) : Prop :=
  closed s = false ∧ pending_changes s = cs.

(** Steady state: initial sync done, not syncing, not closed. *)
Definition steady (s : Sync) : Prop :=
  syncing s = false ∧ synced s = true ∧ closed s = false.

(** The intervals slept for, in order: every timer call among the events. *)
Definition sleeps (ev : list Event) : list Qc :=
  omap (λ e, match e with Io (Delay d) => Some d | _ => None end) ev.

(** Neither a timer call nor a change handed to the reconciler. *)
Definition idle_event (e : Event) : Prop :=
  match e with
  | Io (Delay _) | HandleChange _ => False
  | _ => True
  end.

(** A feed with nothing new: every page is the last one and holds no
    change. *)
Definition idle_feed (env : Env) : Prop :=
  ∀ k tok, ∃ pg, changes_list env k tok = Reply pg
                 ∧ truthy (nextPageToken pg) = false ∧ changes pg = [].

(** The interval after a steady turn, in the words of the specification:
    the minimum when a change was applied, and otherwise the interval before
    times the backoff factor, capped at the maximum. *)
Definition next_interval (applied : bool) (d : Qc) : Qc :=
  if applied then minDelay else Math_min (d * backoffMultiplier)%Qc maxDelay.

(** The intervals of [k] idle turns in a row that start from [d]. *)
Fixpoint backoff (k : nat) (d : Qc) : list Qc :=
  match k with
  | 0 => []
  | S k' => next_interval false d :: backoff k' (next_interval false d)
  end.

(** Steady, with nothing unsaved: what an idle turn of the poller leaves
    as it is. *)
Definition quiet (s : Sync) : Prop := steady s ∧ changesSinceSave s = 0.

(** The parents of a record as a set of ids. *)
Definition parent_set (i : File.info) : gset string :=
  list_to_set (default [] (File.parents i)).

(** The change is marked removed, or carries a trashed record. *)
Definition marked_gone (c : Change) : Prop :=
  removed c = true ∨ ∃ f, file c = Some f ∧ File.trashed f = true.

(** *** Path delta, in the words of the specification *)

Definition removed_paths (old new : list string) : list string :=
  filter (λ p, p ∉ new) old.

Definition added_paths (old new : list string) : list string :=
  filter (λ p, p ∉ old) new.

(** Destination directories first; then each removed path renamed onto the
    added path of the same index; surplus removed paths deleted; surplus
    added paths copied from the first entry of the new list. *)
Definition path_delta_plan (old new : list string) : list Effect :=
  let rem := removed_paths old new in
  let add := added_paths old new in
  ((λ a, Mkdirp (path_dirname a)) <$> add)
  ++ concat (zip_with (λ r a, [WatcherIgnore r; WatcherIgnore a; FsRename r a])
               rem add)
  ++ concat ((λ r, [WatcherIgnore r; FsRemove r]) <$> drop (length add) rem)
  ++ concat ((λ a, [WatcherIgnore a; FsCopy (nth_path new 0) a])
               <$> drop (length rem) add).

(** * Scenarios

    The two-file folder of the specification's concrete scenarios: root [R]
    mirrored at [/d], a folder [F] below it. *)
Module Scenario.

Definition folderMime : string := "application/vnd.google-apps.folder".

Definition rootInfo : File.info :=
  File.mk "R" "My Drive" folderMime None None "2020-01-01T00:00:00.000Z" None false.

Definition folderF : File.info :=
  File.mk "F" "F" folderMime None None "2020-01-01T00:00:00.000Z" (Some ["R"]) false.

Definition fileA : File.info :=
  File.mk "A" "a.txt" "text/plain" (Some "h1") (Some 3%N)
    "2020-01-01T00:00:00.000Z" (Some ["F"]) false.

Definition env0 : Env := {|
  files_get := λ _ _, Fail (HttpError 404);
  files_get_media := λ _ i,
    if bool_decide (i = "A") then Reply "h1"
    else if bool_decide (i = "B") then Reply "h2"
    else Fail (HttpError 404);
  changes_list := λ _ _, Fail (HttpError 500);
  getStartPageToken := λ _, Reply "1";
  date_now := λ n, Z.of_nat n;
  datastore := λ _, Reply tt;
|}.

(** After the initial sync of [R] and [F]. *)
Definition st0 : Recon := {|
  fileInfo := <["F" := folderF]> (<["R" := rootInfo]> ∅);
  paths := <["/d/F" := "F"]> (<["/d" := "R"]> ∅);
  onLocalDrive := ∅;
  parentInfoCache := ∅;
  lastChanges := ∅;
  rootId := Some "R";
  folder := "/d";
  disk := <["/d/F" := Directory]> (<["/d" := Directory]> ∅);
  tick := 0;
|}.

(** [a.txt] synced below [F] and registered as materialized. *)
Definition stA : Recon := {|
  fileInfo := <["A" := fileA]> (<["F" := folderF]> (<["R" := rootInfo]> ∅));
  paths := <["/d/F/a.txt" := "A"]> (<["/d/F" := "F"]> (<["/d" := "R"]> ∅));
  onLocalDrive := <[base64 "/d/F/a.txt" := true]> ∅;
  parentInfoCache := ∅;
  lastChanges := ∅;
  rootId := Some "R";
  folder := "/d";
  disk := <["/d/F/a.txt" := RegularFile "h1"]>
            (<["/d/F" := Directory]> (<["/d" := Directory]> ∅));
  tick := 0;
|}.

(** [stA] once the walk up from [a.txt] has filled the side cache. *)
Definition stA_walked : Recon :=
  with_parentInfoCache
    (λ _, <["F" := folderF]> (<["R" := rootInfo]> ∅)) stA.

(** The remote reports [a.txt] trashed. *)
Definition trashA : Change :=
  {| removed := false; fileId := "A";
     file := Some (File.mk "A" "a.txt" "text/plain" (Some "h1") (Some 3%N)
                     "2020-01-01T00:00:00.000Z" (Some ["F"]) true) |}.

(** The remote reports the new file [a.txt]. *)
Definition addA : Change :=
  {| removed := false; fileId := "A"; file := Some fileA |}.

(** A change feed that answers token ["10"] with one change and the new
    start token ["11"], and any other token with nothing new. *)
Definition env1 : Env := {|
  files_get := λ _ _, Fail (HttpError 404);
  files_get_media := λ _ i,
    if bool_decide (i = "A") then Reply "h1" else Fail (HttpError 404);
  changes_list := λ _ tok,
    if bool_decide (tok = "10") then
      Reply {| nextPageToken := None; newStartPageToken := Some "11";
               changes := [addA] |}
    else
      Reply {| nextPageToken := None; newStartPageToken := Some tok;
               changes := [] |};
  getStartPageToken := λ _, Reply "10";
  date_now := λ n, Z.of_nat n;
  datastore := λ _, Reply tt;
|}.

(** The object in steady state, holding token ["10"]. *)
Definition sy0 : Sync := {|
  recon := st0;
  changeToken := Some "10";
  changesToExecute := None;
  synced := true;
  syncing := false;
  handlingRemoteChange := false;
  handlingLocalChange := false;
  closed := false;
  watchingChanges := true;
  savedTime := 0;
  changesSinceSave := 0;
  stored := None;
  loading := false;
  saving := false;
  running := false;
|}.

(** A remote whose first media download is reset and whose second one
    succeeds. *)
Definition env3 : Env := {|
  files_get := λ _ _, Fail (HttpError 404);
  files_get_media := λ k _, if bool_decide (k = 0) then Fail ECONNRESET
                            else Reply "h1";
  changes_list := λ _ _, Fail (HttpError 500);
  getStartPageToken := λ _, Reply "1";
  date_now := λ n, Z.of_nat n;
  datastore := λ _, Reply tt;
|}.

(** A change feed that answers token ["10"] with the removal of an id the
    engine has never seen. *)
Definition env4 : Env := {|
  files_get := λ _ _, Fail (HttpError 404);
  files_get_media := λ _ _, Fail (HttpError 404);
  changes_list := λ _ tok,
    if bool_decide (tok = "10") then
      Reply {| nextPageToken := None; newStartPageToken := Some "11";
               changes := [{| removed := true; fileId := "Z"; file := None |}] |}
    else
      Reply {| nextPageToken := None; newStartPageToken := Some tok;
               changes := [] |};
  getStartPageToken := λ _, Reply "10";
  date_now := λ n, Z.of_nat n;
  datastore := λ _, Reply tt;
|}.

(** Tokens compared by length: enough of an order for [env1]. *)
Definition by_length (a b : string) : Prop :=
  String.length a ≤ String.length b.

(** [st0] once the walk up from a child of [F] has filled the side cache. *)
Definition st0_walked : Recon :=
  with_parentInfoCache
    (λ _, <["F" := folderF]> (<["R" := rootInfo]> ∅)) st0.

(** [F] renamed to [G] on the remote. *)
Definition folderG : File.info :=
  File.mk "F" "G" folderMime None None "2020-01-02T00:00:00.000Z" (Some ["R"]) false.

Definition renameF : Change :=
  {| removed := false; fileId := "F"; file := Some folderG |}.

(** A second new file below the same folder. *)
Definition fileB : File.info :=
  File.mk "B" "b.txt" "text/plain" (Some "h2") (Some 5%N)
    "2020-01-03T00:00:00.000Z" (Some ["F"]) false.

Definition addB : Change :=
  {| removed := false; fileId := "B"; file := Some fileB |}.

(** A remote where looking up ["X"] fails with a server error and ["Y"]
    does not exist. *)
Definition env2 : Env := {|
  files_get := λ _ i,
    if bool_decide (i = "X") then Fail (HttpError 500)
    else Fail (HttpError 404);
  files_get_media := λ _ _, Fail (HttpError 404);
  changes_list := λ _ _, Fail (HttpError 500);
  getStartPageToken := λ _, Reply "1";
  date_now := λ n, Z.of_nat n;
  datastore := λ _, Reply tt;
|}.

(** The remote reports an unknown id as removed. *)
Definition removeUnknown : Change :=
  {| removed := true; fileId := "Z"; file := None |}.

(** Two records that differ only in the order of their parents. *)
Definition twoParents : File.info :=
  File.mk "S" "s.txt" "text/plain" (Some "h3") (Some 2%N)
    "2020-01-01T00:00:00.000Z" (Some ["F"; "R"]) false.

Definition twoParentsSwapped : File.info :=
  File.mk "S" "s.txt" "text/plain" (Some "h3") (Some 2%N)
    "2020-01-01T00:00:00.000Z" (Some ["R"; "F"]) false.

(** A second folder [E] below the root, and a file below [F] that the
    remote then also puts below [E]. *)
Definition folderE : File.info :=
  File.mk "E" "E" folderMime None None "2020-01-01T00:00:00.000Z" (Some ["R"]) false.

Definition sharedOld : File.info :=
  File.mk "S" "s.txt" "text/plain" (Some "h3") (Some 2%N)
    "2020-01-01T00:00:00.000Z" (Some ["F"]) false.

Definition sharedNew : File.info :=
  File.mk "S" "s.txt" "text/plain" (Some "h3") (Some 2%N)
    "2020-01-01T00:00:00.000Z" (Some ["F"; "E"]) false.

Definition shareS : Change :=
  {| removed := false; fileId := "S"; file := Some sharedNew |}.

(** [s.txt] synced below [F], next to the empty folder [E]. *)
Definition stS : Recon := {|
  fileInfo := <["S" := sharedOld]> (<["E" := folderE]>
                (<["F" := folderF]> (<["R" := rootInfo]> ∅)));
  paths := <["/d/F/s.txt" := "S"]> (<["/d/E" := "E"]>
             (<["/d/F" := "F"]> (<["/d" := "R"]> ∅)));
  onLocalDrive := ∅;
  parentInfoCache := ∅;
  lastChanges := ∅;
  rootId := Some "R";
  folder := "/d";
  disk := <["/d/F/s.txt" := RegularFile "h3"]> (<["/d/E" := Directory]>
            (<["/d/F" := Directory]> (<["/d" := Directory]> ∅)));
  tick := 0;
|}.

End Scenario.

(** * Further specification-level definitions *)

(** Position of a character in a string, counting from [i]. *)
Fixpoint index_of (c : ascii) (s : string) (i : N) : option N :=
  match s with
  | EmptyString => None
  | String c' s' => if Ascii.eqb c c' then Some i else index_of c s' (i + 1)%N
  end.

(** The sextet a base64 character stands for. *)
Definition b64_index (c : ascii) : option N := index_of c b64_alphabet 0.

(** A computation relates the state it starts from to the state it ends
    in, however it ends. *)
Definition keeps {St Ev A} (rel : St → St → Prop) (m : M St Ev A) : Prop :=
  ∀ s r s' ev, m s = (r, s', ev) → rel s s'.

(** The Metadata Cache and the Path Index have lost no key. *)
Definition grows (st st' : Recon) : Prop :=
  dom (fileInfo st) ⊆ dom (fileInfo st') ∧ dom (paths st) ⊆ dom (paths st').

(** Every path lies in the mirrored folder. *)
Definition all_under (root : string) (ps : list string) : Prop :=
  Forall (λ p, under root p = true) ps.

(** The three components of a run. *)
Definition outcome {St Ev A} (x : Outcome A * St * list Ev) : Outcome A := x.1.1.
Definition final {St Ev A} (x : Outcome A * St * list Ev) : St := x.1.2.
Definition trace {St Ev A} (x : Outcome A * St * list Ev) : list Ev := x.2.

(** When the computation resolves from a state satisfying [pre], it ends
    in a state satisfying [post]. *)
Definition ensures {St Ev A} (pre : St → Prop) (m : M St Ev A)
  (post : St → Prop) : Prop :=
  ∀ s a s' ev, pre s → m s = (Ok a, s', ev) → post s'.

(** The id has a record in the Metadata Cache. *)
Definition cached (fid : string) (st : Recon) : Prop :=
  fid ∈ dom (fileInfo st).

(** The checkpoints written, in order. *)
Definition checkpoints (ev : list Event) : list Checkpoint :=
  omap (λ e, match e with DbUpdate cp => Some cp | _ => None end) ev.

(** The object once [notifyChanges] has run. *)
Definition notified (s : Sync) : Sync :=
  if handlingChanges s then s
  else if bool_decide (lastChanges (recon s) ≠ ∅)
       then with_recon (with_lastChanges (λ _, ∅)) s
       else s.

(** No change is being applied and no initial sync is running, the
    remote-change flag apart. *)
Definition locally_idle (s : Sync) : Prop :=
  syncing s = false ∧ handlingLocalChange s = false.

(** * Further scenarios *)
Module Cases.

(** A file record without parents, cached next to [R] and [F]. *)
Definition orphan : File.info :=
  File.mk "O" "o.txt" "text/plain" (Some "h9") (Some 1%N)
    "2020-01-01T00:00:00.000Z" None false.

Definition stO : Recon :=
  with_fileInfo (<["O" := orphan]>) Scenario.st0.

(** A file below the root whose name climbs out of the folder it is in. *)
Definition climber : File.info :=
  File.mk "X" "../x.txt" "text/plain" (Some "h7") (Some 1%N)
    "2020-01-01T00:00:00.000Z" (Some ["R"]) false.

(** The steady object with one change left to apply. *)
Definition syPending : Sync :=
  set_changesToExecute (Some [Scenario.addA]) Scenario.sy0.

(** The steady object, closed, with the same change left to apply. *)
Definition syClosed : Sync := set_closed true syPending.

(** The steady object before any poller runs. *)
Definition syUnwatched : Sync := set_watchingChanges false Scenario.sy0.

(** A remote that knows the root under both of its names, and whose tree
    is [F] below the root and [a.txt] below [F]. *)
Definition envTree : Env := {|
  files_get := λ _ i,
    if bool_decide (i = "root") || bool_decide (i = "R")
    then Reply Scenario.rootInfo
    else Fail (HttpError 404);
  files_get_media := λ _ i,
    if bool_decide (i = "A") then Reply "h1" else Fail (HttpError 404);
  changes_list := λ _ tok,
    Reply {| nextPageToken := None; newStartPageToken := Some tok;
             changes := [] |};
  getStartPageToken := λ _, Reply "10";
  date_now := λ n, Z.of_nat n;
  datastore := λ _, Reply tt;
|}.

Definition driveTree : Drive := {|
  files_list := λ _ q _,
    if bool_decide (Some q = folder_query "root") then
      Reply {| fl_nextPageToken := None; fl_files := [Scenario.folderF] |}
    else if bool_decide (Some q = folder_query "F") then
      Reply {| fl_nextPageToken := None; fl_files := [Scenario.fileA] |}
    else Reply {| fl_nextPageToken := None; fl_files := [] |};
  files_trash := λ _ _, Reply tt;
  files_delete := λ _ _, Reply tt;
|}.

(** The records in the order of their keys: one enumeration among the
    possible ones. *)
Definition values_by_key (st : Recon) : list File.info :=
  (map_to_list (fileInfo st)).*2.

(** A new object over a disk that holds the mirrored folder only. *)
Definition syNew : Sync :=
  constructed "/d" (<["/d" := Directory]> ∅) None.

(** The checkpoint of the steady object with [addA] left to apply, and a
    new object over the datastore that holds it. *)
Definition cpPending : Checkpoint := checkpoint_of syPending.

Definition syReloaded : Sync :=
  constructed "/d" (<["/d/F" := Directory]> (<["/d" := Directory]> ∅))
    (Some cpPending).

(** The remote of [Scenario.env1] with a clock that shows milliseconds
    since 1970. *)
Definition envClock : Env := {|
  files_get := files_get Scenario.env1;
  files_get_media := files_get_media Scenario.env1;
  changes_list := changes_list Scenario.env1;
  getStartPageToken := getStartPageToken Scenario.env1;
  date_now := λ n, (1600000000000 + Z.of_nat n)%Z;
  datastore := datastore Scenario.env1;
|}.

(** The steady object with [a.txt] synced. *)
Definition syA : Sync := with_recon (λ _, Scenario.stA) Scenario.sy0.

(** Root first, then folders, then files. *)
Definition rank (i : File.info) : nat :=
  if bool_decide (File.id i = "R") then 0
  else if bool_decide (File.id i = "F") then 1
  else 2.

End Cases.

(** No separator in the string. *)
Fixpoint plain (s : string) : bool :=
  match s with
  | EmptyString => true
  | String c s' => negb (is_slash c) && plain s'
  end.

(** A name that is one path segment to [path.join]: not empty, without a
    separator, and neither ["."] nor [".."]. *)
Definition segment (s : string) : bool :=
  plain s && negb (bool_decide (s = EmptyString))
  && negb (bool_decide (s = ".")) && negb (bool_decide (s = "..")).

(** The absolute path made of the given segments. *)
Fixpoint abs_path (segs : list string) : string :=
  match segs with
  | [] => EmptyString
  | seg :: rest => "/" +:+ seg +:+ abs_path rest
  end.

(** A normalised absolute path below the file-system root. *)
Definition clean (p : string) : Prop :=
  ∃ segs, segs ≠ [] ∧ Forall (λ x, segment x = true) segs ∧ p = abs_path segs.

(** A record whose name is a proper path segment. *)
Definition proper (i : File.info) : Prop := segment (File.name i) = true.

(** The mirrored folder is [root], a normalised absolute path, and every
    record the two caches hold is proper. *)
Definition tidy (root : string) (st : Recon) : Prop :=
  folder st = root ∧ clean root
  ∧ map_Forall (λ _ i, proper i) (fileInfo st)
  ∧ map_Forall (λ _ i, proper i) (parentInfoCache st).

(** The remote answers with proper records only. *)
Definition proper_remote (env : Env) : Prop :=
  ∀ k fid i, files_get env k fid = Reply i → proper i.

(** A normalised path that is [root] or lies below it. *)
Definition lands_in (root p : string) : Prop :=
  clean p ∧ under root p = true.

(** From a state satisfying [I] the computation ends, however it ends, in a
    state satisfying [I], and with a result satisfying [Q] when it
    resolves. *)
Definition yields {St Ev A} (I : St → Prop) (m : M St Ev A) (Q : A → Prop)
  : Prop :=
  ∀ s r s' ev, I s → m s = (r, s', ev) → I s' ∧ ∀ a, r = Ok a → Q a.

(** The poller's events among the actions. *)
Definition events_of (ev : list Action) : list Event :=
  omap (λ a, match a with Ev e => Some e | _ => None end) ev.

(** The calls that remove a file on the remote, in order. *)
Definition is_removal (a : Action) : bool :=
  match a with
  | FilesTrash _ | FilesDelete _ => true
  | _ => false
  end.

Definition remote_removals (ev : list Action) : list Action :=
  filter (λ a, is_removal a = true) ev.

(** The Metadata Cache and the Path Index of the object have lost no key. *)
Definition grows_in (s s' : Sync) : Prop := grows (recon s) (recon s').

(** The records the initial sync skips, the ones it downloads, and the
    bytes those announce, summed exactly. *)
Definition skipped (st : Recon) (files : list File.info) : list File.info :=
  filter (λ f, shouldIgnoreFile st f = true) files.

Definition fetched (st : Recon) (files : list File.info) : list File.info :=
  filter (λ f, shouldIgnoreFile st f = false) files.

Definition total_size (files : list File.info) : N :=
  foldr (λ f acc, (default 0 (File.size f) + acc)%N) 0%N files.

(** The listing requests among the actions: query and page token. *)
Definition listings (ev : list Action) : list (string * option string) :=
  omap (λ a, match a with FilesList q t => Some (q, t) | _ => None end) ev.

(** The query a listing sends for a filter that may be missing. *)
Definition sent_query (q : option string) : string :=
  if truthy q then default EmptyString q else "trashed = false".

(** * Properties *)

(** ** Stepping through the monad *)

Section MonadLemmas.
Context {St Ev : Type}.

Lemma after_nil {A} (x : Outcome A * St * list Ev) : after [] x = x.
Proof. destruct x as [[??]?]. reflexivity. Qed.

Lemma after_after {A} e1 e2 (x : Outcome A * St * list Ev) :
  after e1 (after e2 x) = after (e1 ++ e2) x.
Proof. destruct x as [[??]?]. unfold after; simpl. by rewrite (assoc_L (++)). Qed.

Lemma bind_Ok {A B} (m : M St Ev A) (f : A → M St Ev B) s a s1 e1 :
  m s = (Ok a, s1, e1) → bind m f s = after e1 (f a s1).
Proof.
  intros H. unfold bind, after. rewrite H.
  destruct (f a s1) as [[??]?]. reflexivity.
Qed.

Lemma bind_Throw {A B} (m : M St Ev A) (f : A → M St Ev B) s e s1 e1 :
  m s = (Throw e, s1, e1) → bind m f s = (Throw e, s1, e1).
Proof. intros H. unfold bind. by rewrite H. Qed.

Lemma bind_ret {A B} (a : A) (f : A → M St Ev B) s : bind (ret a) f s = f a s.
Proof. rewrite (bind_Ok _ _ s a s []); [apply after_nil | done]. Qed.

Lemma bind_get {B} (f : St → M St Ev B) s : bind get f s = f s s.
Proof. rewrite (bind_Ok _ _ s s s []); [apply after_nil | done]. Qed.

Lemma bind_modify {B} (g : St → St) (f : unit → M St Ev B) s :
  bind (modify g) f s = f tt (g s).
Proof. rewrite (bind_Ok _ _ s tt (g s) []); [apply after_nil | done]. Qed.

Lemma bind_emit {B} (e : Ev) (f : unit → M St Ev B) s :
  bind (emit e) f s = after [e] (f tt s).
Proof. by rewrite (bind_Ok _ _ s tt s [e]). Qed.

Lemma bind_throw {A B} (e : Error) (f : A → M St Ev B) s :
  bind (throw e) f s = (Throw e, s, []).
Proof. by apply bind_Throw. Qed.

Lemma bind_assoc {A B C} (m : M St Ev A) (f : A → M St Ev B)
    (g : B → M St Ev C) s :
  bind (bind m f) g s = bind m (λ a, bind (f a) g) s.
Proof.
  unfold bind. destruct (m s) as [[[a|e| |] s1] e1]; try reflexivity.
  destruct (f a s1) as [[[b|e| |] s2] e2]; try reflexivity.
  destruct (g b s2) as [[r s3] e3]. by rewrite (assoc_L (++)).
Qed.

(** Every way a bind can end, by how its first half ended. *)
Lemma bind_inv {A B} (m : M St Ev A) (f : A → M St Ev B) s r s2 ev :
  bind m f s = (r, s2, ev) →
  (∃ a s1 e1 e2, m s = (Ok a, s1, e1) ∧ f a s1 = (r, s2, e2) ∧ ev = e1 ++ e2)
  ∨ ((∃ r', m s = (r', s2, ev) ∧ ¬ resolved r') ∧ ¬ resolved r).
Proof.
  unfold bind. destruct (m s) as [[[a| e | |] s1] e1] eqn:Hm.
  - destruct (f a s1) as [[r' s''] e2] eqn:Hf. intros [= <- <- <-].
    left. by exists a, s1, e1, e2.
  - intros [= <- <- <-]. right. split; [eexists; split; [done|] |]; by intros [].
  - intros [= <- <- <-]. right. split; [eexists; split; [done|] |]; by intros [].
  - intros [= <- <- <-]. right. split; [eexists; split; [done|] |]; by intros [].
Qed.

Lemma bind_Ok_inv {A B} (m : M St Ev A) (f : A → M St Ev B) s b s2 ev :
  bind m f s = (Ok b, s2, ev) →
  ∃ a s1 e1 e2, m s = (Ok a, s1, e1) ∧ f a s1 = (Ok b, s2, e2) ∧ ev = e1 ++ e2.
Proof.
  intros H. apply bind_inv in H as [H | [_ H]]; [done |].
  by destruct H.
Qed.

(** *** Runs that follow a plan *)

Lemma follows_ret {A} (a : A) (s : St) : follows (ret (E:=Ev) a s) [].
Proof. split; [done|]. split; [by exists [] | done]. Qed.

Lemma follows_emit (e : Ev) (s : St) : follows (emit e s) [e].
Proof. split; [done|]. split; [by exists [] | done]. Qed.

Lemma follows_bind {A B} (m : M St Ev A) (f : A → M St Ev B) s p1 p2 :
  follows (m s) p1 →
  (∀ a s1, follows (f a s1) p2) →
  follows (bind m f s) (p1 ++ p2).
Proof.
  intros (Hs & [rest Hp] & Hok) Hf. unfold bind.
  destruct (m s) as [[[a| e | |] s1] e1]; simpl in *; try done.
  - specialize (Hok I) as ->. specialize (Hf a s1).
    destruct (f a s1) as [[r s2] e2]. destruct Hf as (Hs2 & [rest2 Hp2] & Hok2).
    simpl in *. split; [done|]. split.
    + exists rest2. by rewrite Hp2, (assoc_L (++)).
    + intros Hr. by rewrite (Hok2 Hr).
  - split; [done|]. split; [|done]. simpl. exists (rest ++ p2).
    by rewrite Hp, (assoc_L (++)).
Qed.

Lemma follows_forM_ {A} (f : A → M St Ev unit) (g : A → list Ev) l s :
  (∀ x s', follows (f x s') (g x)) →
  follows (forM_ f l s) (concat (g <$> l)).
Proof.
  intros Hf. revert s. induction l as [|x l IH]; intros s; simpl.
  - apply follows_ret.
  - apply follows_bind; [apply Hf | intros _ s1; apply IH].
Qed.

End MonadLemmas.

(** ** Strings, paths and the disk on examples *)

Example base64_vectors :
  base64 "Man" = "TWFu" ∧ base64 "Ma" = "TWE=" ∧ base64 "M" = "TQ=="
  ∧ base64 "/d/F/a.txt" = "L2QvRi9hLnR4dA==".
Proof. by vm_compute. Qed.

Example path_vectors :
  path_dirname "/d/F/a.txt" = "/d/F" ∧ path_dirname "/a" = "/"
  ∧ path_dirname "a" = "." ∧ path_join "/d/F" "a.txt" = "/d/F/a.txt"
  ∧ path_prefixes "/d/F/a" = ["/d"; "/d/F"; "/d/F/a"].
Proof. by vm_compute. Qed.

(** [path.join] normalises what it joins; [path.dirname] ignores trailing
    separators. *)
Example path_node_vectors :
  path_join "/d" "../x.txt" = "/x.txt" ∧ path_join "/d" "" = "/d"
  ∧ path_join "/d/" "a" = "/d/a" ∧ path_join "/d" "a/" = "/d/a/"
  ∧ path_join "/d" "." = "/d" ∧ path_join "" "" = "."
  ∧ path_dirname "/d/F/" = "/d" ∧ path_dirname "/" = "/"
  ∧ path_dirname "" = "." ∧ path_dirname "a/b" = "a".
Proof. by vm_compute. Qed.

(** [Number] rounds to the nearest double, ties to the even significand. *)
Example Number_rounds :
  Number_of (2 ^ 53 + 1) = Some (2 ^ 53)%N
  ∧ Number_of (2 ^ 53 + 3) = Some (2 ^ 53 + 4)%N
  ∧ js_add (Some (2 ^ 53)%N) (Number_of 1) = Some (2 ^ 53)%N.
Proof. by vm_compute. Qed.

Example disk_rename_moves_subtree :
  disk_rename "/d/F" "/d/G"
    (<["/d/F/a" := RegularFile "h"]>
       (<["/d/F" := Directory]> (<["/d" := Directory]> ∅)))
  = <["/d/G/a" := RegularFile "h"]>
      (<["/d/G" := Directory]> (<["/d" := Directory]> ∅)).
Proof. by vm_compute. Qed.

Example js_sort_paths :
  js_sort ["/d/x.txt"; "/d/F/x.txt"; "/d/G/x.txt"]
  = ["/d/F/x.txt"; "/d/G/x.txt"; "/d/x.txt"].
Proof. by vm_compute. Qed.

(** ** Remote changes: the no-change predicate *)

(** C8, as amended: [noChange] holds exactly when the two records have equal
    names, equal [parents] arrays (the same ids in the same order, or both
    absent) and the new [modifiedTime] is not greater than the old one in
    string order. *)
Theorem noChange_spec (oldInfo newInfo : File.info) :
  noChange oldInfo newInfo = true ↔
  File.name oldInfo = File.name newInfo
  ∧ File.parents oldInfo = File.parents newInfo
  ∧ str_gt (File.modifiedTime newInfo) (File.modifiedTime oldInfo) = false.
Proof.
  unfold noChange.
  destruct (str_gt _ _); [split; [done | by intros (_ & _ & ?)] |].
  destruct (decide (File.name oldInfo = File.name newInfo)) as [Hn|Hn];
    [rewrite bool_decide_eq_false_2 by (by intros ?)
    | rewrite bool_decide_eq_true_2 by done; split; [done | by intros (? & _)]].
  destruct (decide (File.parents oldInfo = File.parents newInfo)) as [Hp|Hp];
    [rewrite bool_decide_eq_false_2 by (by intros ?)
    | rewrite bool_decide_eq_true_2 by done; split; [done | by intros (_ & ? & _)]].
  done.
Qed.

(** C8, as stated, fails: two records with the same id, name and
    [modifiedTime] whose parents are the same set listed in another order
    are not a no-change. *)
Lemma noChange_parent_order :
  File.id Scenario.twoParents = File.id Scenario.twoParentsSwapped
  ∧ ¬ (noChange Scenario.twoParents Scenario.twoParentsSwapped = true ↔
       File.name Scenario.twoParents = File.name Scenario.twoParentsSwapped
       ∧ parent_set Scenario.twoParents = parent_set Scenario.twoParentsSwapped
       ∧ str_gt (File.modifiedTime Scenario.twoParentsSwapped)
           (File.modifiedTime Scenario.twoParents) = false).
Proof.
  split; [reflexivity |]. intros [_ H].
  assert (noChange Scenario.twoParents Scenario.twoParentsSwapped = false)
    as Hf by reflexivity.
  rewrite H in Hf; [discriminate |].
  split; [reflexivity |]. split; [| reflexivity].
  unfold parent_set; simpl. set_solver.
Qed.

(** ** Removal of an unknown id *)

Section Removal.
Context (env : Env).

(** C10: a removed or trashed change whose [fileId] is not in the Metadata
    Cache returns [false] and leaves the whole reconciler state (cache,
    index, Materialized Set, disk) as it was, with no call to the outside. *)
Theorem handleChange_gone_unknown (n : nat) (c : Change) (st : Recon) :
  marked_gone c →
  fileInfo st !! fileId c = None →
  handleChange env n c st = (Ok false, st, []).
Proof.
  intros Hgone Hnone. unfold handleChange.
  assert (∀ k : bool → R bool,
    bind (if removed c then ret true
          else match file c with
               | Some f => ret (File.trashed f)
               | None => throw TypeError
               end) k st = k true st) as ->.
  { intros k. destruct Hgone as [-> | (f & -> & Ht)].
    - apply bind_ret.
    - destruct (removed c); rewrite bind_ret; [done | by rewrite Ht]. }
  unfold removeFileLocally. rewrite (bind_Ok _ _ st false st []).
  - reflexivity.
  - rewrite bind_get. by rewrite Hnone.
Qed.

End Removal.

Lemma handleChange_gone_unknown_witness :
  handleChange Scenario.env0 3 Scenario.removeUnknown Scenario.st0
  = (Ok false, Scenario.st0, []).
Proof.
  apply handleChange_gone_unknown.
  - left. reflexivity.
  - reflexivity.
Defined.

(** ** Path delta *)

Lemma nth_path_cons x l i : nth_path (x :: l) (S i) = nth_path l i.
Proof. reflexivity. Qed.

Lemma follows_mkdirp p st : follows (mkdirp p st) [Mkdirp p].
Proof. split; [done|]. split; [by exists [] | done]. Qed.

Lemma follows_fs_remove p st : follows (fs_remove p st) [FsRemove p].
Proof. split; [done|]. split; [by exists [] | done]. Qed.

Lemma follows_fs_rename a b st : follows (fs_rename a b st) [FsRename a b].
Proof.
  unfold fs_rename. destruct (disk st !! a);
    (split; [done|]; split; [by exists [] | done]).
Qed.

Lemma follows_fs_copy a b st : follows (fs_copy a b st) [FsCopy a b].
Proof.
  unfold fs_copy. destruct (disk st !! a);
    (split; [done|]; split; [by exists [] | done]).
Qed.

Lemma follows_watcher_ignore p st :
  follows (watcher_ignore p st) [WatcherIgnore p].
Proof. apply follows_emit. Qed.

Lemma nth_path_seq_drop (l : list string) k :
  nth_path l <$> seq k (length l - k) = drop k l.
Proof.
  apply list_eq. intros i. rewrite list_lookup_fmap, lookup_drop.
  destruct (decide (i < length l - k)) as [Hlt|Hge].
  - rewrite lookup_seq_lt by done. simpl. unfold nth_path.
    destruct (l !! (k + i)) eqn:Hl; [done |].
    apply lookup_ge_None in Hl. lia.
  - rewrite lookup_seq_ge by lia. simpl. symmetry.
    apply lookup_ge_None. lia.
Qed.

Lemma surplus_only (rem : list string) :
  concat ((λ i, [WatcherIgnore (nth_path rem i); FsRemove (nth_path rem i)])
            <$> seq 0 (length rem))
  = concat ((λ r, [WatcherIgnore r; FsRemove r]) <$> rem).
Proof.
  transitivity (concat ((λ r, [WatcherIgnore r; FsRemove r]) <$> drop 0 rem));
    [| by rewrite drop_0].
  rewrite <- nth_path_seq_drop, Nat.sub_0_r.
  by rewrite <- list_fmap_compose.
Qed.

Lemma rename_loop_plan (rem add : list string) :
  concat ((λ i, if bool_decide (i < length add)
                then [WatcherIgnore (nth_path rem i);
                      WatcherIgnore (nth_path add i);
                      FsRename (nth_path rem i) (nth_path add i)]
                else [WatcherIgnore (nth_path rem i);
                      FsRemove (nth_path rem i)])
            <$> seq 0 (length rem))
  = concat (zip_with (λ r a, [WatcherIgnore r; WatcherIgnore a; FsRename r a])
              rem add)
    ++ concat ((λ r, [WatcherIgnore r; FsRemove r]) <$> drop (length add) rem).
Proof.
  revert add. induction rem as [|r rem IH]; intros add.
  - by rewrite drop_nil.
  - destruct add as [|a add].
    + rewrite zip_with_nil_r, drop_0, <- surplus_only. simpl app.
      reflexivity.
    + cbn [length]. rewrite <- cons_seq, fmap_cons, <- fmap_S_seq, <- list_fmap_compose.
      rewrite bool_decide_eq_true_2 by lia.
      cbn [zip_with concat drop]. rewrite <- !(assoc_L (++)). 
      change (nth_path (r :: rem) 0) with r. change (nth_path (a :: add) 0) with a.
      f_equal. rewrite <- IH. f_equal. apply list_fmap_ext.
      intros _ i _. simpl. rewrite !nth_path_cons.
      destruct (decide (i < length add)).
      * by rewrite !bool_decide_eq_true_2 by lia.
      * by rewrite !bool_decide_eq_false_2 by lia.
Qed.

Lemma concat_fmap_singleton {A B} (f : A → B) (l : list A) :
  concat ((λ x, [f x]) <$> l) = f <$> l.
Proof. induction l as [|x l IH]; [done |]. simpl. f_equal. apply IH. Qed.

Lemma copy_loop_plan (src : string) (rem add : list string) :
  concat ((λ i, [WatcherIgnore (nth_path add i); FsCopy src (nth_path add i)])
            <$> seq (length rem) (length add - length rem))
  = concat ((λ a, [WatcherIgnore a; FsCopy src a]) <$> drop (length rem) add).
Proof.
  rewrite <- nth_path_seq_drop, <- list_fmap_compose. reflexivity.
Qed.

(** Handed a non-empty old list, the path-delta step does what the plan
    says and in that order, as far as it gets: a failing file-system call
    stops it at that call. *)
Lemma changePaths_follows_plan (oldPaths newPaths : list string) (st : Recon) :
  oldPaths ≠ [] →
  follows (changePaths oldPaths newPaths st) (path_delta_plan oldPaths newPaths).
Proof.
  intros Hne. unfold changePaths, path_delta_plan.
  rewrite bool_decide_eq_false_2 by done.
  fold (removed_paths oldPaths newPaths). fold (added_paths oldPaths newPaths).
  rewrite <- (copy_loop_plan (nth_path newPaths 0)).
  rewrite (assoc_L (++) (concat _) (concat _)), <- rename_loop_plan.
  apply follows_bind.
  { rewrite <- concat_fmap_singleton.
    apply follows_forM_. intros p s. apply follows_mkdirp. }
  intros _ s1. apply follows_bind.
  { apply follows_forM_. intros i s. case_bool_decide.
    - apply (follows_bind _ _ _ [_] [_; _]); [apply follows_watcher_ignore |].
      intros _ s2. apply (follows_bind _ _ _ [_] [_]);
        [apply follows_watcher_ignore | intros; apply follows_fs_rename].
    - apply (follows_bind _ _ _ [_] [_]);
        [apply follows_watcher_ignore | intros; apply follows_fs_remove]. }
  intros _ s2. apply follows_forM_. intros i s.
  apply (follows_bind _ _ _ [_] [_]);
    [apply follows_watcher_ignore | intros; apply follows_fs_copy].
Qed.

Lemma mkdir_each_run (ps : list string) : ∀ st,
  forM_ (λ p, mkdirp (path_dirname p)) ps st
  = (Ok tt, foldl (λ s p, with_disk (disk_mkdirp (path_dirname p)) s) st ps,
     (λ p, Mkdirp (path_dirname p)) <$> ps).
Proof.
  induction ps as [|p ps IH]; intros st; [done |].
  cbn [forM_]. unfold mkdirp at 1.
  erewrite bind_Ok; [| reflexivity]. by rewrite IH.
Qed.

(** C6 fails on the code: the surplus added paths are copied from the first
    entry of the new list, not from the first new path that survives.  When
    every old path survives and the new list starts with an added path [a],
    the step ignores [a] and copies [a] onto itself; [a] does not exist, the
    copy is rejected and the step ends there: no added path is filled,
    although a surviving path was there to copy from. *)
Theorem changePaths_copies_added_path (oldPaths newPaths : list string)
    (a : string) (st : Recon) :
  oldPaths ≠ [] →
  removed_paths oldPaths newPaths = [] →
  head newPaths = Some a →
  a ∉ oldPaths →
  let added := added_paths oldPaths newPaths in
  let st1 := foldl (λ s p, with_disk (disk_mkdirp (path_dirname p)) s)
               st added in
  disk st1 !! a = None →
  changePaths oldPaths newPaths st
  = (Throw (ENOENT a), st1,
     ((λ p, Mkdirp (path_dirname p)) <$> added)
     ++ [WatcherIgnore a; FsCopy a a])
  ∧ (∃ p, p ∈ oldPaths ∧ p ∈ newPaths).
Proof.
  intros Hne Hrem Hhead Ha added st1 Hnone. split.
  - unfold changePaths. rewrite bool_decide_eq_false_2 by done.
    fold (removed_paths oldPaths newPaths). fold (added_paths oldPaths newPaths).
    rewrite Hrem. fold added. rewrite (bind_Ok _ _ _ _ _ _ (mkdir_each_run _ _)).
    fold st1. cbn [length seq forM_]. rewrite bind_ret, Nat.sub_0_r.
    destruct newPaths as [|a' new']; [done |]. injection Hhead as ->.
    assert (added = a :: added_paths oldPaths new') as Hadd.
    { unfold added, added_paths. by rewrite filter_cons, decide_True. }
    rewrite Hadd. cbn [length seq forM_].
    change (nth_path (a :: added_paths oldPaths new') 0) with a.
    change (nth_path (a :: new') 0) with a.
    unfold after, bind, watcher_ignore, emit, fs_copy. rewrite Hnone.
    simpl. reflexivity.
  - destruct oldPaths as [|p old']; [done |]. exists p.
    split; [by left |].
    destruct (decide (p ∈ newPaths)) as [Hin|Hout]; [done |].
    unfold removed_paths in Hrem.
    by rewrite filter_cons, decide_True in Hrem.
Qed.

(** ** Frames: what a computation leaves alone *)

Section Frames.
Context {St Ev X : Type} (proj : St → X).

Lemma preserves_ret {A} (a : A) : preserves proj (ret (E:=Ev) a).
Proof. by intros s r s' ev [= _ <- _]. Qed.

Lemma preserves_get : preserves proj (get (E:=Ev)).
Proof. by intros s r s' ev [= _ <- _]. Qed.

Lemma preserves_emit (e : Ev) : preserves proj (emit (S:=St) e).
Proof. by intros s r s' ev [= _ <- _]. Qed.

Lemma preserves_throw {A} e : preserves proj (throw (E:=Ev) (A:=A) e).
Proof. by intros s r s' ev [= _ <- _]. Qed.

Lemma preserves_pending {A} : preserves proj (pending (E:=Ev) (A:=A)).
Proof. by intros s r s' ev [= _ <- _]. Qed.

Lemma preserves_out_of_fuel {A} : preserves proj (out_of_fuel (E:=Ev) (A:=A)).
Proof. by intros s r s' ev [= _ <- _]. Qed.

Lemma preserves_modify (g : St → St) :
  (∀ s, proj (g s) = proj s) → preserves proj (modify (E:=Ev) g).
Proof. intros Hg s r s' ev [= _ <- _]. apply Hg. Qed.

Lemma preserves_bind {A B} (m : M St Ev A) (f : A → M St Ev B) :
  preserves proj m → (∀ a, preserves proj (f a)) → preserves proj (bind m f).
Proof.
  intros Hm Hf s r s' ev H. apply bind_inv in H
    as [(a & s1 & e1 & e2 & H1 & H2 & _) | [(r' & H1 & _) _]].
  - rewrite (Hf _ _ _ _ _ H2). by eapply Hm.
  - by eapply Hm.
Qed.

Lemma preserves_try_catch {A} (m : M St Ev A) h :
  preserves proj m → (∀ e, preserves proj (h e)) → preserves proj (try_catch m h).
Proof.
  intros Hm Hh s r s' ev. unfold try_catch.
  destruct (m s) as [[[a|e| |] s1] e1] eqn:H1.
  - intros [= _ <- _]. by eapply Hm.
  - destruct (h e s1) as [[r2 s2] e2] eqn:H2. intros [= _ <- _].
    rewrite (Hh _ _ _ _ _ H2). by eapply Hm.
  - intros [= _ <- _]. by eapply Hm.
  - intros [= _ <- _]. by eapply Hm.
Qed.

Lemma preserves_forM_ {A} (f : A → M St Ev unit) l :
  (∀ x, preserves proj (f x)) → preserves proj (forM_ f l).
Proof.
  intros Hf. induction l as [|x l IH]; simpl.
  - apply preserves_ret.
  - apply preserves_bind; [apply Hf | intros _; apply IH].
Qed.

Lemma preserves_map_async {A B} (f : A → M St Ev B) l :
  (∀ x, preserves proj (f x)) → preserves proj (map_async f l).
Proof.
  intros Hf. induction l as [|x l IH]; simpl.
  - apply preserves_ret.
  - apply preserves_bind; [apply Hf | intros y].
    apply preserves_bind; [apply IH | intros ys; apply preserves_ret].
Qed.

Lemma preserves_flat_mapM {A B} (f : A → M St Ev (list B)) l :
  (∀ x, preserves proj (f x)) → preserves proj (flat_mapM f l).
Proof.
  intros Hf. induction l as [|x l IH]; simpl.
  - apply preserves_ret.
  - apply preserves_bind; [apply Hf | intros y].
    apply preserves_bind; [apply IH | intros ys; apply preserves_ret].
Qed.

End Frames.

Section ReconFrames.
Context (env : Env) {X : Type} (proj : Recon → X).
(** The projection does not look at the caches, the index or the clock. *)
Context (Hfi : ∀ g st, proj (with_fileInfo g st) = proj st).
Context (Hpa : ∀ g st, proj (with_paths g st) = proj st).
Context (Hpc : ∀ g st, proj (with_parentInfoCache g st) = proj st).
Context (Htk : ∀ st, proj (next_tick st) = proj st).

Lemma preserves_drive_files_get fid : preserves proj (drive_files_get env fid).
Proof. intros s r s' ev [= _ <- _]. apply Htk. Qed.

Lemma preserves_tryTwice {A} (fn : R A) :
  preserves proj fn → preserves proj (tryTwice fn).
Proof.
  intros Hfn. apply preserves_try_catch; [done |]. intros e.
  case_bool_decide; [| apply preserves_throw].
  apply preserves_bind; [apply preserves_emit | done].
Qed.

Section Knot.
Context (walk : option File.info → R (list string)).
Context (Hwalk : ∀ x, preserves proj (walk x)).

Lemma preserves_storeFileInfo_with info :
  preserves proj (storeFileInfo_with walk info).
Proof.
  unfold storeFileInfo_with, computePaths_with.
  repeat (first [ apply preserves_bind; [| intros ?]
                | apply preserves_modify; intros; first [apply Hpa | apply Hpc | apply Hfi]
                | apply preserves_ret | apply Hwalk ]).
Qed.

Lemma preserves_getFileInfo_with fid :
  preserves proj (getFileInfo_with env walk fid).
Proof.
  unfold getFileInfo_with.
  apply preserves_bind; [apply preserves_get | intros st].
  destruct (fileInfo st !! fid); [apply preserves_ret |].
  apply preserves_bind.
  - apply preserves_try_catch.
    + apply preserves_bind; [| intros; apply preserves_ret].
      apply preserves_tryTwice, preserves_drive_files_get.
    + intros e. case_bool_decide; [apply preserves_ret | apply preserves_throw].
  - intros [i|]; [| apply preserves_ret].
    apply preserves_bind; [apply preserves_storeFileInfo_with | intros; apply preserves_ret].
Qed.

Lemma preserves_getFileInfoBatch_with ids :
  preserves proj (getFileInfoBatch_with env walk ids).
Proof.
  unfold getFileInfoBatch_with.
  apply preserves_bind; [apply preserves_get | intros st].
  case_bool_decide; [apply preserves_ret |].
  apply preserves_bind.
  - apply preserves_map_async. intros fid. apply preserves_try_catch.
    + apply preserves_bind; [apply preserves_getFileInfo_with | intros; apply preserves_ret].
    + intros e. case_bool_decide; apply preserves_ret.
  - intros settled. apply preserves_bind; [apply preserves_get | intros; apply preserves_ret].
Qed.

Lemma preserves_getPaths_body x :
  preserves proj (getPaths_body env walk x).
Proof.
  unfold getPaths_body. destruct x as [info|]; [| apply preserves_ret].
  apply preserves_bind; [apply preserves_get | intros st].
  case_bool_decide; [apply preserves_ret |].
  destruct (File.parents info) as [ps|]; [| apply preserves_ret].
  apply preserves_bind.
  - case_bool_decide; [apply preserves_ret |].
    apply preserves_bind; [apply preserves_getFileInfoBatch_with | intros batch].
    apply preserves_modify. intros; apply Hpc.
  - intros _. apply preserves_flat_mapM. intros parent. unfold parent_paths.
    apply preserves_bind; [apply preserves_get | intros st1].
    apply preserves_bind.
    + destruct (parentInfoCache st1 !! parent); [apply preserves_ret |].
      destruct (fileInfo st1 !! parent).
      * apply preserves_bind; [apply preserves_modify; intros; apply Hpc | intros; apply preserves_ret].
      * apply preserves_bind; [apply preserves_getFileInfo_with | intros [pi|]; [| apply preserves_ret]].
        apply preserves_bind; [apply preserves_modify; intros; apply Hpc | intros; apply preserves_ret].
    + intros pi. apply preserves_bind; [apply Hwalk | intros; apply preserves_ret].
Qed.
End Knot.

Lemma preserves_getPaths n x : preserves proj (getPaths env n x).
Proof.
  revert x. induction n as [|n IH]; intros x; simpl.
  - apply preserves_out_of_fuel.
  - by apply preserves_getPaths_body.
Qed.

End ReconFrames.

(** ** Local removal *)

Lemma disk_remove_self p d : disk_remove p d !! p = None.
Proof.
  unfold disk_remove. apply map_lookup_filter_None. right. intros x _. simpl.
  unfold under. by rewrite bool_decide_eq_true_2.
Qed.

Lemma disk_remove_subseteq p d : disk_remove p d ⊆ d.
Proof. apply map_filter_subseteq. Qed.

Lemma with_disk_same st : with_disk (λ _, disk st) st = st.
Proof. by destruct st. Qed.

Lemma removes_ignored_app e1 e2 :
  removes_ignored e1 → removes_ignored e2 → removes_ignored (e1 ++ e2).
Proof.
  intros H1 H2 i p Hi. apply lookup_app_Some in Hi as [Hi | [Hge Hi]].
  - destruct (H1 i p Hi) as (j & -> & Hj). exists j. split; [done |].
    by apply lookup_app_l_Some.
  - destruct (H2 _ p Hi) as (j & Hij & Hj). exists (length e1 + j). split; [lia |].
    rewrite lookup_app_r by lia. by replace (length e1 + j - length e1) with j by lia.
Qed.

Lemma remove_step p (r : bool) st :
  try_catch
    (fs_access p >>> watcher_ignore p >>> fs_remove p >>> ret true)
    (λ _, ret r) st
  = match disk st !! p with
    | Some _ => (Ok true, with_disk (disk_remove p) st,
                 [FsAccess p; WatcherIgnore p; FsRemove p])
    | None => (Ok r, st, [FsAccess p])
    end.
Proof.
  unfold try_catch, bind, fs_access, watcher_ignore, emit, fs_remove, ret.
  destruct (disk st !! p); reflexivity.
Qed.

Lemma remove_each_spec ps : ∀ (r : bool) st,
  ∃ b d' ev,
    remove_each ps r st = (Ok b, with_disk (λ _, d') st, ev)
    ∧ d' ⊆ disk st
    ∧ (∀ p, p ∈ ps → d' !! p = None)
    ∧ removes_ignored ev
    ∧ (b = true ↔ r = true ∨ ∃ p, p ∈ ps ∧ is_Some (disk st !! p))
    ∧ (b = true ↔ r = true ∨ ∃ p, FsRemove p ∈ ev).
Proof.
  induction ps as [|p ps IH]; intros r st.
  - exists r, (disk st), []. rewrite with_disk_same. split; [done |].
    split; [done |]. split; [intros p Hp; by apply elem_of_nil in Hp |].
    split; [by intros i p Hi |].
    split; (split; [by left | intros [? | (p & Hp)]; [done |]]).
    + destruct Hp as [Hp _]. by apply elem_of_nil in Hp.
    + by apply elem_of_nil in Hp.
  - simpl. destruct (disk st !! p) as [nd|] eqn:Hp.
    + destruct (IH true (with_disk (disk_remove p) st))
        as (b & d' & ev & Hrun & Hsub & Hgone & Hign & Hb1 & Hb2).
      exists b, d', ([FsAccess p; WatcherIgnore p; FsRemove p] ++ ev).
      split. { erewrite bind_Ok; [| by rewrite remove_step, Hp]. by rewrite Hrun. }
      simpl in Hsub.
      split. { etrans; [done | apply disk_remove_subseteq]. }
      split. { intros q [-> | Hq]%elem_of_cons; [| by apply Hgone].
               eapply lookup_weaken_None; [apply disk_remove_self | done]. }
      split. { apply removes_ignored_app; [| done].
               intros [|[|[|i]]] q; simpl; intros [=]. subst. by exists 1. }
      assert (b = true) as -> by (apply Hb1; by left).
      split; (split; [intros _; right | done]).
      * exists p. split; [left | by rewrite Hp].
      * exists p. apply elem_of_app. left. do 2 right. left.
    + destruct (IH r st) as (b & d' & ev & Hrun & Hsub & Hgone & Hign & Hb1 & Hb2).
      exists b, d', ([FsAccess p] ++ ev).
      split. { erewrite bind_Ok; [| by rewrite remove_step, Hp]. by rewrite Hrun. }
      split; [done |].
      split. { intros q [-> | Hq]%elem_of_cons; [| by apply Hgone].
               by eapply lookup_weaken_None. }
      split. { apply removes_ignored_app; [| done].
               intros [|i] q; simpl; intros [=]. }
      split.
      * rewrite Hb1. split; intros [? | (q & Hq & Hsome)]; [by left | | by left |].
        -- right. exists q. split; [by right | done].
        -- apply elem_of_cons in Hq as [-> | Hq].
           ++ rewrite Hp in Hsome. by destruct Hsome.
           ++ right. by exists q.
      * rewrite Hb2. split; intros [? | (q & Hq)]; [by left | | by left |].
        -- right. exists q. by right.
        -- right. exists q. by apply elem_of_cons in Hq as [[=] | Hq].
Qed.

Section RemovalKnown.
Context (env : Env).

Lemma gone_prelude (c : Change) (k : bool → R bool) st :
  marked_gone c →
  bind (if removed c then ret true
        else match file c with
             | Some f => ret (File.trashed f)
             | None => throw TypeError
             end) k st = k true st.
Proof.
  intros [Hr | (f & Hf & Ht)].
  - rewrite Hr. apply bind_ret.
  - rewrite Hf. destruct (removed c); rewrite bind_ret; [done | by rewrite Ht].
Qed.

Lemma foldl_delete_lookup (ps : list string) (m : gmap string string) p :
  p ∈ ps → foldl (λ m p, delete p m) m ps !! p = None.
Proof.
  revert m. induction ps as [|q ps IH]; intros m Hp; [by apply elem_of_nil in Hp |].
  simpl. destruct (decide (p ∈ ps)) as [Hin | Hnin]; [by apply IH |].
  apply elem_of_cons in Hp as [-> | ?]; [| done].
  clear IH. revert m. induction ps as [|r ps IH]; intros m; simpl.
  - apply lookup_delete_eq.
  - apply not_elem_of_cons in Hnin as [Hne Hnin].
    rewrite delete_delete. by apply IH.
Qed.

(** C3, as amended: for a change marked removed or trashed whose id is in
    the Metadata Cache, once the record's paths [ps] have been computed the
    handler removes the record from the cache and the paths from the Path
    Index, leaves none of the paths on disk, puts a [watcher.ignore] right
    before every [fs.remove], leaves the Materialized Set as it was, and
    returns [true] exactly when one of the paths was on disk, that is when
    an [fs.remove] was issued. *)
Theorem handleChange_removes_known (n : nat) (c : Change) (st : Recon)
    (info : File.info) (ps : list string) (st1 : Recon) (ev1 : list Effect) :
  marked_gone c →
  fileInfo st !! fileId c = Some info →
  getPaths env n (Some info) st = (Ok ps, st1, ev1) →
  ∃ (b : bool) st' ev2,
    handleChange env n c st = (Ok b, st', ev1 ++ ev2)
    ∧ fileInfo st' = delete (fileId c) (fileInfo st1)
    ∧ (∀ p, p ∈ ps → paths st' !! p = None)
    ∧ onLocalDrive st' = onLocalDrive st
    ∧ (∀ p, p ∈ ps → disk st' !! p = None)
    ∧ removes_ignored ev2
    ∧ (b = true ↔ ∃ p, p ∈ ps ∧ is_Some (disk st !! p))
    ∧ (b = true ↔ ∃ p, FsRemove p ∈ ev2).
Proof.
  intros Hgone Hinfo Hwalk.
  assert (onLocalDrive st1 = onLocalDrive st) as Hold.
  { by eapply (preserves_getPaths env onLocalDrive). }
  assert (disk st1 = disk st) as Hdisk.
  { by eapply (preserves_getPaths env disk). }
  set (st2 := with_paths (λ m, foldl (λ m p, delete p m) m ps)
                (with_fileInfo (delete (fileId c)) st1)).
  assert (∃ (b : bool) d' ev2,
    removeFileLocally env n (fileId c) st
      = (Ok b, with_disk (λ _, d') st2, ev1 ++ ev2)
    ∧ (∀ p, p ∈ ps → d' !! p = None)
    ∧ removes_ignored ev2
    ∧ (b = true ↔ ∃ p, p ∈ ps ∧ is_Some (disk st !! p))
    ∧ (b = true ↔ ∃ p, FsRemove p ∈ ev2)) as (b & d' & ev2 & Hrun & Hd & Hign & Hb1 & Hb2).
  { unfold removeFileLocally. rewrite bind_get, Hinfo.
    rewrite (bind_Ok _ _ _ _ _ _ Hwalk), !bind_modify. fold st2.
    case_bool_decide as Hps.
    - exists false, (disk st2), []. rewrite with_disk_same. subst ps.
      split; [done |]. split; [by intros p Hp%elem_of_nil |].
      split; [by intros i p Hi |].
      split; [split; [done | by intros (p & Hp%elem_of_nil & _)]
             | split; [done | by intros (p & Hp%elem_of_nil)]].
    - destruct (remove_each_spec ps false st2)
        as (b & d' & ev2 & Hrun & Hsub & Hgone' & Hign & Hb1 & Hb2).
      exists b, d', ev2. rewrite Hrun. split; [done |]. split; [done |].
      split; [done |]. split.
      + rewrite Hb1. change (disk st2) with (disk st1). rewrite Hdisk.
        split; [by intros [? | ?] | by right].
      + rewrite Hb2. split; [by intros [? | ?] | by right]. }
  unfold handleChange. rewrite gone_prelude by done.
  rewrite (bind_Ok _ _ _ _ _ _ Hrun). unfold logChange.
  destruct b.
  - rewrite bind_modify. unfold after, ret; simpl. rewrite app_nil_r.
    do 3 eexists. split; [done |]. simpl.
    split; [done |]. split; [intros ??; by apply foldl_delete_lookup |]. done.
  - rewrite bind_ret. unfold after, ret; simpl. rewrite app_nil_r.
    do 3 eexists. split; [done |]. simpl.
    split; [done |]. split; [intros ??; by apply foldl_delete_lookup |]. done.
Qed.

End RemovalKnown.

Lemma handleChange_removes_known_witness :
  ∃ (b : bool) st' ev2,
    handleChange Scenario.env0 3 Scenario.trashA Scenario.stA
      = (Ok b, st', [] ++ ev2)
    ∧ fileInfo st' = delete "A" (fileInfo Scenario.stA_walked)
    ∧ (∀ p, p ∈ ["/d/F/a.txt"] → paths st' !! p = None)
    ∧ onLocalDrive st' = onLocalDrive Scenario.stA
    ∧ (∀ p, p ∈ ["/d/F/a.txt"] → disk st' !! p = None)
    ∧ removes_ignored ev2
    ∧ (b = true ↔ ∃ p, p ∈ ["/d/F/a.txt"] ∧ is_Some (disk Scenario.stA !! p))
    ∧ (b = true ↔ ∃ p, FsRemove p ∈ ev2).
Proof.
  apply (handleChange_removes_known Scenario.env0 3 Scenario.trashA
           Scenario.stA Scenario.fileA).
  - right. eexists. split; reflexivity.
  - reflexivity.
  - vm_compute. reflexivity.
Defined.

(** C3, as stated, fails: after the trashed record's file has been removed
    from disk, its path is still registered in the Materialized Set. *)
Lemma removal_keeps_registration :
  marked_gone Scenario.trashA
  ∧ is_Some (fileInfo Scenario.stA !! fileId Scenario.trashA)
  ∧ locallyRegistered Scenario.stA "/d/F/a.txt" = true
  ∧ ∃ st' ev,
      handleChange Scenario.env0 3 Scenario.trashA Scenario.stA
        = (Ok true, st', ev)
      ∧ disk st' !! "/d/F/a.txt" = None
      ∧ locallyRegistered st' "/d/F/a.txt" = true.
Proof.
  split; [right; eexists; split; reflexivity |].
  split; [by eexists |]. split; [by vm_compute |].
  eexists _, _. split; [vm_compute; reflexivity |].
  split; by vm_compute.
Qed.

(** ** Download *)

Section Download.
Context (env : Env).

Lemma bind_mkdirp {B} p (f : unit → R B) st :
  bind (mkdirp p) f st = after [Mkdirp p] (f tt (with_disk (disk_mkdirp p) st)).
Proof. by apply bind_Ok. Qed.

Lemma probe_run (p : string) (info : File.info) st :
  try_catch
    (fs_access p >>>
     let* h := md5file p in
     ret (bool_decide (Some h = File.md5Checksum info)))
    (λ _, ret false) st
  = (Ok (on_disk_with_md5 (disk st) p info), st, probe_events (disk st) p).
Proof.
  unfold try_catch, bind, fs_access, md5file, ret, on_disk_with_md5, probe_events.
  destruct (disk st !! p) as [[h|]|]; reflexivity.
Qed.

Lemma copies_run (p1 : string) (others : list string) st :
  let x := bind (forM_ (λ o, watcher_ignore o >>> fs_copy p1 o) others)
             (λ _, ret true) st in
  follows x (copy_plan p1 others) ∧ (resolved x.1.1 → x.1.1 = Ok true).
Proof.
  simpl. split.
  - rewrite <- (app_nil_r (copy_plan p1 others)). apply follows_bind.
    + apply follows_forM_. intros o s.
      apply (follows_bind _ _ _ [_] [_]);
        [apply follows_watcher_ignore | intros; apply follows_fs_copy].
    + intros. apply follows_ret.
  - unfold bind. destruct (forM_ _ _ _) as [[[[]|e| |] s1] e1]; by simpl.
Qed.

Lemma attempt_fail (info : File.info) (tmp p1 : string) st e :
  files_get_media env (tick st) (File.id info) = Fail e →
  download_attempt env info tmp p1 st
  = (Throw e, with_disk (disk_remove tmp) (next_tick st),
     [WatcherIgnore p1; FilesGetMedia (File.id info); FsRemove tmp]).
Proof.
  intros H. unfold download_attempt, try_catch, bind, watcher_ignore, emit,
    drive_files_get_media, fs_remove, throw.
  by rewrite H.
Qed.

Lemma attempt_ok (info : File.info) (tmp p1 : string) st c :
  files_get_media env (tick st) (File.id info) = Reply c →
  is_Some (disk st !! tmp) →
  download_attempt env info tmp p1 st
  = (Ok tt,
     with_disk (disk_rename tmp p1)
       (with_disk (<[tmp := RegularFile c]>) (next_tick st)),
     [WatcherIgnore p1; FilesGetMedia (File.id info); FsRename tmp p1]).
Proof.
  intros H [nd Hnd]. unfold download_attempt, try_catch, bind, watcher_ignore,
    emit, drive_files_get_media, pipe_to, modify, fs_rename.
  rewrite H. simpl. rewrite Hnd. simpl. rewrite lookup_insert_eq.
  unfold with_disk; simpl. by rewrite Hnd.
Qed.


(** A download that is neither refused nor a folder's: the walk, the
    directory of the canonical path, the probe; then, unless the file is
    there already, the fetch into the temporary file; then the copies. *)
Lemma downloadFile_unfolds (n : nat) (info : File.info) (st st1 : Recon)
    (p1 : string) (others : list string) (ev1 : list Effect) :
  shouldIgnoreFile st info = false →
  isFolder info = false →
  getPaths env n (Some info) st = (Ok (p1 :: others), st1, ev1) →
  let d1 := disk_mkdirp (path_dirname p1) (disk st1) in
  let tmp := path_join (folder st) ("." +:+ File.name info +:+ ".tmp") in
  downloadFile env n info st
  = after (ev1 ++ [Mkdirp (path_dirname p1)] ++ probe_events d1 p1)
      (bind (if on_disk_with_md5 d1 p1 info then ret tt
             else fs_createWriteStream tmp >>> delay (Q2Qc 80) >>>
                  tryTwice (download_attempt env info tmp p1))
            (λ _, bind (forM_ (λ o, watcher_ignore o >>> fs_copy p1 o) others)
                       (λ _, ret true))
            (with_disk (disk_mkdirp (path_dirname p1)) st1)).
Proof.
  intros Hign Hfolder Hwalk d1 tmp.
  assert (folder st1 = folder st) as Hfold
    by (by eapply (preserves_getPaths env folder)).
  set (st2 := with_disk (disk_mkdirp (path_dirname p1)) st1).
  unfold downloadFile. rewrite bind_get, Hign.
  rewrite (bind_Ok _ _ _ _ _ _ Hwalk). cbv beta iota. rewrite Hfolder.
  rewrite bind_mkdirp. fold st2.
  rewrite (bind_Ok _ _ _ _ _ _ (probe_run _ _ _)).
  rewrite !after_after. change (disk st2) with d1.
  rewrite <- !(assoc_L (++)). f_equal.
  destruct (on_disk_with_md5 d1 p1 info); [done |].
  rewrite bind_assoc, bind_get. unfold tmp_name.
  change (folder st2) with (folder st1).
  by rewrite Hfold.
Qed.

(** The download as long as the fetch is not retried with success: for a
    downloadable record whose paths are [p1 :: others], the downloader
    creates the directory of [p1] and probes [p1]; when [p1] already holds
    the record's md5 it downloads nothing; otherwise it opens the temporary
    file [".<name>.tmp"] under the configured root, fetches the content and
    renames the temporary file onto [p1]; in both cases it then ignores
    every other path and copies [p1] onto it; and when the fetch fails (at
    once, or again after the one retry that follows a connection reset) the
    temporary file has been removed before the error is thrown. *)
Lemma downloadFile_spec (n : nat) (info : File.info) (st st1 : Recon)
    (p1 : string) (others : list string) (ev1 : list Effect) :
  shouldIgnoreFile st info = false →
  isFolder info = false →
  getPaths env n (Some info) st = (Ok (p1 :: others), st1, ev1) →
  let d1 := disk_mkdirp (path_dirname p1) (disk st1) in
  let tmp := path_join (folder st) ("." +:+ File.name info +:+ ".tmp") in
  let fid := File.id info in
  let prelude := ev1 ++ [Mkdirp (path_dirname p1)] ++ probe_events d1 p1 in
  (on_disk_with_md5 d1 p1 info = true →
   ∃ r st' evc,
     downloadFile env n info st = (r, st', prelude ++ evc)
     ∧ follows (r, st', evc) (copy_plan p1 others)
     ∧ (resolved r → r = Ok true))
  ∧ (on_disk_with_md5 d1 p1 info = false →
     ∀ content, files_get_media env (tick st1) fid = Reply content →
     ∃ r st' evc,
       downloadFile env n info st
         = (r, st', prelude
                    ++ [FsCreateWriteStream tmp; Delay (Q2Qc 80);
                        WatcherIgnore p1; FilesGetMedia fid; FsRename tmp p1]
                    ++ evc)
       ∧ follows (r, st', evc) (copy_plan p1 others)
       ∧ (resolved r → r = Ok true))
  ∧ (on_disk_with_md5 d1 p1 info = false →
     ∀ e, files_get_media env (tick st1) fid = Fail e → e ≠ ECONNRESET →
     ∃ st',
       downloadFile env n info st
         = (Throw e, st', prelude
                          ++ [FsCreateWriteStream tmp; Delay (Q2Qc 80);
                              WatcherIgnore p1; FilesGetMedia fid; FsRemove tmp])
       ∧ disk st' !! tmp = None)
  ∧ (on_disk_with_md5 d1 p1 info = false →
     ∀ e, files_get_media env (tick st1) fid = Fail ECONNRESET →
          files_get_media env (S (tick st1)) fid = Fail e →
     ∃ st',
       downloadFile env n info st
         = (Throw e, st', prelude
                          ++ [FsCreateWriteStream tmp; Delay (Q2Qc 80);
                              WatcherIgnore p1; FilesGetMedia fid; FsRemove tmp;
                              Delay (Q2Qc 2000);
                              WatcherIgnore p1; FilesGetMedia fid; FsRemove tmp])
       ∧ disk st' !! tmp = None).
Proof.
  intros Hign Hfolder Hwalk d1 tmp fid prelude.
  pose proof (downloadFile_unfolds n info st st1 p1 others ev1
                Hign Hfolder Hwalk) as Hdl.
  cbv zeta in Hdl. fold d1 tmp prelude in Hdl.
  set (st2 := with_disk (disk_mkdirp (path_dirname p1)) st1) in *.
  split; [| split; [| split]].
  - intros Halready. rewrite Halready, bind_ret in Hdl.
    destruct (copies_run p1 others st2) as [Hf Hv]. simpl in Hf, Hv.
    destruct (bind (forM_ _ _) _ st2) as [[r st'] evc].
    exists r, st', evc. by rewrite Hdl.
  - intros Hnot content Hget. rewrite Hnot in Hdl.
    set (st3 := with_disk (<[tmp := RegularFile empty_md5]>) st2).
    assert ((fs_createWriteStream tmp >>> delay (Q2Qc 80) >>>
             tryTwice (download_attempt env info tmp p1)) st2
            = (Ok tt,
               with_disk (disk_rename tmp p1)
                 (with_disk (<[tmp := RegularFile content]>) (next_tick st3)),
               [FsCreateWriteStream tmp; Delay (Q2Qc 80);
                WatcherIgnore p1; FilesGetMedia fid; FsRename tmp p1])) as Hrun.
    { unfold tryTwice, try_catch, bind, fs_createWriteStream, delay, emit.
      fold st3. rewrite (attempt_ok info tmp p1 st3 content); [done | done |].
      simpl. rewrite lookup_insert_eq. by eexists. }
    rewrite (bind_Ok _ _ _ _ _ _ Hrun) in Hdl.
    match type of Hdl with context [bind ?m ?f ?s] =>
      destruct (copies_run p1 others s) as [Hf Hv];
      simpl in Hf, Hv; destruct (bind m f s) as [[r st'] evc] end.
    exists r, st', evc. by rewrite Hdl.
  - intros Hnot e Hget Hne. rewrite Hnot in Hdl.
    set (st3 := with_disk (<[tmp := RegularFile empty_md5]>) st2).
    eexists. split.
    + rewrite Hdl. erewrite bind_Throw; [reflexivity |].
      unfold tryTwice, try_catch, bind, fs_createWriteStream, delay, emit.
      fold st3. rewrite (attempt_fail info tmp p1 st3 e) by done.
      rewrite bool_decide_eq_false_2 by done. reflexivity.
    + simpl. apply disk_remove_self.
  - intros Hnot e Hget1 Hget2. rewrite Hnot in Hdl.
    set (st3 := with_disk (<[tmp := RegularFile empty_md5]>) st2).
    eexists. split.
    + rewrite Hdl. erewrite bind_Throw; [reflexivity |].
      unfold tryTwice, try_catch, bind, fs_createWriteStream, delay, emit.
      fold st3. rewrite (attempt_fail info tmp p1 st3 ECONNRESET) by done.
      rewrite bool_decide_eq_true_2 by done.
      rewrite (attempt_fail info tmp p1 _ e) by done. reflexivity.
    + simpl. apply disk_remove_self.
Qed.


Lemma disk_remove_insert p x d : disk_remove p (<[p := x]> d) = disk_remove p d.
Proof.
  unfold disk_remove. apply map_filter_insert_not. intros y. simpl.
  unfold under. by rewrite bool_decide_eq_true_2.
Qed.

(** The attempt that follows a failed one: the temporary file is gone, the
    response is written nowhere, the rename in the ['end'] handler rejects
    and the promise is left unsettled. *)
Lemma attempt_gone (info : File.info) (tmp p1 : string) st c :
  files_get_media env (tick st) (File.id info) = Reply c →
  disk st !! tmp = None →
  ∃ st', download_attempt env info tmp p1 st
         = (Pending, st',
            [WatcherIgnore p1; FilesGetMedia (File.id info); FsRename tmp p1])
         ∧ disk st' = disk st.
Proof.
  intros H Hnone. unfold download_attempt, try_catch, bind, watcher_ignore,
    emit, drive_files_get_media, pipe_to, modify, fs_rename, pending.
  rewrite H. simpl. rewrite Hnone. simpl. rewrite Hnone.
  eexists. split; [reflexivity |]. simpl. by rewrite Hnone.
Qed.

(** C7 fails on the code: when the first fetch of the content is reset and
    the retry is answered, the download never settles.  The temporary file
    opened once before the first attempt was removed after the reset; the
    retry writes the content nowhere, its rename onto the canonical path
    finds no temporary file, and the promise of the second attempt is
    neither resolved nor rejected.  The disk is left as the creation of the
    canonical path's directory left it, the temporary file apart: nothing
    is renamed onto the canonical path and no other path is filled. *)
Theorem download_retry_never_settles (n : nat) (info : File.info)
    (st st1 : Recon) (p1 : string) (others : list string)
    (ev1 : list Effect) (content : string) :
  shouldIgnoreFile st info = false →
  isFolder info = false →
  getPaths env n (Some info) st = (Ok (p1 :: others), st1, ev1) →
  let d1 := disk_mkdirp (path_dirname p1) (disk st1) in
  let tmp := path_join (folder st) ("." +:+ File.name info +:+ ".tmp") in
  let fid := File.id info in
  on_disk_with_md5 d1 p1 info = false →
  files_get_media env (tick st1) fid = Fail ECONNRESET →
  files_get_media env (S (tick st1)) fid = Reply content →
  ∃ st',
    downloadFile env n info st
    = (Pending, st',
       ev1 ++ [Mkdirp (path_dirname p1)] ++ probe_events d1 p1
       ++ [FsCreateWriteStream tmp; Delay (Q2Qc 80);
           WatcherIgnore p1; FilesGetMedia fid; FsRemove tmp;
           Delay (Q2Qc 2000);
           WatcherIgnore p1; FilesGetMedia fid; FsRename tmp p1])
    ∧ disk st' = disk_remove tmp d1.
Proof.
  intros Hign Hfolder Hwalk d1 tmp fid Hnot Hget1 Hget2.
  pose proof (downloadFile_unfolds n info st st1 p1 others ev1
                Hign Hfolder Hwalk) as Hdl.
  cbv zeta in Hdl. fold d1 tmp in Hdl. rewrite Hnot in Hdl.
  set (st2 := with_disk (disk_mkdirp (path_dirname p1)) st1) in *.
  set (st3 := with_disk (<[tmp := RegularFile empty_md5]>) st2).
  set (st4 := with_disk (disk_remove tmp) (next_tick st3)).
  destruct (attempt_gone info tmp p1 st4 content) as (st5 & Hretry & Hdisk);
    [done | apply disk_remove_self |].
  assert ((fs_createWriteStream tmp >>> delay (Q2Qc 80) >>>
           tryTwice (download_attempt env info tmp p1)) st2
          = (Pending, st5,
             [FsCreateWriteStream tmp; Delay (Q2Qc 80);
              WatcherIgnore p1; FilesGetMedia fid; FsRemove tmp;
              Delay (Q2Qc 2000);
              WatcherIgnore p1; FilesGetMedia fid; FsRename tmp p1])) as Hrun.
  { unfold tryTwice, try_catch, bind, fs_createWriteStream, delay, emit.
    fold st3. rewrite (attempt_fail info tmp p1 st3 ECONNRESET) by done.
    rewrite bool_decide_eq_true_2 by done. fold st4. by rewrite Hretry. }
  exists st5. split.
  - rewrite Hdl. unfold bind at 1. rewrite Hrun. unfold after. simpl.
    by rewrite <- !(assoc_L (++)).
  - rewrite Hdisk. unfold st4, st3, st2; simpl. apply disk_remove_insert.
Qed.

End Download.

(** ** Path materialisation *)

Section Walk.
Context (env : Env).

Lemma agree_refl st : agree st st.
Proof. by repeat split. Qed.

Lemma needsParentFetch_resolve st p :
  needsParentFetch st p = false ↔ is_Some (resolve st p).
Proof.
  unfold needsParentFetch, resolve.
  destruct (parentInfoCache st !! p) as [i|]; simpl;
    [| destruct (fileInfo st !! p) as [i|]; simpl];
    (split; intros H; first [done | by eexists | by destruct H]).
Qed.

Lemma agree_insert_cache st0 st p pi :
  agree st0 st → parentInfoCache st !! p = None → fileInfo st !! p = Some pi →
  agree st0 (with_parentInfoCache (<[p := pi]>) st).
Proof.
  intros (Hr & Hf & Hres) Hc Hfi. split; [done |]. split; [done |].
  intros q. rewrite <- Hres. unfold resolve; simpl.
  destruct (decide (p = q)) as [<- | Hne].
  - by rewrite lookup_insert_eq, Hc, Hfi.
  - by rewrite lookup_insert_ne.
Qed.

(** One parent, given that the walk up from it is already known to be
    cache-only. *)
Lemma parent_paths_pure (walk : option File.info → R (list string))
    (n : nat) (st0 st : Recon) (childName p : string) (pi : File.info) :
  (∀ st x, agree st0 st → parents_resolvable st0 x →
     ∃ st', walk (Some x) st = (outcome_of (pathsOf n st0 x), st', [])
            ∧ agree st0 st') →
  cache_closed st0 → agree st0 st → resolve st0 p = Some pi →
  ∃ st', parent_paths env walk childName p st
         = (outcome_of (join_all childName <$> pathsOf n st0 pi), st', [])
         ∧ agree st0 st'.
Proof.
  intros Hwalk Hclosed Hag Hp. unfold parent_paths. rewrite bind_get.
  assert (parents_resolvable st0 pi) as Hpi.
  { intros Hroot ps q Hps Hq. by eapply Hclosed. }
  assert (resolve st p = Some pi) as Hp' by (by rewrite (proj2 (proj2 Hag))).
  assert (∃ st1, agree st0 st1 ∧
    ∀ k : option File.info → R (list string),
      bind (match parentInfoCache st !! p with
            | Some pi => ret (Some pi)
            | None =>
                match fileInfo st !! p with
                | Some pi =>
                    modify (with_parentInfoCache (<[p := pi]>)) >>> ret (Some pi)
                | None =>
                    let* got := getFileInfo_with env walk p in
                    match got with
                    | Some pi =>
                        modify (with_parentInfoCache (<[p := pi]>)) >>>
                        ret (Some pi)
                    | None => ret None
                    end
                end
            end) k st = k (Some pi) st1) as (st1 & Hag1 & ->).
  { unfold resolve in Hp'. destruct (parentInfoCache st !! p) as [i|] eqn:Hc.
    - injection Hp' as ->. exists st. split; [done |]. intros k. apply bind_ret.
    - rewrite Hp'. eexists. split; [by apply agree_insert_cache |].
      intros k. by rewrite bind_assoc, bind_modify, bind_ret. }
  destruct (Hwalk st1 pi Hag1 Hpi) as (st' & Hrun & Hag').
  exists st'. split; [| done].
  destruct (pathsOf n st0 pi) as [l|]; simpl in *.
  - rewrite (bind_Ok _ _ _ _ _ _ Hrun). reflexivity.
  - unfold bind. by rewrite Hrun.
Qed.

Lemma flat_walk_pure (walk : option File.info → R (list string))
    (n : nat) (st0 : Recon) (childName : string) (ps : list string) :
  (∀ st x, agree st0 st → parents_resolvable st0 x →
     ∃ st', walk (Some x) st = (outcome_of (pathsOf n st0 x), st', [])
            ∧ agree st0 st') →
  cache_closed st0 →
  (∀ q, q ∈ ps → is_Some (resolve st0 q)) →
  ∀ st, agree st0 st →
  ∃ st', flat_mapM (parent_paths env walk childName) ps st
         = (outcome_of
              (@concat string <$>
                 mapM (λ p, match resolve st0 p with
                            | Some pi => join_all childName <$> pathsOf n st0 pi
                            | None => Some []
                            end) ps), st', [])
         ∧ agree st0 st'.
Proof.
  intros Hwalk Hclosed. induction ps as [|p ps IH]; intros Hres st Hag.
  - exists st. by split.
  - destruct (Hres p) as [pi Hpi]; [by left |].
    destruct (parent_paths_pure walk n st0 st childName p pi)
      as (st1 & Hrun1 & Hag1); try done.
    destruct (IH (λ q Hq, Hres q (proj2 (elem_of_cons _ _ _) (or_intror Hq)))
                st1 Hag1) as (st2 & Hrun2 & Hag2).
    simpl. rewrite Hpi.
    destruct (pathsOf n st0 pi) as [l|]; simpl in *.
    + rewrite (bind_Ok _ _ _ _ _ _ Hrun1). 
      destruct (mapM _ ps) as [ls|]; simpl in *.
      * rewrite (bind_Ok _ _ _ _ _ _ Hrun2). exists st2. by split.
      * exists st2. split; [| done]. unfold bind, after. by rewrite Hrun2.
    + exists st1. split; [| done]. unfold bind. by rewrite Hrun1.
Qed.

Lemma no_parent_to_fetch st (ps : list string) :
  (∀ q, q ∈ ps → is_Some (resolve st q)) →
  filter (λ p, needsParentFetch st p = true) ps = [].
Proof.
  intros H. induction ps as [|q ps IH]; [done |].
  rewrite filter_cons_False.
  - apply IH. intros q' Hq'. apply H. by right.
  - rewrite (proj2 (needsParentFetch_resolve st q)); [done |]. apply H. by left.
Qed.

(** With a closed cache the walk is the pure [pathsOf]: it fetches nothing,
    calls nothing and only fills the side cache with what the Metadata Cache
    already says. *)
Lemma getPaths_pure (n : nat) (st0 : Recon) :
  cache_closed st0 →
  ∀ st x, agree st0 st → parents_resolvable st0 x →
  ∃ st', getPaths env n (Some x) st = (outcome_of (pathsOf n st0 x), st', [])
         ∧ agree st0 st'.
Proof.
  intros Hclosed. induction n as [|n IH]; intros st x Hag Hx.
  - exists st. by split.
  - pose proof Hag as (Hr & Hf & Hres).
    simpl. rewrite bind_get, Hr, Hf. case_bool_decide as Hroot.
    { exists st. by split. }
    destruct (File.parents x) as [ps|] eqn:Hps; [| exists st; by split].
    assert (∀ q, q ∈ ps → is_Some (resolve st0 q)) as Hps0.
    { intros q Hq. by eapply Hx. }
    rewrite no_parent_to_fetch by (intros q Hq; rewrite Hres; by apply Hps0).
    rewrite bool_decide_eq_true_2 by done. rewrite bind_ret.
    by apply flat_walk_pure.
Qed.


End Walk.

(** *** Termination of the walk *)

Section WalkTotal.
Context (env : Env).

(** The walk returns once the fuel exceeds the record's rank. *)
Lemma pathsOf_total (st : Recon) (rank : File.info → nat) :
  (∀ p i, resolve st p = Some i → ranked st rank i) →
  ∀ n info, ranked st rank info → rank info < n →
  is_Some (pathsOf n st info).
Proof.
  intros Hall. induction n as [|n IH]; intros info Hinfo Hlt; [lia |].
  simpl. case_bool_decide as Hroot; [by eexists |].
  destruct (File.parents info) as [ps|] eqn:Hps; [| by eexists].
  apply fmap_is_Some, mapM_is_Some, Forall_forall. intros q Hq. simpl.
  destruct (Hinfo Hroot ps q Hps Hq) as (j & Hj & Hrank). rewrite Hj.
  apply fmap_is_Some, IH; [by eapply Hall | lia].
Qed.

Lemma ranked_closed (st : Recon) (rank : File.info → nat) :
  (∀ p i, resolve st p = Some i → ranked st rank i) → cache_closed st.
Proof.
  intros Hall p i Hres Hroot ps q Hps Hq.
  destruct (Hall p i Hres Hroot ps q Hps Hq) as (j & Hj & _). by eexists.
Qed.

Lemma getPaths_total (st : Recon) (rank : File.info → nat) n info :
  (∀ p i, resolve st p = Some i → ranked st rank i) →
  ranked st rank info → rank info < n →
  ∃ ps st', getPaths env n (Some info) st = (Ok ps, st', []).
Proof.
  intros Hall Hinfo Hlt.
  destruct (pathsOf_total st rank Hall n info Hinfo Hlt) as [ps Hps].
  destruct (getPaths_pure env n st (ranked_closed st rank Hall) st info
              (agree_refl st)) as (st' & Hrun & _).
  { intros Hroot qs q Hqs Hq.
    destruct (Hinfo Hroot qs q Hqs Hq) as (j & Hj & _). by eexists. }
  rewrite Hps in Hrun. by exists ps, st'.
Qed.

End WalkTotal.



(** ** The poller *)

Section Hoare.
Context {St Ev : Type} (I : St → Prop) (P : Ev → Prop).

Lemma hoare_ret {A} (a : A) : hoare I P (ret a).
Proof. intros s r s' ev Hs [= _ <- <-]. by split. Qed.

Lemma hoare_throw {A} e : hoare I P (throw (A:=A) e).
Proof. intros s r s' ev Hs [= _ <- <-]. by split. Qed.

Lemma hoare_out_of_fuel {A} : hoare I P (out_of_fuel (A:=A)).
Proof. intros s r s' ev Hs [= _ <- <-]. by split. Qed.

Lemma hoare_pending {A} : hoare I P (pending (A:=A)).
Proof. intros s r s' ev Hs [= _ <- <-]. by split. Qed.

Lemma hoare_modify (g : St → St) :
  (∀ s, I s → I (g s)) → hoare I P (modify g).
Proof. intros Hg s r s' ev Hs [= _ <- <-]. split; [by apply Hg | done]. Qed.

Lemma hoare_emit (e : Ev) : P e → hoare I P (emit e).
Proof. intros He s r s' ev Hs [= _ <- <-]. split; [done | by constructor]. Qed.

Lemma hoare_bind {A B} (m : M St Ev A) (f : A → M St Ev B) :
  hoare I P m → (∀ a, hoare I P (f a)) → hoare I P (bind m f).
Proof.
  intros Hm Hf s r s' ev Hs H. apply bind_inv in H
    as [(a & s1 & e1 & e2 & H1 & H2 & ->) | [(r' & H1 & _) _]].
  - destruct (Hm _ _ _ _ Hs H1) as [Hs1 He1].
    destruct (Hf _ _ _ _ _ Hs1 H2) as [Hs2 He2].
    split; [done | by apply Forall_app].
  - by eapply Hm.
Qed.

(** Reading the state: the continuation may use that what it read
    satisfied [I]. *)
Lemma hoare_bind_get {B} (f : St → M St Ev B) :
  (∀ s0, I s0 → hoare I P (f s0)) → hoare I P (bind get f).
Proof. intros Hf s r s' ev Hs. rewrite bind_get. by apply Hf. Qed.

Lemma hoare_try_catch {A} (m : M St Ev A) h :
  hoare I P m → (∀ e, hoare I P (h e)) → hoare I P (try_catch m h).
Proof.
  intros Hm Hh s r s' ev Hs. unfold try_catch.
  destruct (m s) as [[[a|e| |] s1] e1] eqn:H1.
  - intros [= <- <- <-]. by eapply Hm.
  - destruct (h e s1) as [[r2 s2] e2] eqn:H2. intros [= <- <- <-].
    destruct (Hm _ _ _ _ Hs H1) as [Hs1 He1].
    destruct (Hh _ _ _ _ _ Hs1 H2) as [Hs2 He2].
    split; [done | by apply Forall_app].
  - intros [= <- <- <-]. by eapply Hm.
  - intros [= <- <- <-]. by eapply Hm.
Qed.

Lemma hoare_forM_ {A} (f : A → M St Ev unit) l :
  (∀ x, hoare I P (f x)) → hoare I P (forM_ f l).
Proof.
  intros Hf. induction l as [|x l IH]; simpl.
  - apply hoare_ret.
  - apply hoare_bind; [apply Hf | intros _; apply IH].
Qed.

End Hoare.

Section Total.
Context {St Ev : Type}.

Lemma total_ret {A} (a : A) : total (ret (S:=St) (E:=Ev) a).
Proof. intros s. by eexists _, _, _. Qed.

Lemma total_modify (g : St → St) : total (modify (E:=Ev) g).
Proof. intros s. by eexists _, _, _. Qed.

Lemma total_emit (e : Ev) : total (emit (S:=St) e).
Proof. intros s. by eexists _, _, _. Qed.

Lemma total_bind {A B} (m : M St Ev A) (f : A → M St Ev B) :
  total m → (∀ a, total (f a)) → total (bind m f).
Proof.
  intros Hm Hf s. destruct (Hm s) as (a & s1 & e1 & H1).
  destruct (Hf a s1) as (b & s2 & e2 & H2).
  exists b, s2, (e1 ++ e2). rewrite (bind_Ok _ _ _ _ _ _ H1).
  unfold after. by rewrite H2.
Qed.

Lemma total_bind_get {B} (f : St → M St Ev B) :
  (∀ s0, total (f s0)) → total (bind get f).
Proof. intros Hf s. rewrite bind_get. apply Hf. Qed.

End Total.

Section Poller.
Context (env : Env).

(** What the reconciler does stays inside [recon] and shows up as [Io]. *)
Lemma hoare_lift {A} (I : Sync → Prop) (P : Event → Prop) (m : R A) :
  (∀ s f, I s → I (with_recon f s)) →
  (∀ e, P (Io e)) →
  hoare I P (lift m).
Proof.
  intros HI HP s r s' ev Hs. unfold lift.
  destruct (m (recon s)) as [[r' rc] e']. intros [= <- <- <-].
  split; [by apply HI |]. apply Forall_fmap, Forall_forall. intros; apply HP.
Qed.

Section Invariant.
(** An invariant over the fields that [save], the setters and the
    reconciler leave alone, and a property all their events have. *)
Context (I : Sync → Prop) (P : Event → Prop).
Context (I_recon : ∀ s f, I s → I (with_recon f s)).
Context (I_flag : ∀ s b, I s → I (set_handlingRemoteChange_field b s)).
Context (I_saved : ∀ s t k, I s → I (set_saved t k s)).
Context (I_stored : ∀ s c, I s → I (set_stored c s)).
Context (I_watching : ∀ s b, I s → I (set_watchingChanges b s)).
Context (I_saving : ∀ s b, I s → I (set_saving b s)).
Context (I_running : ∀ s b, I s → I (set_running b s)).
Context (P_io : ∀ e, P (Io e)).
Context (P_syncing : ∀ b, P (EmitSyncing b)).
Context (P_files : ∀ m, P (EmitFilesChanged m)).
Context (P_insert : P DbInsert).
Context (P_spawn : P SpawnWatchChanges).
Context (P_update : ∀ s, I s → P (DbUpdate (checkpoint_of s))).

Lemma hoare_notifyChanges : hoare I P notifyChanges.
Proof.
  unfold notifyChanges. apply hoare_bind_get. intros s Hs.
  destruct (handlingChanges s); [apply hoare_ret |].
  case_bool_decide; [| apply hoare_ret].
  apply hoare_bind; [by apply hoare_emit | intros _].
  apply hoare_modify. intros; by apply I_recon.
Qed.

Lemma hoare_set_handlingRemoteChange b :
  hoare I P (set_handlingRemoteChange b).
Proof.
  unfold set_handlingRemoteChange. apply hoare_bind_get. intros s Hs.
  case_bool_decide; [apply hoare_ret |].
  apply hoare_bind; [apply hoare_modify; intros; by apply I_flag | intros _].
  apply hoare_bind_get. intros s1 Hs1.
  apply hoare_bind; [by apply hoare_emit | intros _].
  apply hoare_notifyChanges.
Qed.

Lemma hoare_db_call e : P e → hoare I P (db_call env e).
Proof.
  intros He s r s' ev Hs. unfold db_call. intros [= _ <- <-].
  split; [by apply I_recon | by constructor].
Qed.

Lemma hoare_save : hoare I P (save env).
Proof.
  unfold save. apply hoare_bind_get. intros s Hs.
  destruct (loading s || saving s).
  { unfold finishSaveOperation. apply hoare_bind_get. intros s0 _.
    destruct (_ || _); [apply hoare_pending | apply hoare_ret]. }
  apply hoare_bind; [apply hoare_modify; intros; by apply I_saving | intros _].
  apply hoare_try_catch.
  2:{ intros e. apply hoare_bind; [| intros; apply hoare_throw].
      apply hoare_modify. intros; by apply I_saving. }
  apply hoare_bind.
  { destruct (running s); [apply hoare_ret |].
    apply hoare_bind; [by apply hoare_db_call | intros _].
    apply hoare_modify. intros; by apply I_running. }
  intros _. apply hoare_bind_get. intros s1 Hs1.
  apply hoare_bind; [apply hoare_db_call; by apply P_update | intros _].
  apply hoare_bind; [apply hoare_modify; intros; by apply I_stored | intros _].
  apply hoare_bind; [by apply hoare_lift |].
  intros now. apply hoare_bind; [apply hoare_modify; intros; by apply I_saved |].
  intros _. apply hoare_bind_get. intros s2 Hs2.
  apply hoare_bind; [| intros _; apply hoare_modify; intros; by apply I_saving].
  destruct (watchingChanges s2); [apply hoare_ret |].
  apply hoare_bind; [apply hoare_modify; intros; by apply I_watching |].
  intros _. by apply hoare_emit.
Qed.

(** What follows the [HandleChange] event in the loop body. *)
Lemma hoare_apply_one n c :
  hoare I P
    (let* changed := lift (handleChange env n c) in
     if (changed : bool) then save env
     else modify (λ s, set_saved (savedTime s) (S (changesSinceSave s)) s)).
Proof.
  apply hoare_bind; [by apply hoare_lift |].
  intros [|]; [apply hoare_save |].
  apply hoare_modify. intros; by apply I_saved.
Qed.

(** One change through the loop body: the [HandleChange] event, then what
    the reconciler and [save] do. *)
Lemma body_run n c s r s' ev :
  I s →
  (emit (HandleChange c) >>>
   let* changed := lift (handleChange env n c) in
   if (changed : bool) then save env
   else modify (λ s, set_saved (savedTime s) (S (changesSinceSave s)) s)) s
  = (r, s', ev) →
  I s' ∧ ∃ ev', ev = HandleChange c :: ev' ∧ Forall P ev'.
Proof.
  intros Hs. rewrite bind_emit.
  destruct (bind (lift _) _ s) as [[r1 s1] e1] eqn:H1.
  intros [= <- <- <-]. destruct (hoare_apply_one n c _ _ _ _ Hs H1) as [Hs1 He1].
  split; [done |]. by exists e1.
Qed.

End Invariant.

Lemma applied_changes_app e1 e2 :
  applied_changes (e1 ++ e2) = applied_changes e1 ++ applied_changes e2.
Proof. apply omap_app. Qed.

Lemma applied_changes_quiet ev :
  Forall not_HandleChange ev → applied_changes ev = [].
Proof.
  induction 1 as [|e ev He _ IH]; [done |].
  destruct e; simpl in He; first [done | exact IH].
Qed.

Lemma window_applied n (cs : list Change) (l : list Change) : ∀ s s' ev,
  open_with cs s →
  forM_ (λ nextChange,
           emit (HandleChange nextChange) >>>
           let* changed := lift (handleChange env n nextChange) in
           if (changed : bool) then save env
           else modify (λ s, set_saved (savedTime s)
                               (S (changesSinceSave s)) s)) l s
  = (Ok tt, s', ev) →
  open_with cs s' ∧ applied_changes ev = l.
Proof.
  induction l as [|c l IH]; intros s s' ev Hs; simpl.
  - by intros [= <- <-].
  - intros H. apply bind_Ok_inv in H as ([] & s1 & e1 & e2 & H1 & H2 & ->).
    eapply (body_run (open_with cs) not_HandleChange) in H1
      as (Hs1 & e1' & -> & He1); try done.
    destruct (IH _ _ _ Hs1 H2) as [Hs2 He2]. split; [done |].
    rewrite applied_changes_app, He2. simpl.
    change (omap _ e1') with (applied_changes e1').
    by rewrite applied_changes_quiet.
Qed.


Lemma resolved_unit (r : Outcome unit) : resolved r → r = Ok tt.
Proof. by destruct r as [[]| | |]. Qed.

Lemma open_with_hoare cs :
  (∀ s f, open_with cs s → open_with cs (with_recon f s))
  ∧ (∀ s b, open_with cs s → open_with cs (set_handlingRemoteChange_field b s))
  ∧ (∀ s t k, open_with cs s → open_with cs (set_saved t k s))
  ∧ (∀ s c, open_with cs s → open_with cs (set_stored c s))
  ∧ (∀ s b, open_with cs s → open_with cs (set_watchingChanges b s))
  ∧ (∀ s b, open_with cs s → open_with cs (set_saving b s))
  ∧ (∀ s b, open_with cs s → open_with cs (set_running b s)).
Proof. split_and!; intros; assumption. Qed.

(** The apply loop hands every pending change to the reconciler, once and
    in order, when it runs to its end. *)
Lemma loop_applied n : ∀ s s' ev,
  closed s = false →
  handleChanges_loop env n s = (Ok tt, s', ev) →
  closed s' = false ∧ applied_changes ev = pending_changes s.
Proof.
  induction n as [|n IH]; intros s s' ev Hopen; simpl; rewrite bind_get, Hopen.
  - case_bool_decide as Hcs; simpl; unfold out_of_fuel, ret; [done |].
    intros [= <- <-]. split; [done |].
    by destruct (pending_changes s).
  - case_bool_decide as Hcs; simpl.
    2:{ intros [= <- <-]. split; [done |].
        by destruct (pending_changes s). }
    destruct (open_with_hoare (pending_changes s))
      as (H1 & H2 & H3 & H4 & H5 & H6 & H7).
    intros H. apply bind_Ok_inv in H as ([] & s1 & e1 & e2 & Hflag & H & ->).
    eapply (hoare_set_handlingRemoteChange (open_with (pending_changes s))
              not_HandleChange) in Hflag as [[Hc1 Hp1] He1]; try done.
    rewrite bind_modify in H.
    apply bind_Ok_inv in H as ([] & s2 & e3 & e4 & Hwin & Hloop & ->).
    eapply (window_applied (S n) (drop 10 (pending_changes s))) in Hwin
      as [[Hc2 Hp2] He3]; [| by split].
    destruct (IH _ _ _ Hc2 Hloop) as [Hc3 He4]. split; [done |].
    rewrite !applied_changes_app, He3, He4, Hp2.
    rewrite applied_changes_quiet by done. simpl. apply take_drop.
Qed.

Lemma handleChanges_applied n s s' ev :
  closed s = false →
  handleChanges env n s = (Ok tt, s', ev) →
  applied_changes ev = pending_changes s.
Proof.
  intros Hopen H. unfold handleChanges in H.
  apply bind_Ok_inv in H as ([] & s1 & e1 & e2 & Hloop & H & ->).
  apply loop_applied in Hloop as [Hc1 He1]; [| done].
  rewrite applied_changes_app, He1.
  assert (hoare (λ _, True) not_HandleChange
    (set_handlingRemoteChange false >>> notifyChanges >>>
     let* now := lift (Date_now env) in
     let* s := get in
     if bool_decide (30000 < now - savedTime s)%Z
        && bool_decide (0 < changesSinceSave s)
     then save env else ret tt)) as Hq.
  { apply hoare_bind; [by apply hoare_set_handlingRemoteChange | intros _].
    apply hoare_bind; [by apply hoare_notifyChanges | intros _].
    apply hoare_bind; [by apply hoare_lift | intros now].
    apply hoare_bind_get. intros s0 _.
    destruct (_ && _); [by apply hoare_save | apply hoare_ret]. }
  destruct (Hq _ _ _ _ I H) as [_ He2].
  by rewrite (applied_changes_quiet e2), app_nil_r.
Qed.

Lemma hoare_getNewChanges_loop (I : Sync → Prop) (P : Event → Prop) n :
  (∀ s f, I s → I (with_recon f s)) →
  (∀ s t, I s → I (set_changeToken t s)) →
  (∀ e, P (Io e)) →
  ∀ tok acc, hoare I P (getNewChanges_loop env n tok acc).
Proof.
  intros Hrec Htok Hio. induction n as [|n IH]; intros [tok|] acc; simpl;
    try apply hoare_ret.
  - destruct (negb _); [apply hoare_out_of_fuel | apply hoare_ret].
  - destruct (negb _); [| apply hoare_ret].
    apply hoare_bind; [by apply hoare_lift | intros pg].
    apply hoare_bind; [| intros _; apply IH].
    destruct (truthy _); [apply hoare_modify; intros; by apply Htok | apply hoare_ret].
Qed.

Lemma hoare_getNewChanges (I : Sync → Prop) (P : Event → Prop) n :
  (∀ s f, I s → I (with_recon f s)) →
  (∀ s t, I s → I (set_changeToken t s)) →
  (∀ e, P (Io e)) →
  hoare I P (getNewChanges env n).
Proof.
  intros Hrec Htok Hio. unfold getNewChanges.
  apply hoare_bind_get. intros s0 _.
  apply hoare_bind; [by apply hoare_getNewChanges_loop | intros cs].
  apply hoare_bind; [by apply hoare_lift | intros _; apply hoare_ret].
Qed.

(** [handleNewChanges] reports a change exactly when it handed at least one
    to the reconciler. *)
Lemma handleNewChanges_applied n s (b : bool) s' ev :
  closed s = false →
  handleNewChanges env n s = (Ok b, s', ev) →
  b = bool_decide (applied_changes ev ≠ []).
Proof.
  intros Hopen H. unfold handleNewChanges in H.
  apply bind_Ok_inv in H as (cs & s1 & e1 & e2 & Hget & H & ->).
  eapply (hoare_getNewChanges (λ s, closed s = false) not_HandleChange)
    in Hget as [Hc1 He1]; try done.
  rewrite bind_modify in H.
  apply bind_Ok_inv in H as ([] & s2 & e3 & e4 & Hh & [= <- <- <-] & ->).
  apply handleChanges_applied in Hh; [| done].
  rewrite !applied_changes_app, Hh, applied_changes_quiet by done.
  simpl. rewrite app_nil_r. change (pending_changes _) with cs.
  by destruct cs.
Qed.


Lemma lift_changes_list_run tok s :
  lift (drive_changes_list env tok) s
  = (match changes_list env (tick (recon s)) tok with
     | Reply pg => Ok pg
     | Fail e => Throw e
     end, with_recon (λ _, next_tick (recon s)) s, [Io (ChangesList tok)]).
Proof. reflexivity. Qed.

(** A feed that answers the held token with one last page carrying a new
    start token: the fetch returns the page's changes with the token
    already replaced. *)
Lemma getNewChanges_adopts n s t pg t' :
  changeToken s = Some t → t ≠ EmptyString →
  changes_list env (tick (recon s)) t = Reply pg →
  truthy (nextPageToken pg) = false →
  newStartPageToken pg = Some t' → t' ≠ EmptyString →
  ∃ s' ev,
    getNewChanges env (S n) s = (Ok (changes pg), s', ev)
    ∧ changeToken s' = Some t'
    ∧ applied_changes ev = [] ∧ checkpoint_tokens ev = []
    ∧ stored s' = stored s
    ∧ fileInfo (recon s') = fileInfo (recon s).
Proof.
  intros Hs Ht Hpg Hnext Hstart Ht'.
  assert (getNewChanges_loop env (S n) (Some t) [] s
          = (Ok (changes pg),
             set_changeToken (Some t')
               (with_recon (λ _, next_tick (recon s)) s),
             [Io (ChangesList t)])) as Hloop.
  { simpl. rewrite bool_decide_eq_false_2 by done. simpl.
    erewrite bind_Ok; [| by rewrite lift_changes_list_run, Hpg].
    rewrite Hstart. simpl. rewrite bool_decide_eq_false_2 by done. simpl.
    rewrite bind_modify.
    destruct (nextPageToken pg) as [tok|]; destruct n; simpl in *;
      try rewrite Hnext; reflexivity. }
  unfold getNewChanges. rewrite bind_get, Hs.
  rewrite (bind_Ok _ _ _ _ _ _ Hloop).
  eexists _, _. split; [reflexivity |]. by repeat split.
Qed.
Lemma total_notifyChanges : total notifyChanges.
Proof.
  unfold notifyChanges. apply total_bind_get. intros s.
  destruct (handlingChanges s); [apply total_ret |].
  case_bool_decide; [| apply total_ret].
  apply total_bind; [apply total_emit | intros; apply total_modify].
Qed.

Lemma total_set_handlingRemoteChange b : total (set_handlingRemoteChange b).
Proof.
  unfold set_handlingRemoteChange. apply total_bind_get. intros s.
  case_bool_decide; [apply total_ret |].
  apply total_bind; [apply total_modify | intros _].
  apply total_bind_get. intros s1.
  apply total_bind; [apply total_emit | intros; apply total_notifyChanges].
Qed.

(** *** The polling interval *)

Lemma sleeps_app e1 e2 : sleeps (e1 ++ e2) = sleeps e1 ++ sleeps e2.
Proof. apply omap_app. Qed.

Lemma idle_events ev :
  Forall idle_event ev → sleeps ev = [] ∧ applied_changes ev = [].
Proof.
  induction 1 as [|e ev He _ [IH1 IH2]]; [done |].
  destruct e as [[] | | | | | | |]; simpl in He; done.
Qed.

Lemma getNewChanges_loop_done n tok acc s :
  truthy tok = false → getNewChanges_loop env n tok acc s = (Ok acc, s, []).
Proof. intros H. destruct n, tok; simpl in *; by rewrite ?H. Qed.

(** An idle feed hands over nothing, whatever the token. *)
Lemma getNewChanges_idle n s :
  idle_feed env → quiet s →
  ∃ s' ev, getNewChanges env (S n) s = (Ok [], s', ev)
    ∧ quiet s' ∧ Forall idle_event ev.
Proof.
  intros Hidle Hq.
  assert (∃ s1 e1, getNewChanges_loop env (S n) (changeToken s) [] s
                   = (Ok [], s1, e1) ∧ quiet s1 ∧ Forall idle_event e1)
    as (s1 & e1 & Hloop & Hq1 & He1).
  { destruct (truthy (changeToken s)) eqn:Ht.
    2:{ exists s, []. by rewrite getNewChanges_loop_done. }
    destruct (changeToken s) as [tok|]; [| done].
    destruct (Hidle (tick (recon s)) tok) as (pg & Hpg & Hnext & Hnone).
    cbn [getNewChanges_loop]. rewrite Ht.
    erewrite bind_Ok; [| by rewrite lift_changes_list_run, Hpg].
    rewrite Hnone. simpl.
    destruct (truthy (newStartPageToken pg)).
    - rewrite bind_modify, getNewChanges_loop_done by done.
      eexists _, _. split; [reflexivity |]. split; [done |].
      by repeat constructor.
    - rewrite bind_ret, getNewChanges_loop_done by done.
      eexists _, _. split; [reflexivity |]. split; [done |].
      by repeat constructor. }
  unfold getNewChanges. rewrite bind_get, (bind_Ok _ _ _ _ _ _ Hloop).
  eexists _, _. split; [reflexivity |]. split; [done |].
  apply Forall_app. split; [done |]. by repeat constructor.
Qed.

(** With nothing pending and nothing unsaved, [handleChanges] resolves
    without a call to the datastore: it only lowers the flag and reports. *)
Lemma handleChanges_idle n s :
  pending_changes s = [] → quiet s →
  ∃ s' ev, handleChanges env n s = (Ok tt, s', ev)
    ∧ quiet s' ∧ Forall idle_event ev.
Proof.
  intros Hp Hq. unfold handleChanges.
  assert (handleChanges_loop env n s = (Ok tt, s, [])) as Hloop.
  { destruct n; simpl; by rewrite bind_get, Hp. }
  rewrite (bind_Ok _ _ _ _ _ _ Hloop), after_nil.
  destruct (total_set_handlingRemoteChange false s) as ([] & s1 & e1 & H1).
  destruct (hoare_set_handlingRemoteChange quiet idle_event) with
    (b := false) (s := s) (r := Ok tt) (s' := s1) (ev := e1)
    as [Hq1 He1]; try done.
  rewrite (bind_Ok _ _ _ _ _ _ H1).
  destruct (total_notifyChanges s1) as ([] & s2 & e2 & H2).
  destruct (hoare_notifyChanges quiet idle_event) with
    (s := s1) (r := Ok tt) (s' := s2) (ev := e2) as [Hq2 He2]; try done.
  rewrite (bind_Ok _ _ _ _ _ _ H2).
  erewrite bind_Ok; [| reflexivity]. rewrite bind_get.
  destruct Hq2 as [Hst2 Hc2]. simpl. rewrite Hc2. simpl.
  rewrite andb_false_r. unfold after, ret; simpl.
  eexists _, _. split; [reflexivity |]. split; [by split |].
  rewrite app_nil_r. by apply Forall_app.
Qed.

(** An idle turn completes and backs off. *)
Lemma watch_iteration_idle n d s :
  idle_feed env → quiet s →
  ∃ s' ev,
    watch_iteration env (S n) d s = (Ok (next_interval false d), s', ev)
    ∧ quiet s'
    ∧ sleeps ev = [next_interval false d] ∧ applied_changes ev = [].
Proof.
  intros Hidle Hq.
  destruct (getNewChanges_idle n s Hidle Hq) as (s1 & e1 & Hget & Hq1 & He1).
  destruct (handleChanges_idle (S n) (set_changesToExecute (Some []) s1))
    as (s2 & e2 & Hh & Hq2 & He2); [done | done |].
  assert (handleNewChanges env (S n) s = (Ok false, s2, e1 ++ e2)) as Hnew.
  { unfold handleNewChanges. rewrite (bind_Ok _ _ _ _ _ _ Hget), bind_modify.
    rewrite (bind_Ok _ _ _ _ _ _ Hh). unfold after, ret; simpl.
    by rewrite app_nil_r. }
  destruct Hq as [(Hsyncing & Hsynced & Hclosed) Hc].
  eexists _, _. split; [| split].
  - unfold watch_iteration. rewrite bind_get, Hsyncing, Hsynced. simpl.
    rewrite bind_assoc, (bind_Ok _ _ _ _ _ _ Hnew), bind_ret. reflexivity.
  - done.
  - destruct (idle_events (e1 ++ e2)) as [Hs Ha]; [by apply Forall_app |].
    simpl. rewrite sleeps_app, applied_changes_app, Hs, Ha. by split.
Qed.

(** An idle poller never ends its loop, and the intervals it sleeps for
    are those of the backoff. *)
Lemma watch_loop_idle n :
  idle_feed env →
  ∀ iters d s, quiet s →
    ∃ s' ev, watch_loop env (S n) iters d s = (OutOfFuel, s', ev)
      ∧ sleeps ev = backoff iters d ∧ applied_changes ev = [].
Proof.
  intros Hidle. induction iters as [|iters IH]; intros d s Hq;
    pose proof Hq as [(_ & _ & Hclosed) _]; simpl; rewrite bind_get, Hclosed.
  - by exists s, [].
  - destruct (watch_iteration_idle n d s Hidle Hq)
      as (s1 & e1 & Hturn & Hq1 & Hs1 & Ha1).
    destruct (IH (next_interval false d) s1 Hq1) as (s2 & e2 & Hloop & Hs2 & Ha2).
    rewrite (bind_Ok _ _ _ _ _ _ Hturn), Hloop. unfold after; simpl.
    eexists _, _. split; [reflexivity |].
    by rewrite sleeps_app, applied_changes_app, Hs1, Hs2, Ha1, Ha2.
Qed.

Lemma Math_min_bounds (a lo hi : Qc) :
  (lo ≤ a)%Qc → (lo ≤ hi)%Qc →
  (lo ≤ Math_min a hi)%Qc ∧ (Math_min a hi ≤ hi)%Qc.
Proof.
  intros Ha Hhi. unfold Math_min. by destruct (decide (a ≤ hi)%Qc); split.
Qed.

Lemma backoff_grows (d : Qc) :
  (minDelay ≤ d)%Qc → (minDelay ≤ d * backoffMultiplier)%Qc.
Proof.
  intros Hd. apply Qcle_trans with d; [done |].
  rewrite <- (Qcmult_1_r d) at 1.
  rewrite !(Qcmult_comm d).
  apply Qcmult_le_compat_r; [done |].
  apply Qcle_trans with minDelay; [done | exact Hd].
Qed.

(** From the minimum on, backing off never gives the minimum. *)
Lemma backoff_above (d : Qc) :
  (minDelay ≤ d)%Qc → (minDelay < next_interval false d)%Qc.
Proof.
  intros Hd. unfold next_interval, Math_min.
  destruct (decide _); [| done].
  apply Qclt_le_trans with (minDelay * backoffMultiplier)%Qc; [done |].
  by apply Qcmult_le_compat_r.
Qed.

(** C5: the poller enters its loop with an interval of 8000 ms.  The loop
    runs each turn with the interval it holds and hands the interval the
    turn returns to the next turn; from the minimum on, that interval is
    never below the minimum.  A steady-state turn that completes ends by
    sleeping for the interval it returns, which is the 2000 ms minimum when
    at least one change was handed to the reconciler in that turn and
    otherwise the interval before times 1.5, capped at 30000 ms; over the
    intervals the loop can hold, it is the minimum if and only if a change
    was handed over.  And on a feed with nothing new a poller with nothing
    unsaved completes every turn: after any number of turns the loop is
    still running, and it has slept for 12000 ms, 18000 ms, 27000 ms and
    then 30000 ms each time, the backoff from 8000 ms. *)
Theorem poll_delay_rule (n : nat) :
  (∀ iters s,
     watchingChanges s = false → truthy (changeToken s) = true →
     watchChanges env n iters s
     = try_catch (watch_loop env n iters initialDelay)
         (λ err, modify (set_watchingChanges false) >>>
                 set_handlingRemoteChange false >>> throw err)
         (set_watchingChanges true s))
  ∧ (∀ iters d s d' s' ev,
       closed s = false →
       watch_iteration env n d s = (Ok d', s', ev) →
       watch_loop env n (S iters) d s = after ev (watch_loop env n iters d' s')
       ∧ ((minDelay ≤ d)%Qc → (minDelay ≤ d')%Qc ∧ (d' ≤ maxDelay)%Qc))
  ∧ (∀ d s d' s' ev,
       steady s →
       watch_iteration env n d s = (Ok d', s', ev) →
       last ev = Some (Io (Delay d'))
       ∧ d' = next_interval (bool_decide (applied_changes ev ≠ [])) d
       ∧ ((minDelay ≤ d)%Qc → d' = minDelay ↔ applied_changes ev ≠ []))
  ∧ (∀ iters s,
       idle_feed env → steady s → changesSinceSave s = 0 →
       watchingChanges s = false → truthy (changeToken s) = true →
       outcome (watchChanges env (S n) iters s) = OutOfFuel
       ∧ sleeps (trace (watchChanges env (S n) iters s))
         = backoff iters initialDelay
       ∧ applied_changes (trace (watchChanges env (S n) iters s)) = []).
Proof.
  assert (Hstart : ∀ m iters s,
    watchingChanges s = false → truthy (changeToken s) = true →
    watchChanges env m iters s
    = try_catch (watch_loop env m iters initialDelay)
        (λ err, modify (set_watchingChanges false) >>>
                set_handlingRemoteChange false >>> throw err)
        (set_watchingChanges true s)).
  { intros m iters s Hw Ht. unfold watchChanges.
    rewrite bind_get, Hw, bind_modify, Ht. unfold try_catch.
    by rewrite bind_ret. }
  split; [apply Hstart |]. split; [| split].
  - intros iters d s d' s' ev Hclosed H. split.
    + simpl. by rewrite bind_get, Hclosed, (bind_Ok _ _ _ _ _ _ H).
    + intros Hd. unfold watch_iteration in H. rewrite bind_get in H.
      apply bind_Ok_inv in H as (d0 & s1 & e1 & e2 & H1 & H2 & ->).
      unfold lift, delay, emit in H2. simpl in H2. injection H2 as <- _ _.
      destruct (negb (syncing s) && synced s).
      * apply bind_Ok_inv in H1 as (b & s2 & e3 & e4 & _ & H1 & _).
        injection H1 as <- _ _. destruct b.
        -- split; [apply Qcle_refl | done].
        -- apply Math_min_bounds; [by apply backoff_grows | done].
      * injection H1 as <- _ _. by split.
  - intros d s d' s' ev (Hsyncing & Hsynced & Hclosed) H.
    unfold watch_iteration in H. rewrite bind_get, Hsyncing, Hsynced in H.
    simpl in H. rewrite bind_assoc in H.
    apply bind_Ok_inv in H as (b & s1 & e1 & e2 & Hnew & H & ->).
    rewrite bind_ret in H. unfold lift, delay, emit in H. simpl in H.
    injection H as <- <- <-.
    apply handleNewChanges_applied in Hnew; [| done].
    split; [by rewrite last_snoc |].
    rewrite applied_changes_app. simpl. rewrite app_nil_r.
    rewrite <- Hnew. split; [done |]. intros Hd.
    destruct b; subst.
    + split; [intros _ | done].
      symmetry in Hnew. by apply bool_decide_eq_true in Hnew.
    + split.
      * intros Heq. pose proof (backoff_above d Hd) as Hlt.
        unfold next_interval in Hlt. rewrite Heq in Hlt.
        by apply Qclt_not_eq in Hlt.
      * intros Hne. symmetry in Hnew.
        by apply bool_decide_eq_false in Hnew.
  - intros iters s Hidle Hst Hc Hw Ht. rewrite Hstart by done.
    destruct (watch_loop_idle n Hidle iters initialDelay
                (set_watchingChanges true s))
      as (s' & ev & Hloop & Hs & Ha); [by split |].
    unfold try_catch, outcome, trace. by rewrite Hloop.
Qed.


(** *** Change tokens *)

Section Tokens.
Context (le : string → string → Prop) `{!PreOrder le}.
Context (Hmono : server_monotone le env).

Lemma otok_le_refl t : otok_le le t t.
Proof. destruct t; simpl; [reflexivity | done]. Qed.

Lemma otok_le_trans a b c : otok_le le a b → otok_le le b c → otok_le le a c.
Proof. destruct a, b, c; simpl; try done. apply transitivity. Qed.

Lemma sorted_prepend (t0 t1 : option string) l ts :
  otok_le le t0 t1 → Forall (eq t1) l →
  StronglySorted (otok_le le) (t1 :: ts) →
  StronglySorted (otok_le le) (t0 :: l ++ ts).
Proof.
  intros H01 Hl Hts. apply StronglySorted_inv in Hts as [Hts Hge].
  assert (Forall (otok_le le t1) (l ++ ts)) as Hall.
  { apply Forall_app. split; [| done].
    eapply Forall_impl; [done |]. intros ? <-. apply otok_le_refl. }
  constructor.
  - clear H01. induction Hl as [|x l <- Hl IH]; [done |].
    simpl. apply Forall_app in Hall as [Hall1 Hall2].
    apply Forall_cons in Hall1 as [_ Hall1].
    constructor; [apply IH | ]; apply Forall_app; by split.
  - eapply Forall_impl; [done |]. intros x Hx. by eapply otok_le_trans.
Qed.

Lemma checkpoint_tokens_app e1 e2 :
  checkpoint_tokens (e1 ++ e2) = checkpoint_tokens e1 ++ checkpoint_tokens e2.
Proof. apply omap_app. Qed.

Lemma checkpoint_tokens_at t ev :
  Forall (checkpoints_at t) ev → Forall (eq t) (checkpoint_tokens ev).
Proof.
  induction 1 as [|e ev He _ IH]; [constructor |].
  destruct e; simpl in He; first [exact IH | idtac].
  change (Forall (eq t) (cp_changeToken cp :: checkpoint_tokens ev)).
  by constructor.
Qed.

Lemma not_DbUpdate_at t ev :
  Forall not_DbUpdate ev → Forall (checkpoints_at t) ev.
Proof. intros H. eapply Forall_impl; [done |]. by intros []. Qed.

Lemma checkpoint_tokens_quiet ev :
  Forall not_DbUpdate ev → checkpoint_tokens ev = [].
Proof.
  induction 1 as [|e ev He _ IH]; [done |].
  destruct e; simpl in He; first [done | exact IH].
Qed.

(** Draining the feed only moves the token up. *)
Lemma getNewChanges_loop_token n (t0 : option string) : ∀ tok acc s r s' ev,
  getNewChanges_loop env n tok acc s = (r, s', ev) →
  otok_le le t0 (changeToken s) →
  (truthy tok = true → otok_le le t0 tok) →
  otok_le le t0 (changeToken s').
Proof.
  induction n as [|n IH]; intros [tok|] acc s r s' ev; simpl;
    try (by intros [= _ <- _]).
  - destruct (negb _); by intros [= _ <- _].
  - destruct (negb _); [| by intros [= _ <- _]].
    intros H Hs Htok. specialize (Htok eq_refl). apply bind_inv in H
      as [(pg & s1 & e1 & e2 & H1 & H2 & ->) | [(r' & H1 & _) _]].
    + rewrite lift_changes_list_run in H1.
      destruct (changes_list env _ tok) as [pg'|e] eqn:Hpg. 2:{ done. }
      injection H1 as <- <- <-.
      destruct (Hmono _ _ _ Hpg) as [Hstart Hnext].
      apply bind_inv in H2
        as [([] & s2 & e3 & e4 & H2 & H3 & ->) | [(r' & H2 & Hnr) _]].
      * eapply IH; [exact H3 | |].
        -- destruct (truthy (newStartPageToken pg')) eqn:Ht.
           ++ injection H2 as <- <-.
              destruct (newStartPageToken pg') as [t|]; [| done]. simpl.
              eapply otok_le_trans; [exact Htok |]. by apply Hstart.
           ++ by injection H2 as <- <-.
        -- intros Hnt. destruct (nextPageToken pg') as [t|] eqn:Hn; [| done].
           eapply otok_le_trans; [exact Htok |]. by apply Hnext.
      * destruct (truthy (newStartPageToken pg'));
          injection H2 as <- _ _; by destruct Hnr.
    + rewrite lift_changes_list_run in H1. by injection H1 as _ <- _.
Qed.

Lemma getNewChanges_token n s r s' ev :
  getNewChanges env n s = (r, s', ev) →
  otok_le le (changeToken s) (changeToken s').
Proof.
  unfold getNewChanges. rewrite bind_get. intros H. apply bind_inv in H
    as [(cs & s1 & e1 & e2 & H1 & H2 & ->) | [(r' & H1 & _) _]].
  - apply getNewChanges_loop_token with (t0 := changeToken s) in H1;
      [| apply otok_le_refl | intros; apply otok_le_refl].
    unfold bind, lift, emit, ret in H2. simpl in H2. by injection H2 as _ <- _.
  - apply getNewChanges_loop_token with (t0 := changeToken s) in H1;
      [done | apply otok_le_refl | intros; apply otok_le_refl].
Qed.

Lemma token_frames t :
  (∀ s f, changeToken s = t → changeToken (with_recon f s) = t)
  ∧ (∀ s b, changeToken s = t → changeToken (set_handlingRemoteChange_field b s) = t)
  ∧ (∀ s u k, changeToken s = t → changeToken (set_saved u k s) = t)
  ∧ (∀ s c, changeToken s = t → changeToken (set_stored c s) = t)
  ∧ (∀ s b, changeToken s = t → changeToken (set_watchingChanges b s) = t)
  ∧ (∀ s b, changeToken s = t → changeToken (set_saving b s) = t)
  ∧ (∀ s b, changeToken s = t → changeToken (set_running b s) = t).
Proof. split_and!; intros; assumption. Qed.

(** While changes are applied the token stays put, and every checkpoint
    written records it. *)
Lemma hoare_handleChanges n t :
  hoare (λ s, changeToken s = t) (checkpoints_at t) (handleChanges env n).
Proof.
  destruct (token_frames t) as (H1 & H2 & H3 & H4 & H5 & H6 & H7).
  assert (∀ s, changeToken s = t → checkpoints_at t (DbUpdate (checkpoint_of s)))
    as Hup by done.
  unfold handleChanges. apply hoare_bind.
  - induction n as [|n IH]; simpl; apply hoare_bind_get; intros s0 Hs0.
    + destruct (_ && _); [apply hoare_out_of_fuel | apply hoare_ret].
    + destruct (_ && _); [| apply hoare_ret].
      apply hoare_bind; [by apply hoare_set_handlingRemoteChange | intros _].
      apply hoare_bind; [by apply hoare_modify | intros _].
      apply hoare_bind; [| intros _; apply IH].
      apply hoare_forM_. intros c.
      apply hoare_bind; [by apply hoare_emit | intros _].
      by apply hoare_apply_one.
  - intros _.
    apply hoare_bind; [by apply hoare_set_handlingRemoteChange | intros _].
    apply hoare_bind; [by apply hoare_notifyChanges | intros _].
    apply hoare_bind; [by apply hoare_lift | intros now].
    apply hoare_bind_get. intros s0 _.
    destruct (_ && _); [by apply hoare_save | apply hoare_ret].
Qed.

Lemma handleNewChanges_tokens n s r s' ev :
  handleNewChanges env n s = (r, s', ev) →
  otok_le le (changeToken s) (changeToken s')
  ∧ Forall (checkpoints_at (changeToken s')) ev.
Proof.
  unfold handleNewChanges. intros H. apply bind_inv in H
    as [(cs & s1 & e1 & e2 & H1 & H2 & ->) | [(r' & H1 & _) _]].
  - pose proof (getNewChanges_token _ _ _ _ _ H1) as Hle.
    eapply (hoare_getNewChanges (λ _, True) not_DbUpdate) in H1
      as [_ He1]; try done.
    rewrite bind_modify in H2.
    assert (changeToken s' = changeToken s1
            ∧ Forall (checkpoints_at (changeToken s1)) e2) as [-> He2].
    { apply bind_inv in H2
        as [([] & s2 & e3 & e4 & H2 & [= _ <- <-] & ->) | [(r' & H2 & _) _]].
      - eapply (hoare_handleChanges n (changeToken s1)) in H2 as [<- He3]; [| done].
        by rewrite app_nil_r.
      - by eapply (hoare_handleChanges n (changeToken s1)) in H2 as [<- He3]. }
    split; [done |]. apply Forall_app. split; [| done].
    by apply not_DbUpdate_at.
  - pose proof (getNewChanges_token _ _ _ _ _ H1) as Hle. split; [done |].
    eapply (hoare_getNewChanges (λ _, True) not_DbUpdate) in H1
      as [_ He1]; try done.
    by apply not_DbUpdate_at.
Qed.

Lemma watch_iteration_tokens n d s r s' ev :
  watch_iteration env n d s = (r, s', ev) →
  otok_le le (changeToken s) (changeToken s')
  ∧ Forall (checkpoints_at (changeToken s')) ev.
Proof.
  unfold watch_iteration. rewrite bind_get.
  destruct (negb (syncing s) && synced s).
  - rewrite bind_assoc. intros H. apply bind_inv in H
      as [(b & s1 & e1 & e2 & H1 & H2 & ->) | [(r' & H1 & _) _]].
    + apply handleNewChanges_tokens in H1 as [Hle He1].
      rewrite bind_ret in H2. unfold bind, lift, delay, emit, ret in H2.
      simpl in H2. injection H2 as _ <- <-. split; [done |].
      apply Forall_app. split; [done |]. by repeat constructor.
    + by apply handleNewChanges_tokens in H1.
  - rewrite bind_ret. unfold bind, lift, delay, emit, ret. simpl.
    intros [= _ <- <-]. split; [apply otok_le_refl | by repeat constructor].
Qed.

Lemma watch_loop_sorted n iters : ∀ d s r s' ev,
  watch_loop env n iters d s = (r, s', ev) →
  StronglySorted (otok_le le)
    (changeToken s :: checkpoint_tokens ev ++ [changeToken s']).
Proof.
  assert (∀ t, StronglySorted (otok_le le) [t; t]) as Hpair.
  { intros t. repeat constructor. apply otok_le_refl. }
  induction iters as [|iters IH]; intros d s r s' ev; simpl; rewrite bind_get.
  - destruct (closed s); intros [= _ <- <-]; apply Hpair.
  - destruct (closed s); [intros [= _ <- <-]; apply Hpair |].
    intros H. apply bind_inv in H
      as [(d' & s1 & e1 & e2 & H1 & H2 & ->) | [(r' & H1 & _) _]].
    + apply watch_iteration_tokens in H1 as [Hle He1].
      rewrite checkpoint_tokens_app, <- (assoc_L (++)).
      eapply sorted_prepend; [done | by apply checkpoint_tokens_at |].
      by eapply IH.
    + apply watch_iteration_tokens in H1 as [Hle He1].
      eapply sorted_prepend; [done | by apply checkpoint_tokens_at |].
      apply Hpair.
Qed.

(** C1, as amended: fetching the feed hands no change to the reconciler and
    writes no checkpoint, and it is then that the in-memory token moves: a
    last page that carries a new start token leaves that token in memory
    when the fetch returns the page's changes, and whatever the feed
    answers the token held after the fetch is not below the one held before
    in the server's order; every checkpoint written while the fetched
    changes are applied records the token held when the iteration ends; and
    over any run of the poller the tokens of successive checkpoints, from
    the token held at the start to the one held at the end, never decrease
    in the server's order. *)
Theorem checkpoint_tokens_monotone (n : nat) :
  (∀ s r s' ev,
     getNewChanges env n s = (r, s', ev) →
     applied_changes ev = [] ∧ checkpoint_tokens ev = []
     ∧ otok_le le (changeToken s) (changeToken s'))
  ∧ (∀ s t pg t',
       changeToken s = Some t → t ≠ EmptyString →
       changes_list env (tick (recon s)) t = Reply pg →
       truthy (nextPageToken pg) = false →
       newStartPageToken pg = Some t' → t' ≠ EmptyString →
       ∃ s' ev,
         getNewChanges env (S n) s = (Ok (changes pg), s', ev)
         ∧ changeToken s' = Some t'
         ∧ applied_changes ev = [] ∧ checkpoint_tokens ev = []
         ∧ stored s' = stored s
         ∧ fileInfo (recon s') = fileInfo (recon s))
  ∧ (∀ s r s' ev,
       handleNewChanges env n s = (r, s', ev) →
       Forall (eq (changeToken s')) (checkpoint_tokens ev))
  ∧ (∀ iters d s r s' ev,
       watch_loop env n iters d s = (r, s', ev) →
       StronglySorted (otok_le le)
         (changeToken s :: checkpoint_tokens ev ++ [changeToken s'])).
Proof.
  split; [| split; [| split]].
  - intros s r s' ev H. split; [| split].
    + eapply (hoare_getNewChanges (λ _, True) not_HandleChange) in H
        as [_ He]; try done.
      by apply applied_changes_quiet.
    + eapply (hoare_getNewChanges (λ _, True) not_DbUpdate) in H
        as [_ He]; try done.
      by apply checkpoint_tokens_quiet.
    + by eapply getNewChanges_token.
  - intros s t pg t'. apply getNewChanges_adopts.
  - intros s r s' ev H. apply handleNewChanges_tokens in H as [_ H].
    by apply checkpoint_tokens_at.
  - intros iters d s r s' ev H. by eapply watch_loop_sorted.
Qed.

End Tokens.
End Poller.

(** *** The poller on a concrete feed *)

(** The intervals of an idle poller, from the minimum up to the cap: all
    of them dyadic, so the rationals here are the doubles there. *)
Example backoff_from_minimum :
  let step d := Math_min (d * backoffMultiplier)%Qc maxDelay in
  step minDelay = Q2Qc 3000
  ∧ step (Q2Qc 3000) = Q2Qc 4500
  ∧ step (Q2Qc 4500) = Q2Qc 6750
  ∧ step (Q2Qc 6750) = Q2Qc 10125
  ∧ step (Q2Qc 10125) = Q2Qc 15187.5
  ∧ step (Q2Qc 15187.5) = Q2Qc 22781.25
  ∧ step (Q2Qc 22781.25) = Q2Qc 30000
  ∧ step (Q2Qc 30000) = Q2Qc 30000
  ∧ step initialDelay = Q2Qc 12000.
Proof. simpl. repeat split; apply Qc_is_canon; reflexivity. Qed.


#[global] Instance by_length_preorder : PreOrder Scenario.by_length.
Proof.
  split.
  - intros a. unfold Scenario.by_length. lia.
  - intros a b c. unfold Scenario.by_length. lia.
Qed.

Lemma env1_monotone : server_monotone Scenario.by_length Scenario.env1.
Proof.
  intros k tok pg. simpl. case_bool_decide as Htok.
  - subst tok. intros [= <-]. split; intros t [= <-]. by vm_compute.
  - intros [= <-]. split; intros t [= <-]. unfold Scenario.by_length. lia.
Qed.

Lemma sy0_steady : steady Scenario.sy0.
Proof. by repeat split. Qed.

Lemma envTree_idle : idle_feed Cases.envTree.
Proof. intros k tok. eexists. by split. Qed.

Lemma poll_delay_rule_witness :
  (∃ d' s' ev,
     watch_iteration Scenario.env1 5 initialDelay Scenario.sy0 = (Ok d', s', ev)
     ∧ d' = minDelay)
  ∧ outcome (watchChanges Cases.envTree 1 4 Cases.syUnwatched) = OutOfFuel
  ∧ sleeps (trace (watchChanges Cases.envTree 1 4 Cases.syUnwatched))
    = [Q2Qc 12000; Q2Qc 18000; Q2Qc 27000; Q2Qc 30000].
Proof.
  split.
  - eexists _, _, _. split; [vm_compute; reflexivity |].
    refine (proj2 (proj2 (proj2
              (proj1 (proj2 (proj2 (poll_delay_rule Scenario.env1 5)))
                 initialDelay Scenario.sy0 _ _ _ sy0_steady _)) _) _);
      [vm_compute; reflexivity | done | vm_compute; discriminate].
  - destruct (proj2 (proj2 (proj2 (poll_delay_rule Cases.envTree 0)))
                4 Cases.syUnwatched envTree_idle) as (Ho & Hs & _);
      [by repeat split | done | done | done |].
    split; [exact Ho |]. rewrite Hs. simpl.
    repeat f_equal; apply Qc_is_canon; reflexivity.
Defined.

Lemma checkpoint_tokens_monotone_witness :
  ∃ r s' ev,
    watch_loop Scenario.env1 5 2 (Q2Qc 8000) Scenario.sy0 = (r, s', ev)
    ∧ StronglySorted (otok_le Scenario.by_length)
        (changeToken Scenario.sy0 :: checkpoint_tokens ev ++ [changeToken s']).
Proof.
  eexists _, _, _. split; [vm_compute; reflexivity |].
  eapply (proj2 (proj2 (proj2 (checkpoint_tokens_monotone Scenario.env1
                                 Scenario.by_length env1_monotone 5)))
            2 (Q2Qc 8000) Scenario.sy0).
  vm_compute. reflexivity.
Defined.

(** C1, as stated, fails: the fetch returns the change still to be applied
    with the in-memory token already moved from ["10"] to ["11"]; nothing
    has been handed to the reconciler, the cache does not know the new file
    and no checkpoint has been written. *)
Lemma token_moves_before_apply :
  ∃ s' ev,
    getNewChanges Scenario.env1 5 Scenario.sy0 = (Ok [Scenario.addA], s', ev)
    ∧ changeToken Scenario.sy0 = Some "10"
    ∧ changeToken s' = Some "11"
    ∧ applied_changes ev = []
    ∧ checkpoint_tokens ev = []
    ∧ fileInfo (recon s') !! "A" = None
    ∧ stored s' = None.
Proof.
  eexists _, _. split; [vm_compute; reflexivity |].
  repeat split; by vm_compute.
Qed.

(** ** The batch fetcher on a failing id *)

Section Batch.
Context (env : Env).

Lemma map_async_never_throws {A B} (f : A → R B) (l : list A) :
  (∀ x st e, (f x st).1.1 ≠ Throw e) →
  ∀ st e, (map_async f l st).1.1 ≠ Throw e.
Proof.
  intros Hf. induction l as [|x l IH]; intros st e; simpl; [done |].
  unfold bind. specialize (Hf x st).
  destruct (f x st) as [[[y|e'| |] s1] e1]; simpl in *; try done;
    [| by destruct (Hf e')].
  specialize (IH s1).
  destruct (map_async f l s1) as [[[ys|e'| |] s2] e2]; by simpl in *.
Qed.

(** The part of C2 that holds: whatever the lookups do, the batch is never
    rejected. *)
Lemma getFileInfoBatch_never_throws n ids st e :
  (getFileInfoBatch env n ids st).1.1 ≠ Throw e.
Proof.
  unfold getFileInfoBatch, getFileInfoBatch_with. rewrite bind_get.
  case_bool_decide; [done |]. unfold bind at 1.
  match goal with
  | |- context [map_async ?f ?l st] =>
      pose proof (map_async_never_throws f l) as Hmap;
      destruct (map_async f l st) as [[[settled|e'| |] s1] e1] eqn:Hrun
  end; simpl; try done.
  intros [= <-]. eapply (Hmap _ st e'). by rewrite Hrun.
  Unshelve. intros fid s0 e0. unfold try_catch.
  destruct (bind _ _ s0) as [[[y|e''| |] s2] e2]; simpl; try done.
  by case_bool_decide.
Qed.

End Batch.

(** C2 fails on the code: asked for ["X"], whose lookup fails with a server
    error, and ["Y"], which the remote does not know, the batch resolves
    with [null] for ["Y"] and no entry at all for ["X"]. *)
Lemma batch_drops_failed_id :
  ∃ st' ev res,
    getFileInfoBatch Scenario.env2 3 ["X"; "Y"] Scenario.st0 = (Ok res, st', ev)
    ∧ res !! "Y" = Some None
    ∧ res !! "X" = None
    ∧ ev = [FilesGet "X"; FilesGet "Y"].
Proof.
  eexists _, _, _. split; [vm_compute; reflexivity |].
  repeat split; by vm_compute.
Qed.

(** ** Applying a change twice *)

(** C4 fails on the code: after [F] has been renamed to [G] the side cache
    still holds the old record of [F]; the first application of the change
    that adds [b.txt] indexes it under the stale path and downloads it to
    the right one, and the second application indexes the right path: the
    Path Index after two applications differs from the one after one. *)
Lemma reapply_changes_index :
  ∃ s1 s2 s3 s4 e1 e2 e3 e4,
    handleChange Scenario.env0 5 Scenario.addA Scenario.st0 = (Ok true, s1, e1)
    ∧ handleChange Scenario.env0 5 Scenario.renameF s1 = (Ok true, s2, e2)
    ∧ handleChange Scenario.env0 5 Scenario.addB s2 = (Ok true, s3, e3)
    ∧ handleChange Scenario.env0 5 Scenario.addB s3 = (Ok false, s4, e4)
    ∧ disk s3 !! "/d/G/b.txt" = Some (RegularFile "h2")
    ∧ paths s3 !! "/d/G/b.txt" = None
    ∧ paths s4 !! "/d/G/b.txt" = Some "B"
    ∧ paths s4 ≠ paths s3.
Proof.
  eexists _, _, _, _, _, _, _, _.
  split; [vm_compute; reflexivity |].
  split; [vm_compute; reflexivity |].
  split; [vm_compute; reflexivity |].
  split; [vm_compute; reflexivity |].
  split; [by vm_compute |]. split; [by vm_compute |]. split; [by vm_compute |].
  intros H.
  match type of H with
  | paths ?s4 = paths ?s3 =>
      assert (paths s3 !! "/d/G/b.txt" = None) as H3 by (by vm_compute);
      assert (paths s4 !! "/d/G/b.txt" = Some "B") as H4 by (by vm_compute)
  end.
  rewrite H, H3 in H4. discriminate H4.
Qed.

(** ** Path delta and download on the scenario *)

Lemma changePaths_copies_added_path_witness :
  ∃ st1,
    changePaths ["/d/F/s.txt"] ["/d/E/s.txt"; "/d/F/s.txt"] Scenario.stS
    = (Throw (ENOENT "/d/E/s.txt"), st1,
       [Mkdirp "/d/E"; WatcherIgnore "/d/E/s.txt";
        FsCopy "/d/E/s.txt" "/d/E/s.txt"])
    ∧ (∃ p, p ∈ ["/d/F/s.txt"] ∧ p ∈ ["/d/E/s.txt"; "/d/F/s.txt"]).
Proof.
  eexists.
  apply (changePaths_copies_added_path ["/d/F/s.txt"]
           ["/d/E/s.txt"; "/d/F/s.txt"] "/d/E/s.txt" Scenario.stS).
  - discriminate.
  - by vm_compute.
  - reflexivity.
  - intros H. apply list_elem_of_singleton in H. discriminate H.
  - by vm_compute.
Defined.

(** The same through the reconciler: the remote puts [s.txt], synced below
    [F], below [E] as well.  The change is rejected at the copy of the new
    path onto itself, after the Path Index has taken the new path in: the
    index names a file that is not on disk. *)
Remark path_delta_bug_reachable :
  ∃ st' ev,
    handleChange Scenario.env0 5 Scenario.shareS Scenario.stS
    = (Throw (ENOENT "/d/E/s.txt"), st', ev)
    ∧ last ev = Some (FsCopy "/d/E/s.txt" "/d/E/s.txt")
    ∧ disk st' !! "/d/E/s.txt" = None
    ∧ paths st' !! "/d/E/s.txt" = Some "S"
    ∧ disk st' !! "/d/F/s.txt" = Some (RegularFile "h3").
Proof.
  eexists _, _. split; [vm_compute; reflexivity |].
  repeat split; by vm_compute.
Qed.

Lemma downloadFile_spec_witness :
  ∃ r st' evc,
    downloadFile Scenario.env0 3 Scenario.fileA Scenario.st0
    = (r, st', ([] ++ [Mkdirp "/d/F"] ++ [FsAccess "/d/F/a.txt"])
               ++ [FsCreateWriteStream "/d/.a.txt.tmp"; Delay (Q2Qc 80);
                   WatcherIgnore "/d/F/a.txt"; FilesGetMedia "A";
                   FsRename "/d/.a.txt.tmp" "/d/F/a.txt"]
               ++ evc)
    ∧ follows (r, st', evc) (copy_plan "/d/F/a.txt" [])
    ∧ (resolved r → r = Ok true).
Proof.
  destruct (downloadFile_spec Scenario.env0 3 Scenario.fileA Scenario.st0
              Scenario.st0_walked "/d/F/a.txt" [] [])
    as (_ & H & _).
  - reflexivity.
  - reflexivity.
  - vm_compute. reflexivity.
  - apply (H eq_refl "h1"). reflexivity.
Defined.

Lemma download_retry_never_settles_witness :
  ∃ st',
    downloadFile Scenario.env3 3 Scenario.fileA Scenario.st0
    = (Pending, st',
       [Mkdirp "/d/F"; FsAccess "/d/F/a.txt";
        FsCreateWriteStream "/d/.a.txt.tmp"; Delay (Q2Qc 80);
        WatcherIgnore "/d/F/a.txt"; FilesGetMedia "A";
        FsRemove "/d/.a.txt.tmp"; Delay (Q2Qc 2000);
        WatcherIgnore "/d/F/a.txt"; FilesGetMedia "A";
        FsRename "/d/.a.txt.tmp" "/d/F/a.txt"])
    ∧ disk st' = disk_remove "/d/.a.txt.tmp" (disk Scenario.st0).
Proof.
  apply (download_retry_never_settles Scenario.env3 3 Scenario.fileA
           Scenario.st0 Scenario.st0_walked "/d/F/a.txt" [] [] "h1").
  - reflexivity.
  - reflexivity.
  - vm_compute. reflexivity.
  - by vm_compute.
  - reflexivity.
  - reflexivity.
Defined.

(** ** Remarks on the scenarios *)

(** A change handed to the reconciler resets the interval even when
    applying it changes nothing. *)
Remark poll_delay_reset_without_effect :
  ∃ s' ev,
    watch_iteration Scenario.env4 5 (Q2Qc 8000) Scenario.sy0
    = (Ok (Q2Qc 2000), s', ev)
    ∧ applied_changes ev = [Scenario.removeUnknown]
    ∧ checkpoint_tokens ev = []
    ∧ fileInfo (recon s') = fileInfo (recon Scenario.sy0)
    ∧ disk (recon s') = disk (recon Scenario.sy0).
Proof.
  eexists _, _. split; [vm_compute; reflexivity |].
  repeat split; by vm_compute.
Qed.

(** * Further properties *)

(** ** The base64 keys of the Materialized Set *)

Lemma b64_index_char n : (n < 64)%N → b64_index (b64_char n) = Some n.
Proof.
  intros Hn.
  assert (Hall : Forall (λ k, b64_index (b64_char k) = Some k)
                   (N.of_nat <$> seq 0 64)).
  { apply Forall_forall. intros k Hk.
    apply list_elem_of_fmap in Hk as (j & -> & Hj).
    apply elem_of_seq in Hj.
    do 64 (destruct j as [|j]; [vm_compute; reflexivity|]). lia. }
  rewrite Forall_forall in Hall. apply Hall.
  apply list_elem_of_fmap. exists (N.to_nat n). split; [lia|].
  apply elem_of_seq. lia.
Qed.

Lemma b64_char_inj n m :
  (n < 64)%N → (m < 64)%N → b64_char n = b64_char m → n = m.
Proof.
  intros Hn Hm H. apply b64_index_char in Hn, Hm.
  rewrite H in Hn. congruence.
Qed.

Lemma b64_char_not_pad n : (n < 64)%N → b64_char n ≠ "="%char.
Proof.
  intros Hn H. apply b64_index_char in Hn. rewrite H in Hn.
  vm_compute in Hn. discriminate.
Qed.

Local Open Scope N_scope.

Ltac divmod_specs :=
  repeat match goal with
         | |- context [(?a / ?k)%N] =>
             pose proof (N.div_mod a k ltac:(lia));
             pose proof (N.mod_upper_bound a k ltac:(lia));
             let q := fresh "q" in let r := fresh "r" in
             set (q := (a / k)%N) in *; set (r := (a mod k)%N) in *;
             clearbody q r
         | |- context [(?a mod ?k)%N] =>
             pose proof (N.div_mod a k ltac:(lia));
             pose proof (N.mod_upper_bound a k ltac:(lia));
             let q := fresh "q" in let r := fresh "r" in
             set (q := (a / k)%N) in *; set (r := (a mod k)%N) in *;
             clearbody q r
         | _ : context [(?a / ?k)%N] |- _ =>
             pose proof (N.div_mod a k ltac:(lia));
             pose proof (N.mod_upper_bound a k ltac:(lia));
             let q := fresh "q" in let r := fresh "r" in
             set (q := (a / k)%N) in *; set (r := (a mod k)%N) in *;
             clearbody q r
         | _ : context [(?a mod ?k)%N] |- _ =>
             pose proof (N.div_mod a k ltac:(lia));
             pose proof (N.mod_upper_bound a k ltac:(lia));
             let q := fresh "q" in let r := fresh "r" in
             set (q := (a / k)%N) in *; set (r := (a mod k)%N) in *;
             clearbody q r
         end.
Ltac dlia := divmod_specs; lia.

Ltac b64_pad :=
  match goal with
  | H : b64_char _ = "="%char |- _ =>
      apply b64_char_not_pad in H; [contradiction|dlia]
  | H : "="%char = b64_char _ |- _ =>
      symmetry in H; apply b64_char_not_pad in H; [contradiction|dlia]
  end.
Ltac b64_inj :=
  repeat match goal with
         | H : b64_char _ = b64_char _ |- _ =>
             apply b64_char_inj in H; [|dlia..]
         end.

Lemma b64_bytes_inj_bounded (n : nat) : ∀ l1 l2,
  (length l1 ≤ n)%nat →
  Forall (λ a, a < 256) l1 → Forall (λ a, a < 256) l2 →
  b64_bytes l1 = b64_bytes l2 → l1 = l2.
Proof.
  induction n as [|n IH]; intros l1 l2 Hlen H1 H2 Heq.
  - destruct l1; [|simpl in Hlen; lia].
    destruct l2 as [|a [|b [|c l2]]]; [reflexivity|discriminate..].
  - destruct l1 as [|a [|b [|c l1]]], l2 as [|a' [|b' [|c' l2]]];
      try reflexivity; try discriminate;
      repeat match goal with
             | H : Forall _ (_ :: _) |- _ => apply Forall_cons in H as [? H]
             end;
      cbn [b64_bytes app] in Heq;
      injection Heq; intros; try b64_pad; b64_inj.
    + f_equal. dlia.
    + f_equal; [dlia|f_equal; dlia].
    + assert (l1 = l2) as ->.
      { apply IH; auto. simpl in Hlen. lia. }
      f_equal; [dlia|f_equal; [dlia|f_equal; dlia]].
Qed.

Lemma base64_injective (p q : string) : base64 p = base64 q → p = q.
Proof.
  unfold base64. intros H.
  assert (Hl : b64_bytes (N_of_ascii <$> String.list_ascii_of_string p)
             = b64_bytes (N_of_ascii <$> String.list_ascii_of_string q)).
  { rewrite <- (String.list_ascii_of_string_of_list_ascii (b64_bytes _)).
    rewrite H. apply String.list_ascii_of_string_of_list_ascii. }
  assert (Hb : ∀ s, Forall (λ a, a < 256) (N_of_ascii <$> String.list_ascii_of_string s)).
  { intros s. apply Forall_fmap, Forall_forall. intros c _. apply N_ascii_bounded. }
  apply b64_bytes_inj_bounded with (n := length (N_of_ascii <$> String.list_ascii_of_string p)) in Hl;
    [|lia|apply Hb..].
  assert (Hinj : Inj (=) (=) N_of_ascii).
  { intros x y E. rewrite <- (ascii_N_embedding x), <- (ascii_N_embedding y). by rewrite E. }
  apply (inj (fmap N_of_ascii)) in Hl.
  rewrite <- (String.string_of_list_ascii_of_string p),
          <- (String.string_of_list_ascii_of_string q). by rewrite Hl.
Qed.

Local Close Scope N_scope.

(** ** Relations a computation keeps *)

Section Keeps.
Context {St Ev : Type} (rel : St → St → Prop) `{!PreOrder rel}.

Lemma keeps_ret {A} (a : A) : keeps rel (ret (E:=Ev) a).
Proof. by intros s r s' ev [= _ <- _]. Qed.

Lemma keeps_get : keeps rel (get (E:=Ev)).
Proof. by intros s r s' ev [= _ <- _]. Qed.

Lemma keeps_emit (e : Ev) : keeps rel (emit (S:=St) e).
Proof. by intros s r s' ev [= _ <- _]. Qed.

Lemma keeps_throw {A} e : keeps rel (throw (E:=Ev) (A:=A) e).
Proof. by intros s r s' ev [= _ <- _]. Qed.

Lemma keeps_pending {A} : keeps rel (pending (E:=Ev) (A:=A)).
Proof. by intros s r s' ev [= _ <- _]. Qed.

Lemma keeps_out_of_fuel {A} : keeps rel (out_of_fuel (E:=Ev) (A:=A)).
Proof. by intros s r s' ev [= _ <- _]. Qed.

Lemma keeps_modify (g : St → St) :
  (∀ s, rel s (g s)) → keeps rel (modify (E:=Ev) g).
Proof. intros Hg s r s' ev [= _ <- _]. apply Hg. Qed.

Lemma keeps_bind {A B} (m : M St Ev A) (f : A → M St Ev B) :
  keeps rel m → (∀ a, keeps rel (f a)) → keeps rel (bind m f).
Proof.
  intros Hm Hf s r s' ev H. apply bind_inv in H
    as [(a & s1 & e1 & e2 & H1 & H2 & _) | [(r' & H1 & _) _]].
  - etrans; [by eapply Hm | by eapply Hf].
  - by eapply Hm.
Qed.

Lemma keeps_bind_get {B} (f : St → M St Ev B) :
  (∀ s, keeps rel (f s)) → keeps rel (bind get f).
Proof. intros Hf. apply keeps_bind; [apply keeps_get | done]. Qed.

Lemma keeps_try_catch {A} (m : M St Ev A) h :
  keeps rel m → (∀ e, keeps rel (h e)) → keeps rel (try_catch m h).
Proof.
  intros Hm Hh s r s' ev. unfold try_catch.
  destruct (m s) as [[[a|e| |] s1] e1] eqn:H1.
  - intros [= _ <- _]. by eapply Hm.
  - destruct (h e s1) as [[r2 s2] e2] eqn:H2. intros [= _ <- _].
    etrans; [by eapply Hm | by eapply Hh].
  - intros [= _ <- _]. by eapply Hm.
  - intros [= _ <- _]. by eapply Hm.
Qed.

Lemma keeps_forM_ {A} (f : A → M St Ev unit) l :
  (∀ x, keeps rel (f x)) → keeps rel (forM_ f l).
Proof.
  intros Hf. induction l as [|x l IH]; simpl.
  - apply keeps_ret.
  - apply keeps_bind; [apply Hf | intros _; apply IH].
Qed.

Lemma keeps_map_async {A B} (f : A → M St Ev B) l :
  (∀ x, keeps rel (f x)) → keeps rel (map_async f l).
Proof.
  intros Hf. induction l as [|x l IH]; simpl.
  - apply keeps_ret.
  - apply keeps_bind; [apply Hf | intros y].
    apply keeps_bind; [apply IH | intros ys; apply keeps_ret].
Qed.

Lemma keeps_flat_mapM {A B} (f : A → M St Ev (list B)) l :
  (∀ x, keeps rel (f x)) → keeps rel (flat_mapM f l).
Proof.
  intros Hf. induction l as [|x l IH]; simpl.
  - apply keeps_ret.
  - apply keeps_bind; [apply Hf | intros y].
    apply keeps_bind; [apply IH | intros ys; apply keeps_ret].
Qed.

End Keeps.

Lemma preserves_keeps {St Ev X A} (proj : St → X) (m : M St Ev A) :
  preserves proj m ↔ keeps (λ s s', proj s' = proj s) m.
Proof. reflexivity. Qed.

#[global] Instance grows_preorder : PreOrder grows.
Proof.
  split.
  - intros st. by split.
  - intros a b c [H1 H2] [H3 H4]. split; by etrans.
Qed.

Section ReconKeeps.
Context (env : Env) (rel : Recon → Recon → Prop) `{!PreOrder rel}.
(** The relation allows a record to be stored, paths to be indexed, the
    side cache to change and the clock to advance. *)
Context (Hfi : ∀ k v st, rel st (with_fileInfo (<[k := v]>) st)).
Context (Hpa : ∀ ps v st,
  rel st (with_paths (λ m, foldl (λ m p, <[p := v]> m) m ps) st)).
Context (Hpc : ∀ g st, rel st (with_parentInfoCache g st)).
Context (Htk : ∀ st, rel st (next_tick st)).

Lemma keeps_drive_files_get fid : keeps rel (drive_files_get env fid).
Proof. intros s r s' ev [= _ <- _]. apply Htk. Qed.

Lemma keeps_tryTwice {A} (fn : R A) : keeps rel fn → keeps rel (tryTwice fn).
Proof.
  intros Hfn. apply (keeps_try_catch rel); [done |]. intros e.
  case_bool_decide; [| by apply (keeps_throw rel)].
  apply (keeps_bind rel); [by apply (keeps_emit rel) | done].
Qed.

Section Knot.
Context (walk : option File.info → R (list string)).
Context (Hwalk : ∀ x, keeps rel (walk x)).

Lemma keeps_storeFileInfo_with info : keeps rel (storeFileInfo_with walk info).
Proof.
  unfold storeFileInfo_with, computePaths_with.
  repeat (first [ apply (keeps_bind rel); [| intros ?]
                | apply (keeps_modify rel); intros; first [apply Hpa | apply Hpc | apply Hfi]
                | by apply (keeps_ret rel) | apply Hwalk ]).
Qed.

Lemma keeps_getFileInfo_with fid : keeps rel (getFileInfo_with env walk fid).
Proof.
  unfold getFileInfo_with.
  apply (keeps_bind_get rel); intros st.
  destruct (fileInfo st !! fid); [by apply (keeps_ret rel) |].
  apply (keeps_bind rel).
  - apply (keeps_try_catch rel).
    + apply (keeps_bind rel); [| intros; by apply (keeps_ret rel)].
      apply keeps_tryTwice, keeps_drive_files_get.
    + intros e. case_bool_decide; [by apply (keeps_ret rel) | by apply (keeps_throw rel)].
  - intros [i|]; [| by apply (keeps_ret rel)].
    apply (keeps_bind rel); [apply keeps_storeFileInfo_with | intros; by apply (keeps_ret rel)].
Qed.

Lemma keeps_getFileInfoBatch_with ids :
  keeps rel (getFileInfoBatch_with env walk ids).
Proof.
  unfold getFileInfoBatch_with.
  apply (keeps_bind_get rel); intros st.
  case_bool_decide; [by apply (keeps_ret rel) |].
  apply (keeps_bind rel).
  - apply (keeps_map_async rel). intros fid. apply (keeps_try_catch rel).
    + apply (keeps_bind rel); [apply keeps_getFileInfo_with | intros; by apply (keeps_ret rel)].
    + intros e. case_bool_decide; by apply (keeps_ret rel).
  - intros settled. apply (keeps_bind_get rel); intros; by apply (keeps_ret rel).
Qed.

Lemma keeps_getPaths_body x : keeps rel (getPaths_body env walk x).
Proof.
  unfold getPaths_body. destruct x as [info|]; [| by apply (keeps_ret rel)].
  apply (keeps_bind_get rel); intros st.
  case_bool_decide; [by apply (keeps_ret rel) |].
  destruct (File.parents info) as [ps|]; [| by apply (keeps_ret rel)].
  apply (keeps_bind rel).
  - case_bool_decide; [by apply (keeps_ret rel) |].
    apply (keeps_bind rel); [apply keeps_getFileInfoBatch_with | intros batch].
    apply (keeps_modify rel). intros; apply Hpc.
  - intros _. apply (keeps_flat_mapM rel). intros parent. unfold parent_paths.
    apply (keeps_bind_get rel); intros st1.
    apply (keeps_bind rel).
    + destruct (parentInfoCache st1 !! parent); [by apply (keeps_ret rel) |].
      destruct (fileInfo st1 !! parent).
      * apply (keeps_bind rel); [apply (keeps_modify rel); intros; apply Hpc | intros; by apply (keeps_ret rel)].
      * apply (keeps_bind rel); [apply keeps_getFileInfo_with | intros [pi|]; [| by apply (keeps_ret rel)]].
        apply (keeps_bind rel); [apply (keeps_modify rel); intros; apply Hpc | intros; by apply (keeps_ret rel)].
    + intros pi. apply (keeps_bind rel); [apply Hwalk | intros; by apply (keeps_ret rel)].
Qed.
End Knot.

Lemma keeps_getPaths n x : keeps rel (getPaths env n x).
Proof.
  revert x. induction n as [|n IH]; intros x; simpl.
  - by apply (keeps_out_of_fuel rel).
  - by apply keeps_getPaths_body.
Qed.

Lemma keeps_storeFileInfo n info : keeps rel (storeFileInfo env n info).
Proof. apply keeps_storeFileInfo_with, keeps_getPaths. Qed.

Lemma keeps_getFileInfo n fid : keeps rel (getFileInfo env n fid).
Proof. apply keeps_getFileInfo_with, keeps_getPaths. Qed.

Lemma keeps_getFileInfoBatch n ids : keeps rel (getFileInfoBatch env n ids).
Proof. apply keeps_getFileInfoBatch_with, keeps_getPaths. Qed.

End ReconKeeps.

Lemma foldl_insert_dom (ps : list string) (v : string) (m : gmap string string) :
  dom (foldl (λ m p, <[p := v]> m) m ps) = dom m ∪ list_to_set ps.
Proof.
  revert m. induction ps as [|p ps IH]; intros m; simpl.
  - by rewrite (right_id_L ∅ (∪)).
  - rewrite IH, dom_insert_L.
    rewrite (comm_L (∪) {[p]} (dom m)). symmetry. apply (assoc_L (∪)).
Qed.

Lemma grows_store k v st : grows st (with_fileInfo (<[k := v]>) st).
Proof. split; simpl; [| done]. rewrite dom_insert_L. apply union_subseteq_r. Qed.

Lemma grows_index ps v st :
  grows st (with_paths (λ m, foldl (λ m p, <[p := v]> m) m ps) st).
Proof. split; simpl; [done |]. rewrite foldl_insert_dom. apply union_subseteq_l. Qed.

Lemma grows_side_cache g st : grows st (with_parentInfoCache g st).
Proof. by split. Qed.

Lemma grows_tick st : grows st (next_tick st).
Proof. by split. Qed.

(** ** The Materialized Set *)

(** X1: a path is registered as materialized after [registerLocalFile]
    exactly when it is the path just registered or was registered before,
    and after [unregisterLocalFile] exactly when it is another path that
    was registered before: the base64 keys never confuse two paths. Each
    of the two calls counts one more change since the last save. *)
Theorem registry_round_trip (p q : string) (s : Sync) :
  Registry.locallyRegistered (Registry.registerLocalFile p s) q
    = bool_decide (q = p) || Registry.locallyRegistered s q
  ∧ Registry.locallyRegistered (Registry.unregisterLocalFile p s) q
    = negb (bool_decide (q = p)) && Registry.locallyRegistered s q
  ∧ changesSinceSave (Registry.registerLocalFile p s) = S (changesSinceSave s)
  ∧ changesSinceSave (Registry.unregisterLocalFile p s) = S (changesSinceSave s).
Proof.
  unfold Registry.locallyRegistered, Registry.registerLocalFile,
    Registry.unregisterLocalFile, locallyRegistered, registerLocalFile,
    unregisterLocalFile. simpl.
  split; [|split; [|done]].
  - destruct (decide (q = p)) as [->|Hq].
    + rewrite (bool_decide_eq_true_2 (p = p)) by done. simpl.
      rewrite lookup_insert_eq. by apply bool_decide_eq_true_2.
    + rewrite (bool_decide_eq_false_2 (q = p)) by done. simpl.
      rewrite lookup_insert_ne; [done|]. intros E. by apply base64_injective in E.
  - destruct (decide (q = p)) as [->|Hq].
    + rewrite (bool_decide_eq_true_2 (p = p)) by done. simpl.
      rewrite lookup_delete_eq. apply bool_decide_eq_false_2. by intros [].
    + rewrite (bool_decide_eq_false_2 (q = p)) by done. simpl.
      rewrite lookup_delete_ne; [done|]. intros E. by apply base64_injective in E.
Qed.


(** ** What the caches keep *)

Lemma foldl_insert_lookup (ps : list string) (v : string)
    (m : gmap string string) (k : string) :
  foldl (λ m p, <[p := v]> m) m ps !! k
  = if decide (k ∈ ps) then Some v else m !! k.
Proof.
  revert m. induction ps as [|p ps IH]; intros m; cbn [foldl].
  - rewrite decide_False; [done | apply not_elem_of_nil].
  - rewrite IH. destruct (decide (k ∈ ps)) as [Hin|Hnin].
    + rewrite decide_True; [done | by apply elem_of_cons; right].
    + destruct (decide (k = p)) as [->|Hne].
      * rewrite lookup_insert_eq. rewrite decide_True; [done | by apply elem_of_cons; left].
      * rewrite lookup_insert_ne by done.
        rewrite decide_False; [done |]. by intros [?|?]%elem_of_cons.
Qed.

Lemma foldl_delete_lookup_gen {V} (ps : list string) (m : gmap string V) k :
  foldl (λ m p, delete p m) m ps !! k
  = if decide (k ∈ ps) then None else m !! k.
Proof.
  revert m. induction ps as [|p ps IH]; intros m; cbn [foldl].
  - rewrite decide_False; [done | apply not_elem_of_nil].
  - rewrite IH. destruct (decide (k ∈ ps)) as [Hin|Hnin].
    + rewrite decide_True; [done | by apply elem_of_cons; right].
    + destruct (decide (k = p)) as [->|Hne].
      * rewrite lookup_delete_eq. rewrite decide_True; [done | by apply elem_of_cons; left].
      * rewrite lookup_delete_ne by done.
        rewrite decide_False; [done |]. by intros [?|?]%elem_of_cons.
Qed.

Section CacheLaws.
Context (env : Env).

(** X3: however the walk ends, it has lost no key of the Metadata Cache
    and none of the Path Index, and it has touched neither the disk, the
    Materialized Set, the summary of changes, the mirrored folder nor the
    root id. *)
Theorem getPaths_forgets_nothing (n : nat) (x : option File.info) (st : Recon) :
  let st' := final (getPaths env n x st) in
  grows st st'
  ∧ disk st' = disk st ∧ onLocalDrive st' = onLocalDrive st
  ∧ lastChanges st' = lastChanges st
  ∧ folder st' = folder st ∧ rootId st' = rootId st.
Proof.
  simpl. destruct (getPaths env n x st) as [[r st'] ev] eqn:H. unfold final; simpl.
  split.
  { eapply (keeps_getPaths env grows); [apply grows_store | apply grows_index
      | apply grows_side_cache | apply grows_tick | exact H]. }
  split; [eapply (preserves_getPaths env disk); [done..| exact H] |].
  split; [eapply (preserves_getPaths env onLocalDrive); [done..| exact H] |].
  split; [eapply (preserves_getPaths env lastChanges); [done..| exact H] |].
  split; [eapply (preserves_getPaths env folder); [done..| exact H] |].
  eapply (preserves_getPaths env rootId); [done..| exact H].
Qed.

(** What [storeFileInfo] leaves behind, on top of the walk. *)
Lemma storeFileInfo_run (n : nat) (info r : File.info) (st st' : Recon)
    (ev : list Effect) :
  storeFileInfo env n info st = (Ok r, st', ev) →
  ∃ ps st1, getPaths env n (Some info) st = (Ok ps, st1, ev)
    ∧ r = info
    ∧ st' = with_fileInfo (<[File.id info := info]>)
              (with_parentInfoCache
                 (λ c, match File.parents info with
                       | Some qs => foldl (λ c p, delete p c) c qs
                       | None => c
                       end)
                 (with_paths
                    (λ m, foldl (λ m p, <[p := File.id info]> m) m ps) st1)).
Proof.
  intros H. unfold storeFileInfo, storeFileInfo_with, computePaths_with in H.
  apply bind_Ok_inv in H as ([] & s1 & e1 & e2 & H1 & H & ->).
  apply bind_Ok_inv in H1 as (ps & s0 & e3 & e4 & Hw & H1 & ->).
  injection H1 as <- <-.
  rewrite bind_modify, bind_modify in H. injection H as <- <- <-.
  rewrite !app_nil_r. by exists ps, s0.
Qed.

(** X4: once [storeFileInfo] has resolved, the record is in the Metadata
    Cache under its id, every path computed for it is in the Path Index
    under that id and no other index entry has changed, the side cache
    holds none of the record's parents, and the disk is as before. *)
Theorem storeFileInfo_stores (n : nat) (info r : File.info) (st st' : Recon)
    (ev : list Effect) :
  storeFileInfo env n info st = (Ok r, st', ev) →
  r = info
  ∧ fileInfo st' !! File.id info = Some info
  ∧ (∃ ps st1, getPaths env n (Some info) st = (Ok ps, st1, ev)
       ∧ ∀ p, paths st' !! p
              = if decide (p ∈ ps) then Some (File.id info) else paths st1 !! p)
  ∧ (∀ q, q ∈ default [] (File.parents info) → parentInfoCache st' !! q = None)
  ∧ disk st' = disk st.
Proof.
  intros H. apply storeFileInfo_run in H as (ps & st1 & Hw & -> & ->).
  split; [done |]. simpl. split; [apply lookup_insert_eq |].
  split; [| split].
  - exists ps, st1. split; [done |]. intros p. apply foldl_insert_lookup.
  - intros q Hq. destruct (File.parents info) as [parents|]; simpl in Hq.
    + rewrite foldl_delete_lookup_gen. by rewrite decide_True.
    + by apply elem_of_nil in Hq.
  - eapply (preserves_getPaths env disk); [done.. | exact Hw].
Qed.

End CacheLaws.

(** ** Postconditions *)

Section Ensures.
Context {St Ev : Type}.

Lemma ensures_ret {A} (pre : St → Prop) (a : A) :
  ensures pre (ret (E:=Ev) a) pre.
Proof. by intros s a' s' ev Hp [= _ <- _]. Qed.

Lemma ensures_weaken {A} (pre pre' post post' : St → Prop) (m : M St Ev A) :
  (∀ s, pre' s → pre s) → (∀ s, post s → post' s) →
  ensures pre m post → ensures pre' m post'.
Proof. intros H1 H2 Hm s a s' ev Hp Hr. eapply H2, Hm; [by apply H1 | done]. Qed.

Lemma ensures_bind {A B} (pre mid post : St → Prop) (m : M St Ev A)
    (f : A → M St Ev B) :
  ensures pre m mid → (∀ a, ensures mid (f a) post) →
  ensures pre (bind m f) post.
Proof.
  intros Hm Hf s b s' ev Hp H.
  apply bind_Ok_inv in H as (a & s1 & e1 & e2 & H1 & H2 & _).
  eapply Hf; [| exact H2]. by eapply Hm.
Qed.

Lemma ensures_bind_get {B} (pre post : St → Prop) (f : St → M St Ev B) :
  (∀ s, ensures (λ s', s' = s ∧ pre s) (f s) post) →
  ensures pre (bind get f) post.
Proof. intros Hf s b s' ev Hp. rewrite bind_get. by apply Hf. Qed.

Lemma ensures_modify (pre post : St → Prop) (g : St → St) :
  (∀ s, pre s → post (g s)) → ensures pre (modify (E:=Ev) g) post.
Proof. intros Hg s a s' ev Hp [= _ <- _]. by apply Hg. Qed.

Lemma ensures_throw {A} (pre post : St → Prop) e :
  ensures pre (throw (E:=Ev) (A:=A) e) post.
Proof. by intros s a s' ev Hp [=]. Qed.

Lemma ensures_keeps {A} (rel : St → St → Prop) (pre post : St → Prop)
    (m : M St Ev A) :
  keeps rel m → (∀ s s', pre s → rel s s' → post s') → ensures pre m post.
Proof. intros Hk Hr s a s' ev Hp H. eapply Hr; [done | by eapply Hk]. Qed.

End Ensures.

(** ** What the disk operations leave alone *)

Section DiskFrames.
Context {X : Type} (proj : Recon → X).
Context (Hdisk : ∀ g st, proj (with_disk g st) = proj st).

Lemma preserves_fs_access p : preserves proj (fs_access p).
Proof. by intros s r s' ev [= _ <- _]. Qed.

Lemma preserves_watcher_ignore p : preserves proj (watcher_ignore p).
Proof. by intros s r s' ev [= _ <- _]. Qed.

Lemma preserves_delay d : preserves proj (delay d).
Proof. by intros s r s' ev [= _ <- _]. Qed.

Lemma preserves_fs_remove p : preserves proj (fs_remove p).
Proof. intros s r s' ev [= _ <- _]. apply Hdisk. Qed.

Lemma preserves_mkdirp p : preserves proj (mkdirp p).
Proof. intros s r s' ev [= _ <- _]. apply Hdisk. Qed.

Lemma preserves_md5file p : preserves proj (md5file p).
Proof. by intros s r s' ev [= _ <- _]. Qed.

Lemma preserves_fs_createWriteStream p : preserves proj (fs_createWriteStream p).
Proof. intros s r s' ev [= _ <- _]. apply Hdisk. Qed.

Lemma preserves_fs_rename a b : preserves proj (fs_rename a b).
Proof.
  intros s r s' ev. unfold fs_rename.
  destruct (disk s !! a); intros [= _ <- _]; [apply Hdisk | done].
Qed.

Lemma preserves_fs_copy a b : preserves proj (fs_copy a b).
Proof.
  intros s r s' ev. unfold fs_copy.
  destruct (disk s !! a); intros [= _ <- _]; [apply Hdisk | done].
Qed.

Lemma preserves_pipe_to t c : preserves proj (pipe_to t c).
Proof. apply preserves_modify. intros; apply Hdisk. Qed.

Lemma preserves_remove_each ps : ∀ r, preserves proj (remove_each ps r).
Proof.
  induction ps as [|p ps IH]; intros r; simpl; [apply preserves_ret |].
  apply preserves_bind; [| intros; apply IH].
  apply preserves_try_catch; [| intros; apply preserves_ret].
  apply preserves_bind; [apply preserves_fs_access | intros _].
  apply preserves_bind; [apply preserves_watcher_ignore | intros _].
  apply preserves_bind; [apply preserves_fs_remove | intros _; apply preserves_ret].
Qed.

Lemma preserves_changePaths old new : preserves proj (changePaths old new).
Proof.
  unfold changePaths. case_bool_decide; [apply preserves_ret |].
  apply preserves_bind; [| intros _; apply preserves_bind; [| intros _]].
  - apply preserves_forM_. intros p. apply preserves_mkdirp.
  - apply preserves_forM_. intros i. case_bool_decide.
    + apply preserves_bind; [apply preserves_watcher_ignore | intros _].
      apply preserves_bind; [apply preserves_watcher_ignore | intros _].
      apply preserves_fs_rename.
    + apply preserves_bind; [apply preserves_watcher_ignore | intros _].
      apply preserves_fs_remove.
  - apply preserves_forM_. intros i.
    apply preserves_bind; [apply preserves_watcher_ignore | intros _].
    apply preserves_fs_copy.
Qed.

End DiskFrames.

Section DownloadFrames.
Context (env : Env) {X : Type} (proj : Recon → X).
Context (Hdisk : ∀ g st, proj (with_disk g st) = proj st).
Context (Htk : ∀ st, proj (next_tick st) = proj st).

Lemma preserves_download_attempt info tmp p :
  preserves proj (download_attempt env info tmp p).
Proof.
  unfold download_attempt. apply preserves_try_catch.
  - apply preserves_bind; [apply preserves_watcher_ignore | intros _].
    apply preserves_bind; [| intros c].
    { intros s r s' ev [= _ <- _]. apply Htk. }
    apply preserves_bind; [by apply preserves_pipe_to | intros _].
    apply preserves_try_catch; [by apply preserves_fs_rename |].
    intros _. apply preserves_pending.
  - intros e. apply preserves_bind; [by apply preserves_fs_remove | intros _].
    apply preserves_throw.
Qed.

(** What [downloadFile] does once the paths are known. *)
Lemma preserves_download_tail info (savePaths : list string) :
  preserves proj
    (match savePaths with
     | [] => ret false
     | savePath :: others =>
        if isFolder info then
          forM_ (λ p, watcher_ignore p >>> mkdirp p) savePaths >>> ret true
        else
          mkdirp (path_dirname savePath) >>>
          let* alreadyDownloaded :=
            try_catch
              (fs_access savePath >>>
               let* h := md5file savePath in
               ret (bool_decide (Some h = File.md5Checksum info)))
              (λ _, ret false) in
          (if alreadyDownloaded then ret tt
           else
             let* st1 := get in
             let tmpFile := tmp_name st1 info in
             fs_createWriteStream tmpFile >>>
             delay (Q2Qc 80) >>>
             tryTwice (download_attempt env info tmpFile savePath)) >>>
          forM_ (λ otherPath,
                   watcher_ignore otherPath >>> fs_copy savePath otherPath)
                others >>>
          ret true
     end).
Proof.
  destruct savePaths as [|savePath others]; [apply preserves_ret |].
  destruct (isFolder info).
  - apply preserves_bind; [| intros; apply preserves_ret].
    apply preserves_forM_. intros p.
    apply preserves_bind; [apply preserves_watcher_ignore | intros _].
    by apply preserves_mkdirp.
  - apply preserves_bind; [by apply preserves_mkdirp | intros _].
    apply preserves_bind; [| intros already].
    { apply preserves_try_catch; [| intros; apply preserves_ret].
      apply preserves_bind; [apply preserves_fs_access | intros _].
      apply preserves_bind; [apply preserves_md5file | intros; apply preserves_ret]. }
    apply preserves_bind; [| intros _].
    { destruct already; [apply preserves_ret |].
      apply preserves_bind; [apply preserves_get | intros s1].
      apply preserves_bind; [by apply preserves_fs_createWriteStream | intros _].
      apply preserves_bind; [apply preserves_delay | intros _].
      apply preserves_try_catch; [apply preserves_download_attempt |].
      intros e. case_bool_decide; [| apply preserves_throw].
      apply preserves_bind; [apply preserves_emit | intros _].
      apply preserves_download_attempt. }
    apply preserves_bind; [| intros; apply preserves_ret].
    apply preserves_forM_. intros o.
    apply preserves_bind; [apply preserves_watcher_ignore | intros _].
    by apply preserves_fs_copy.
Qed.

End DownloadFrames.

(** ** The Metadata Cache after a change *)

Lemma grows_of_preserves {A} (m : R A) :
  preserves fileInfo m → preserves paths m → keeps grows m.
Proof.
  intros H1 H2 s r s' ev H. split.
  - by rewrite (H1 _ _ _ _ H).
  - by rewrite (H2 _ _ _ _ H).
Qed.

Section CacheAfterChange.
Context (env : Env).

Lemma grows_getPaths n x : keeps grows (getPaths env n x).
Proof.
  apply (keeps_getPaths env grows);
    [apply grows_store | apply grows_index | apply grows_side_cache | apply grows_tick].
Qed.

Lemma grows_storeFileInfo n info : keeps grows (storeFileInfo env n info).
Proof.
  apply (keeps_storeFileInfo env grows);
    [apply grows_store | apply grows_index | apply grows_side_cache | apply grows_tick].
Qed.

Lemma grows_downloadFile n info : keeps grows (downloadFile env n info).
Proof.
  unfold downloadFile. apply (keeps_bind_get grows). intros st.
  destruct (shouldIgnoreFile st info); [by apply (keeps_ret grows) |].
  apply (keeps_bind grows); [apply grows_getPaths | intros ps].
  apply grows_of_preserves; by apply preserves_download_tail.
Qed.

Lemma grows_addFileLocally n info : keeps grows (addFileLocally env n info).
Proof.
  unfold addFileLocally.
  apply (keeps_bind grows); [apply grows_storeFileInfo | intros _].
  apply (keeps_bind grows); [apply grows_downloadFile | intros b].
  by apply (keeps_ret grows).
Qed.

Lemma preserves_logChange {X} (proj : Recon → X) type b :
  (∀ g st, proj (with_lastChanges g st) = proj st) →
  preserves proj (logChange type b).
Proof.
  intros Hl. unfold logChange.
  apply preserves_bind; [| intros; apply preserves_ret].
  destruct b; [by apply preserves_modify | apply preserves_ret].
Qed.

Lemma cached_grows fid st st' : cached fid st → grows st st' → cached fid st'.
Proof. intros H [Hg _]. by apply Hg. Qed.

Lemma ensures_cached_keeps {A} fid (m : R A) :
  keeps grows m → ensures (cached fid) m (cached fid).
Proof. intros Hk. eapply ensures_keeps; [exact Hk | apply cached_grows]. Qed.

Lemma ensures_cached_preserves {A} fid (m : R A) :
  preserves fileInfo m → ensures (cached fid) m (cached fid).
Proof.
  intros Hk s a s' ev Hc H. unfold cached. by rewrite (Hk _ _ _ _ H).
Qed.

Lemma storeFileInfo_cached n info (pre : Recon → Prop) :
  ensures pre (storeFileInfo env n info) (cached (File.id info)).
Proof.
  intros s a s' ev _ H. apply storeFileInfo_run in H as (ps & st1 & _ & _ & ->).
  unfold cached. apply elem_of_dom. simpl. rewrite lookup_insert_eq. by eexists.
Qed.

Lemma addFileLocally_cached n info (pre : Recon → Prop) :
  ensures pre (addFileLocally env n info) (cached (File.id info)).
Proof.
  unfold addFileLocally.
  eapply ensures_bind; [apply storeFileInfo_cached | intros _].
  apply ensures_cached_keeps.
  apply (keeps_bind grows); [apply grows_downloadFile | intros b].
  by apply (keeps_ret grows).
Qed.

Lemma removeFileLocally_uncached n fid (pre : Recon → Prop) :
  ensures pre (removeFileLocally env n fid) (λ st, fileInfo st !! fid = None).
Proof.
  intros s a s' ev _. unfold removeFileLocally. rewrite bind_get.
  destruct (fileInfo s !! fid) as [info|] eqn:Hfid.
  - intros H. apply bind_Ok_inv in H as (ps & s1 & e1 & e2 & H1 & H & _).
    rewrite bind_modify, bind_modify in H.
    assert (Hp : preserves fileInfo
                   (if bool_decide (ps = []) then ret false
                    else remove_each ps false)).
    { case_bool_decide; [apply preserves_ret | by apply preserves_remove_each]. }
    rewrite (Hp _ _ _ _ H). simpl. apply lookup_delete_eq.
  - by intros [= _ <- _].
Qed.

Lemma handleChange_gone_uncached n c st st' (b : bool) ev :
  marked_gone c →
  handleChange env n c st = (Ok b, st', ev) →
  fileInfo st' !! fileId c = None.
Proof.
  intros Hgone H. unfold handleChange in H. rewrite gone_prelude in H by done.
  apply bind_Ok_inv in H as (r & s1 & e1 & e2 & H1 & H2 & _).
  apply (removeFileLocally_uncached n (fileId c) (λ _, True) _ _ _ _ I) in H1.
  assert (fileInfo st' = fileInfo s1) as ->; [| exact H1].
  eapply (preserves_logChange fileInfo); [done | exact H2].
Qed.

(** X5: once a change has been applied, the Metadata Cache holds the
    change's id exactly when the change was not a removal. *)
Theorem handleChange_cache_membership (n : nat) (c : Change) (st st' : Recon)
    (b : bool) (ev : list Effect) :
  handleChange env n c st = (Ok b, st', ev) →
  (marked_gone c → fileInfo st' !! fileId c = None)
  ∧ (¬ marked_gone c →
     ∃ f, file c = Some f ∧ is_Some (fileInfo st' !! File.id f)).
Proof.
  intros H. split.
  - intros Hgone. by eapply handleChange_gone_uncached.
  - intros Hpresent. unfold handleChange in H.
    destruct (removed c) eqn:Hrem; [destruct Hpresent; by left |].
    destruct (file c) as [f|] eqn:Hfile; [| by rewrite bind_throw in H].
    rewrite bind_ret in H.
    destruct (File.trashed f) eqn:Htr; [destruct Hpresent; right; by exists f |].
    exists f. split; [done |]. apply elem_of_dom. fold (cached (File.id f) st').
    rewrite bind_get in H.
    assert (Hlog : ∀ t v, ensures (cached (File.id f)) (logChange t v)
                            (cached (File.id f))).
    { intros t v. apply ensures_cached_preserves. by apply preserves_logChange. }
    destruct (fileInfo st !! fileId c) as [oldInfo|].
    + match type of H with
      | ?m st = _ =>
          assert (E : ensures (λ _, True) m (cached (File.id f)));
            [| exact (E _ _ _ _ I H)]
      end.
      clear H.
      apply (ensures_bind (λ _, True) (cached (File.id f)));
        [apply storeFileInfo_cached | intros _].
      destruct (noChange oldInfo f); [apply ensures_ret |].
      eapply ensures_bind; [apply ensures_cached_keeps, grows_getPaths | intros oldPaths].
      eapply ensures_bind; [apply ensures_cached_keeps, grows_getPaths | intros newPaths].
      destruct (_ && _); [apply ensures_ret |].
      case_bool_decide.
      { eapply ensures_bind; [| intros _].
        { intros s a s1 e _ _. exact I. }
        eapply ensures_bind; [apply addFileLocally_cached | intros _].
        eapply ensures_bind; [apply Hlog | intros _; apply ensures_ret]. }
      case_bool_decide.
      { eapply ensures_bind; [apply Hlog | intros _].
        apply addFileLocally_cached. }
      apply ensures_bind_get. intros s1.
      eapply ensures_weaken with (pre := cached (File.id f));
        [by intros ? [-> ?] | intros ? Hq; exact Hq |].
      destruct (shouldIgnoreFile s1 f); [apply ensures_ret |].
      case_bool_decide; [apply ensures_ret |].
      eapply ensures_bind; [| intros _; apply ensures_ret].
      apply ensures_cached_preserves. by apply preserves_changePaths.
    + match type of H with
      | ?m st = _ =>
          assert (E : ensures (λ _, True) m (cached (File.id f)));
            [| exact (E _ _ _ _ I H)]
      end.
      apply (ensures_bind (λ _, True) (cached (File.id f)));
        [apply addFileLocally_cached | intros r; apply Hlog].
Qed.

End CacheAfterChange.

(** ** Edge cases of the reconciler *)

Section Edges.
Context (env : Env).

(** X6: a lookup that resolves to [null] found the id neither in the cache
    nor on the remote, and left no trace in the caches. *)
Theorem getFileInfo_null (n : nat) (fid : string) (st st' : Recon)
    (ev : list Effect) :
  getFileInfo env n fid st = (Ok None, st', ev) →
  fileInfo st !! fid = None
  ∧ fileInfo st' = fileInfo st ∧ paths st' = paths st
  ∧ parentInfoCache st' = parentInfoCache st ∧ disk st' = disk st
  ∧ ((files_get env (tick st) fid = Fail (HttpError 404)
      ∧ ev = [FilesGet fid])
     ∨ (files_get env (tick st) fid = Fail ECONNRESET
        ∧ files_get env (S (tick st)) fid = Fail (HttpError 404)
        ∧ ev = [FilesGet fid; Delay (Q2Qc 2000); FilesGet fid])).
Proof.
  unfold getFileInfo, getFileInfo_with. rewrite bind_get.
  destruct (fileInfo st !! fid) as [i|] eqn:Hfid; [by intros [=] |].
  intros H. apply bind_Ok_inv in H as (got & s1 & e1 & e2 & H1 & H2 & ->).
  destruct got as [i|].
  { apply bind_Ok_inv in H2 as (r & s2 & e3 & e4 & _ & H2 & _). by injection H2. }
  injection H2 as <- <-. rewrite app_nil_r. split; [done |].
  revert H1. unfold try_catch, tryTwice, try_catch, bind, drive_files_get, delay,
    emit, ret, throw. simpl.
  destruct (files_get env (tick st) fid) as [i|e] eqn:H0; simpl; [by intros [=] |].
  destruct (bool_decide (e = ECONNRESET)) eqn:He; simpl.
  - apply bool_decide_eq_true in He as ->.
    destruct (files_get env (S (tick st)) fid) as [i|e] eqn:H1; simpl; [by intros [=] |].
    case_bool_decide as H404; simpl; [| by intros [=]]. subst e.
    intros [= <- <-]. do 4 (split; [done |]). by right.
  - destruct (bool_decide (e = HttpError 404)) eqn:H404; simpl; [| by intros [=]].
    apply bool_decide_eq_true in H404 as ->.
    intros [= <- <-]. do 4 (split; [done |]). by left.
Qed.

(** X7: a cached record that maps to no local path is dropped from the
    cache; nothing is removed on disk and the call reports [false]. *)
Theorem removeFileLocally_without_paths (n : nat) (fid : string)
    (info : File.info) (st st1 : Recon) (ev : list Effect) :
  fileInfo st !! fid = Some info →
  getPaths env n (Some info) st = (Ok [], st1, ev) →
  removeFileLocally env n fid st
  = (Ok false, with_fileInfo (delete fid) st1, ev)
  ∧ disk st1 = disk st.
Proof.
  intros Hfid Hw. split.
  - unfold removeFileLocally. rewrite bind_get, Hfid.
    rewrite (bind_Ok _ _ _ _ _ _ Hw), bind_modify, bind_modify. simpl.
    unfold after, ret; simpl. rewrite app_nil_r. by destruct st1.
  - eapply (preserves_getPaths env disk); [done.. | exact Hw].
Qed.

(** What the folder branch of [downloadFile] does to the disk. *)
Lemma mkdirs_run (ps : list string) : ∀ st,
  forM_ (λ p, watcher_ignore p >>> mkdirp p) ps st
  = (Ok tt, foldl (λ s p, with_disk (disk_mkdirp p) s) st ps,
     concat ((λ p, [WatcherIgnore p; Mkdirp p]) <$> ps)).
Proof.
  induction ps as [|p ps IH]; intros st; [done |].
  cbn [forM_]. unfold watcher_ignore at 1.
  rewrite bind_assoc, bind_emit. unfold mkdirp at 1.
  erewrite bind_Ok; [| reflexivity].
  rewrite IH. reflexivity.
Qed.

(** X8: for a folder record the download creates every path as a
    directory, telling the watcher first, and contacts the remote for
    nothing but the walk. *)
Theorem downloadFile_folder (n : nat) (info : File.info) (st st1 : Recon)
    (ps : list string) (ev1 : list Effect) :
  shouldIgnoreFile st info = false →
  isFolder info = true →
  getPaths env n (Some info) st = (Ok ps, st1, ev1) →
  ps ≠ [] →
  downloadFile env n info st
  = (Ok true, foldl (λ s p, with_disk (disk_mkdirp p) s) st1 ps,
     ev1 ++ concat ((λ p, [WatcherIgnore p; Mkdirp p]) <$> ps)).
Proof.
  intros Hig Hfolder Hw Hne. unfold downloadFile.
  rewrite bind_get, Hig, (bind_Ok _ _ _ _ _ _ Hw).
  destruct ps as [|p ps]; [done |]. rewrite Hfolder.
  erewrite bind_Ok; [| apply mkdirs_run]. unfold after, ret; simpl.
  by rewrite app_nil_r.
Qed.

(** X9: when the download reports [false] nothing was written: the record
    is ignored, or it has no local path. *)
Theorem downloadFile_false (n : nat) (info : File.info) (st st' : Recon)
    (ev : list Effect) :
  downloadFile env n info st = (Ok false, st', ev) →
  disk st' = disk st
  ∧ ((shouldIgnoreFile st info = true ∧ st' = st ∧ ev = [])
     ∨ (shouldIgnoreFile st info = false
        ∧ getPaths env n (Some info) st = (Ok [], st', ev))).
Proof.
  unfold downloadFile. rewrite bind_get.
  destruct (shouldIgnoreFile st info) eqn:Hig.
  { intros [= <- <-]. split; [done |]. by left. }
  intros H. apply bind_Ok_inv in H as (ps & s1 & e1 & e2 & Hw & H & ->).
  destruct ps as [|p ps].
  - injection H as <- <-. rewrite app_nil_r. split; [| by right].
    eapply (preserves_getPaths env disk); [done.. | exact Hw].
  - exfalso. destruct (isFolder info).
    + apply bind_Ok_inv in H as (? & ? & ? & ? & _ & H & _). by injection H.
    + apply bind_Ok_inv in H as (? & ? & ? & ? & _ & H & _).
      apply bind_Ok_inv in H as (? & ? & ? & ? & _ & H & _).
      apply bind_Ok_inv in H as (? & ? & ? & ? & _ & H & _).
      apply bind_Ok_inv in H as (? & ? & ? & ? & _ & H & _).
      by injection H.
Qed.

(** X10: a change whose record differs from the cached one in nothing the
    engine looks at only replaces the cached record. *)
Theorem handleChange_unchanged_record (n : nat) (c : Change)
    (oldInfo newInfo r : File.info) (st st1 : Recon) (ev : list Effect) :
  removed c = false →
  file c = Some newInfo →
  File.trashed newInfo = false →
  fileInfo st !! fileId c = Some oldInfo →
  noChange oldInfo newInfo = true →
  storeFileInfo env n newInfo st = (Ok r, st1, ev) →
  handleChange env n c st = (Ok false, st1, ev)
  ∧ fileInfo st1 !! File.id newInfo = Some newInfo
  ∧ disk st1 = disk st ∧ onLocalDrive st1 = onLocalDrive st
  ∧ lastChanges st1 = lastChanges st.
Proof.
  intros Hrem Hfile Htr Hold Hnc Hstore. split.
  - unfold handleChange. rewrite Hrem, Hfile, bind_ret, Htr, bind_get, Hold.
    rewrite (bind_Ok _ _ _ _ _ _ Hstore), Hnc. unfold after, ret; simpl.
    by rewrite app_nil_r.
  - split.
    { apply storeFileInfo_run in Hstore as (ps & st0 & _ & _ & ->).
      apply lookup_insert_eq. }
    split; [| split].
    + eapply (preserves_storeFileInfo_with disk); [done.. | | exact Hstore].
      intros x. by apply preserves_getPaths.
    + eapply (preserves_storeFileInfo_with onLocalDrive); [done.. | | exact Hstore].
      intros x. by apply preserves_getPaths.
    + eapply (preserves_storeFileInfo_with lastChanges); [done.. | | exact Hstore].
      intros x. by apply preserves_getPaths.
Qed.

(** X11: once a removal has been applied, applying the same change again
    does nothing: no call, no event, the state as it is, and [false]. *)
Theorem handleChange_removal_replayed (n : nat) (c : Change) (st st' : Recon)
    (b : bool) (ev : list Effect) :
  marked_gone c →
  handleChange env n c st = (Ok b, st', ev) →
  handleChange env n c st' = (Ok false, st', []).
Proof.
  intros Hgone H.
  apply handleChange_gone_uncached in H; [| done].
  unfold handleChange. rewrite gone_prelude by done.
  unfold removeFileLocally. rewrite bind_assoc, bind_get, H. by rewrite bind_ret.
Qed.

End Edges.

(** ** The apply loop and the checkpoint *)

Section PollerMore.
Context (env : Env).

(** What [save] leaves alone, however it ends: everything but the call
    counter, the datastore record and its id, the time and the count of the
    last save, the poller's place and its own flag. *)
Lemma preserves_save {X} (proj : Sync → X) :
  (∀ s, proj (with_recon next_tick s) = proj s) →
  (∀ s, proj (with_recon (λ _, next_tick (recon s)) s) = proj s) →
  (∀ b s, proj (set_saving b s) = proj s) →
  (∀ b s, proj (set_running b s) = proj s) →
  (∀ c s, proj (set_stored c s) = proj s) →
  (∀ t k s, proj (set_saved t k s) = proj s) →
  (∀ b s, proj (set_watchingChanges b s) = proj s) →
  preserves proj (save env).
Proof.
  intros Htick Hnow Hsaving Hrunning Hstored Hsaved Hwatching.
  assert (Hdb : ∀ e, preserves proj (db_call env e)).
  { intros e s r s' ev. unfold db_call. intros [= _ <- _]. apply Htick. }
  unfold save. apply preserves_bind; [apply preserves_get | intros s].
  destruct (loading s || saving s).
  { unfold finishSaveOperation.
    apply preserves_bind; [apply preserves_get | intros s0].
    destruct (_ || _); [apply preserves_pending | apply preserves_ret]. }
  apply preserves_bind; [by apply preserves_modify | intros _].
  apply preserves_try_catch.
  2:{ intros e. apply preserves_bind; [by apply preserves_modify |].
      intros _. apply preserves_throw. }
  apply preserves_bind.
  { destruct (running s); [apply preserves_ret |].
    apply preserves_bind; [apply Hdb | intros _]. by apply preserves_modify. }
  intros _. apply preserves_bind; [apply preserves_get | intros s1].
  apply preserves_bind; [apply Hdb | intros _].
  apply preserves_bind; [by apply preserves_modify | intros _].
  apply preserves_bind.
  { intros s0 r s' ev. unfold lift, Date_now. intros [= _ <- _]. apply Hnow. }
  intros now. apply preserves_bind; [by apply preserves_modify | intros _].
  apply preserves_bind; [apply preserves_get | intros s2].
  apply preserves_bind; [| intros _; by apply preserves_modify].
  destruct (watchingChanges s2); [apply preserves_ret |].
  apply preserves_bind; [by apply preserves_modify | intros _].
  apply preserves_emit.
Qed.

(** [save] run step by step, by what the datastore answers. *)
Ltac save_steps s :=
  let Hl := fresh "Hl" in let Hs := fresh "Hs" in let Hr := fresh "Hr" in
  let Hw := fresh "Hw" in let Hd := fresh "Hd" in let Hd' := fresh "Hd'" in
  destruct (loading s) eqn:Hl, (saving s) eqn:Hs, (running s) eqn:Hr,
    (watchingChanges s) eqn:Hw;
  destruct (datastore env (tick (recon s))) as [[]|?] eqn:Hd;
  destruct (datastore env (S (tick (recon s)))) as [[]|?] eqn:Hd';
  unfold save, finishSaveOperation, try_catch, bind, get, modify, ret, emit,
    db_call, lift, Date_now, throw, pending;
  repeat (progress (simpl; rewrite ?Hl, ?Hs, ?Hr, ?Hw, ?Hd, ?Hd')).

(** What a [save] that resolves has done. *)
Lemma save_resolved s s' ev :
  save env s = (Ok tt, s', ev) →
  stored s' = Some (checkpoint_of s)
  ∧ checkpoint_of s' = checkpoint_of s
  ∧ changesSinceSave s' = 0
  ∧ running s' = true ∧ watchingChanges s' = true
  ∧ saving s' = false ∧ loading s' = false
  ∧ checkpoints ev = [checkpoint_of s].
Proof.
  save_steps s; intros [= <- <-]; by repeat split.
Qed.

(** Behind a [load] or another [save], [save] only waits. *)
Lemma save_waits s :
  loading s || saving s = true → save env s = (Pending, s, []).
Proof.
  intros Hg. unfold save. rewrite bind_get, Hg.
  unfold finishSaveOperation. by rewrite bind_get, Hg.
Qed.

(** With no [load] and no other [save] under way, [save] resolves when the
    datastore answers. *)
Lemma save_resolves s :
  loading s || saving s = false →
  (∀ k, datastore env k = Reply tt) →
  resolved (outcome (save env s)).
Proof.
  intros Hg Hdb. apply orb_false_iff in Hg as [Hl Hs]. unfold outcome.
  save_steps s; try done; congruence.
Qed.

(** Whatever [save] writes is the checkpoint of the object it started
    from. *)
Lemma save_checkpoints s cp :
  cp ∈ checkpoints (trace (save env s)) → cp = checkpoint_of s.
Proof.
  unfold trace. save_steps s; intros H; simpl in H;
    first [by apply list_elem_of_singleton in H | by inversion H].
Qed.

(** X12: on a loaded object, behind a [load] or another [save] under way,
    [save] only waits.
    Otherwise it settles, and however it ends its own flag is down again
    and no field it saves has changed in memory.  When it resolves, the
    datastore record holds exactly these fields, written by the single
    update the call made, and the count of unsaved changes is back at zero;
    when the datastore rejects the insert or the update, [save] rejects
    with that error and the record, the count of unsaved changes and the
    time of the last save are as before.  It resolves whenever the
    datastore answers. *)
Theorem save_writes_checkpoint (s : Sync) :
  (loading s || saving s = true → save env s = (Pending, s, []))
  ∧ (loading s || saving s = false →
     let x := save env s in
     settles (outcome x)
     ∧ saving (final x) = false
     ∧ checkpoint_of (final x) = checkpoint_of s
     ∧ (resolved (outcome x) →
        stored (final x) = Some (checkpoint_of s)
        ∧ checkpoints (trace x) = [checkpoint_of s]
        ∧ changesSinceSave (final x) = 0)
     ∧ (∀ e, outcome x = Throw e →
        stored (final x) = stored s
        ∧ changesSinceSave (final x) = changesSinceSave s
        ∧ savedTime (final x) = savedTime s
        ∧ ∃ k, datastore env k = Fail e)
     ∧ ((∀ k, datastore env k = Reply tt) → resolved (outcome x))).
Proof.
  split.
  - intros Hg. unfold save. rewrite bind_get, Hg.
    unfold finishSaveOperation. by rewrite bind_get, Hg.
  - intros Hg. apply orb_false_iff in Hg as [Hl Hs]. cbv zeta.
    unfold outcome, final, trace.
    save_steps s; repeat split; try done; try (by intros [=]);
      try (intros Hdb; congruence);
      match goal with
      | H : Throw _ = Throw _ |- _ => injection H as <-; by eauto
      end.
Qed.

Lemma notifyChanges_run s :
  ∃ ev, notifyChanges s = (Ok tt, notified s, ev)
        ∧ Forall not_HandleChange ev ∧ Forall not_DbUpdate ev.
Proof.
  unfold notifyChanges, notified. rewrite bind_get.
  destruct (handlingChanges s); [by exists [] |].
  case_bool_decide; [| by exists []].
  rewrite bind_emit. eexists. split; [reflexivity |].
  split; by repeat constructor.
Qed.

Lemma notified_idle s :
  handlingChanges s = false → lastChanges (recon (notified s)) = ∅.
Proof.
  unfold notified. intros ->. case_bool_decide as H; [done |].
  destruct (decide (lastChanges (recon s) = ∅)) as [E|E]; [done |].
  by destruct H.
Qed.

Lemma notified_fields s :
  changesToExecute (notified s) = changesToExecute s
  ∧ handlingRemoteChange (notified s) = handlingRemoteChange s
  ∧ syncing (notified s) = syncing s
  ∧ handlingLocalChange (notified s) = handlingLocalChange s
  ∧ closed (notified s) = closed s
  ∧ watchingChanges (notified s) = watchingChanges s.
Proof.
  unfold notified. destruct (handlingChanges s); [done |].
  by case_bool_decide.
Qed.

(** Lowering the flag: the flag is down, and when nothing else is going on
    the summary of changes has been flushed. *)
Lemma lower_flag_run s :
  ∃ s' ev, set_handlingRemoteChange false s = (Ok tt, s', ev)
    ∧ handlingRemoteChange s' = false
    ∧ changesToExecute s' = changesToExecute s
    ∧ syncing s' = syncing s
    ∧ handlingLocalChange s' = handlingLocalChange s
    ∧ closed s' = closed s
    ∧ watchingChanges s' = watchingChanges s
    ∧ Forall not_HandleChange ev ∧ Forall not_DbUpdate ev.
Proof.
  unfold set_handlingRemoteChange. rewrite bind_get.
  case_bool_decide as Hf.
  { exists s, []. by repeat split. }
  rewrite bind_modify, bind_get, bind_emit.
  destruct (notifyChanges_run (set_handlingRemoteChange_field false s))
    as (ev & -> & He1 & He2).
  destruct (notified_fields (set_handlingRemoteChange_field false s))
    as (H1 & H2 & H3 & H4 & H5 & H6).
  eexists _, _. split; [reflexivity |].
  repeat split; try done; by constructor.
Qed.

(** The loop leaves nothing pending when it ends with the object open. *)
Lemma loop_drained n : ∀ s s' ev,
  closed s = false →
  handleChanges_loop env n s = (Ok tt, s', ev) →
  pending_changes s' = [].
Proof.
  induction n as [|n IH]; intros s s' ev Hopen; simpl; rewrite bind_get, Hopen.
  - case_bool_decide as Hcs; simpl; unfold out_of_fuel, ret; [done |].
    intros [= <- <-]. by destruct (pending_changes s).
  - case_bool_decide as Hcs; simpl.
    2:{ intros [= <- <-]. by destruct (pending_changes s). }
    destruct (open_with_hoare (pending_changes s))
      as (H1 & H2 & H3 & H4 & H5 & H6 & H7).
    intros H. apply bind_Ok_inv in H as ([] & s1 & e1 & e2 & Hflag & H & ->).
    eapply (hoare_set_handlingRemoteChange (open_with (pending_changes s))
              not_HandleChange) in Hflag as [[Hc1 Hp1] He1]; try done.
    rewrite bind_modify in H.
    apply bind_Ok_inv in H as ([] & s2 & e3 & e4 & Hwin & Hloop & ->).
    eapply (window_applied env (S n) (drop 10 (pending_changes s))) in Hwin
      as [[Hc2 Hp2] He3]; [| by split].
    by eapply IH.
Qed.

(** What [handleChanges] does once its loop has ended. *)
Lemma handleChanges_tail (n : nat) (s s' : Sync) (ev : list Event) :
  handleChanges env n s = (Ok tt, s', ev) →
  ∃ s1 e1 e2, handleChanges_loop env n s = (Ok tt, s1, e1)
    ∧ ev = e1 ++ e2
    ∧ changesToExecute s' = changesToExecute s1
    ∧ handlingRemoteChange s' = false
    ∧ (locally_idle s1 → lastChanges (recon s') = ∅).
Proof.
  intros H. unfold handleChanges in H.
  apply bind_Ok_inv in H as ([] & s1 & e1 & e2 & Hloop & H & ->).
  exists s1, e1, e2. split; [done |]. split; [done |].
  destruct (lower_flag_run s1) as (s2 & e3 & Hlow & Hf2 & Hc2 & Hs2 & Hl2 & _).
  rewrite (bind_Ok _ _ _ _ _ _ Hlow) in H.
  destruct (notifyChanges_run s2) as (e4 & Hn & _).
  rewrite (bind_Ok _ _ _ _ _ _ Hn) in H.
  destruct (notified_fields s2) as (N1 & N2 & N3 & N4 & _).
  erewrite bind_Ok in H; [| reflexivity]. rewrite bind_get in H.
  assert (Hlast : locally_idle s1 → lastChanges (recon (notified s2)) = ∅).
  { intros [Hi1 Hi2]. apply notified_idle.
    unfold handlingChanges. by rewrite Hs2, Hl2, Hf2, Hi1, Hi2. }
  destruct (_ && _).
  - match type of H with
    | context [save env ?s3] =>
        destruct (save env s3) as [[r sf] ef] eqn:Hsave
    end.
    unfold after in H. injection H as -> <- _.
    apply (preserves_save
             (λ s, (changesToExecute s, handlingRemoteChange s,
                    lastChanges (recon s)))) in Hsave; try done.
    injection Hsave as -> -> ->. simpl.
    rewrite ?N1, ?N2, ?Hc2. by repeat split.
  - injection H as <- _. simpl. rewrite ?N1, ?N2, ?Hc2. by repeat split.
Qed.

(** Neither the initial sync nor a local change starts inside the loop. *)
Lemma loop_keeps_locally_idle (n : nat) :
  hoare locally_idle (λ _, True) (handleChanges_loop env n).
Proof.
  induction n as [|n IH]; simpl; apply hoare_bind_get; intros s Hs.
  - destruct (_ && _); [apply hoare_out_of_fuel | apply hoare_ret].
  - destruct (_ && _); [| apply hoare_ret].
    apply hoare_bind; [by apply hoare_set_handlingRemoteChange | intros _].
    apply hoare_bind; [by apply hoare_modify | intros _].
    apply hoare_bind; [| intros _; apply IH].
    apply hoare_forM_. intros c.
    apply hoare_bind; [by apply hoare_emit | intros _].
    by apply hoare_apply_one.
Qed.

(** X13: when [handleChanges] resolves on an open object, every pending
    change has been handed to the reconciler once and in order, nothing
    is left pending, the remote-change flag is down, and, unless a local
    change or the initial sync is under way, the summary of changes has
    been flushed. *)
Theorem handleChanges_drains_queue (n : nat) (s s' : Sync) (ev : list Event) :
  closed s = false →
  handleChanges env n s = (Ok tt, s', ev) →
  applied_changes ev = pending_changes s
  ∧ pending_changes s' = []
  ∧ handlingRemoteChange s' = false
  ∧ (locally_idle s → lastChanges (recon s') = ∅).
Proof.
  intros Hopen H. split; [by eapply handleChanges_applied |].
  apply handleChanges_tail in H
    as (s1 & e1 & e2 & Hloop & _ & Hc & Hflag & Hlast).
  pose proof (loop_drained _ _ _ _ Hopen Hloop) as Hp1.
  split; [| split; [done |]].
  - unfold pending_changes in *. by rewrite Hc.
  - intros Hi. apply Hlast.
    by destruct (loop_keeps_locally_idle n _ _ _ _ Hi Hloop).
Qed.

(** X14: a closed object applies nothing: [handleChanges] hands no change
    to the reconciler and leaves the pending list as it was, and the
    polling loop returns at once. *)
Theorem closed_object_is_inert (n iters : nat) (d : Qc) (s : Sync) :
  closed s = true →
  applied_changes (trace (handleChanges env n s)) = []
  ∧ changesToExecute (final (handleChanges env n s)) = changesToExecute s
  ∧ watch_loop env n iters d s = (Ok tt, s, []).
Proof.
  intros Hc.
  assert (∃ e1 s3 r sf ef,
    handleChanges env n s = after e1 (r, sf, ef)
    ∧ Forall not_HandleChange e1 ∧ Forall not_HandleChange ef
    ∧ changesToExecute s3 = changesToExecute s
    ∧ changesToExecute sf = changesToExecute s3) as H.
  { unfold handleChanges.
    assert (handleChanges_loop env n s = (Ok tt, s, [])) as Hloop
      by (destruct n; simpl; rewrite bind_get, Hc; by rewrite andb_false_r).
    rewrite (bind_Ok _ _ _ _ _ _ Hloop), after_nil.
    destruct (lower_flag_run s)
      as (s2 & e3 & Hlow & Hf2 & Hc2 & _ & _ & _ & _ & He3 & _).
    rewrite (bind_Ok _ _ _ _ _ _ Hlow).
    destruct (notifyChanges_run s2) as (e4 & Hn & He4 & _).
    rewrite (bind_Ok _ _ _ _ _ _ Hn).
    destruct (notified_fields s2) as (N1 & _).
    erewrite bind_Ok; [| reflexivity]. rewrite bind_get, !after_after.
    match goal with
    | |- context [after ?e (?m ?s3)] =>
        exists e, s3; destruct (m s3) as [[r sf] ef] eqn:Hrun; exists r, sf, ef
    end.
    split; [done |]. split; [rewrite app_nil_r; by apply Forall_app |].
    split_and!.
    - revert Hrun. destruct (_ && _).
      + intros Hrun.
        by eapply (hoare_save env (λ _, True) not_HandleChange) in Hrun as [_ ?].
      + by intros [= _ _ <-].
    - simpl. by rewrite N1.
    - revert Hrun. destruct (_ && _).
      + intros Hrun. by apply (preserves_save changesToExecute) in Hrun.
      + by intros [= _ <- _]. }
  destruct H as (e1 & s3 & r & sf & ef & -> & He1 & Hef & Hc3 & Hcf).
  split_and!.
  - unfold after, trace; simpl.
    by rewrite applied_changes_app, !applied_changes_quiet.
  - unfold after, final; simpl. by rewrite Hcf.
  - destruct iters; simpl; by rewrite bind_get, Hc.
Qed.

(** *** The apply loop while [load] holds its flag *)

Lemma preserves_notifyChanges {X} (proj : Sync → X) :
  (∀ f s, proj (with_recon f s) = proj s) → preserves proj notifyChanges.
Proof.
  intros Hp. unfold notifyChanges.
  apply preserves_bind; [apply preserves_get | intros s].
  destruct (handlingChanges s); [apply preserves_ret |].
  case_bool_decide; [| apply preserves_ret].
  apply preserves_bind; [apply preserves_emit | intros _].
  by apply preserves_modify.
Qed.

Lemma preserves_set_handlingRemoteChange {X} (proj : Sync → X) b :
  (∀ f s, proj (with_recon f s) = proj s) →
  (∀ v s, proj (set_handlingRemoteChange_field v s) = proj s) →
  preserves proj (set_handlingRemoteChange b).
Proof.
  intros Hp Hf. unfold set_handlingRemoteChange.
  apply preserves_bind; [apply preserves_get | intros s].
  case_bool_decide; [apply preserves_ret |].
  apply preserves_bind; [by apply preserves_modify | intros _].
  apply preserves_bind; [apply preserves_get | intros s1].
  apply preserves_bind; [apply preserves_emit | intros _].
  by apply preserves_notifyChanges.
Qed.

(** One change through the loop body with [loading] up: the flag stays up,
    no save is made, and the body resolves only by counting the change as
    unsaved. *)
Lemma body_loading n c s r s' ev :
  loading s = true →
  (emit (HandleChange c) >>>
   let* changed := lift (handleChange env n c) in
   if (changed : bool) then save env
   else modify (λ s, set_saved (savedTime s) (S (changesSinceSave s)) s)) s
  = (r, s', ev) →
  loading s' = true ∧ savedTime s' = savedTime s ∧ closed s' = closed s
  ∧ changesSinceSave s ≤ changesSinceSave s'
  ∧ (resolved r → changesSinceSave s' = S (changesSinceSave s)).
Proof.
  intros Hl. rewrite bind_emit. unfold after, bind, lift.
  destruct (handleChange env n c (recon s)) as [[[[|]|e| |] rc] e1]; simpl.
  - rewrite save_waits by (simpl; by rewrite Hl).
    intros [= <- <- _]. simpl. by repeat split.
  - intros [= <- <- _]. simpl. repeat split; try done; lia.
  - intros [= <- <- _]. simpl. by repeat split.
  - intros [= <- <- _]. simpl. by repeat split.
  - intros [= <- <- _]. simpl. by repeat split.
Qed.

Lemma window_loading n (l : list Change) : ∀ s r s' ev,
  loading s = true →
  forM_ (λ nextChange,
           emit (HandleChange nextChange) >>>
           let* changed := lift (handleChange env n nextChange) in
           if (changed : bool) then save env
           else modify (λ s, set_saved (savedTime s)
                               (S (changesSinceSave s)) s)) l s
  = (r, s', ev) →
  loading s' = true ∧ savedTime s' = savedTime s ∧ closed s' = closed s
  ∧ changesSinceSave s ≤ changesSinceSave s'
  ∧ (resolved r → changesSinceSave s' = changesSinceSave s + length l).
Proof.
  induction l as [|c l IH]; intros s r s' ev Hl; simpl.
  - intros [= <- <- _]. repeat split; try done; lia.
  - intros H. apply bind_inv in H
      as [([] & s1 & e1 & e2 & H1 & H2 & ->) | [(r' & H1 & _) Hr]].
    + apply (body_loading _ _ _ _ _ _ Hl) in H1 as (L1 & T1 & K1 & N1 & R1).
      apply (IH _ _ _ _ L1) in H2 as (L2 & T2 & K2 & N2 & R2).
      repeat split; [done | congruence | congruence | lia |].
      intros Hr. rewrite (R2 Hr), (R1 I). lia.
    + apply (body_loading _ _ _ _ _ _ Hl) in H1 as (L1 & T1 & K1 & N1 & R1).
      by repeat split.
Qed.

Lemma loop_loading n : ∀ s r s' ev,
  loading s = true →
  handleChanges_loop env n s = (r, s', ev) →
  loading s' = true ∧ savedTime s' = savedTime s ∧ closed s' = closed s
  ∧ changesSinceSave s ≤ changesSinceSave s'
  ∧ (resolved r → pending_changes s ≠ [] → closed s = false →
     changesSinceSave s < changesSinceSave s').
Proof.
  induction n as [|n IH]; intros s r s' ev Hl; simpl; rewrite bind_get.
  - case_bool_decide as Hcs; simpl.
    + destruct (closed s) eqn:Hc; simpl; intros [= <- <- _];
        repeat split; try done.
    + intros [= <- <- _]. repeat split; try done.
  - case_bool_decide as Hcs; simpl.
    2:{ intros [= <- <- _]. repeat split; try done. }
    destruct (closed s) eqn:Hc; simpl.
    { intros [= <- <- _]. repeat split; try done. }
    set (proj := λ s : Sync, (loading s, savedTime s, closed s, changesSinceSave s)).
    intros H. apply bind_inv in H
      as [([] & s1 & e1 & e2 & Hflag & H & ->) | [(r' & Hflag & _) Hr]].
    2:{ apply (preserves_set_handlingRemoteChange proj) in Hflag; try done.
        injection Hflag as -> -> -> ->. by repeat split. }
    apply (preserves_set_handlingRemoteChange proj) in Hflag; try done.
    injection Hflag as L1 T1 K1 N1.
    rewrite bind_modify in H.
    apply bind_inv in H
      as [([] & s2 & e3 & e4 & Hwin & Hloop & ->) | [(r' & Hwin & _) Hr]].
    + apply window_loading in Hwin as (L2 & T2 & K2 & N2 & R2);
        [| by simpl; rewrite L1, Hl].
      simpl in T2, K2, N2, R2. specialize (R2 I).
      apply (IH _ _ _ _ L2) in Hloop as (L3 & T3 & K3 & N3 & _).
      assert (0 < length (take 10 (pending_changes s))).
      { destruct (pending_changes s); [done | simpl; lia]. }
      repeat split; [done | congruence | congruence | lia |]. intros; lia.
    + apply window_loading in Hwin as (L2 & T2 & K2 & N2 & R2);
        [| by simpl; rewrite L1, Hl].
      simpl in T2, K2, N2.
      repeat split; [done | congruence | congruence | lia | done].
Qed.

(** With a change pending and the last save more than thirty seconds back,
    [handleChanges] does not return while [load] holds its flag. *)
Lemma handleChanges_loading n s :
  loading s = true → closed s = false → pending_changes s ≠ [] →
  (∀ k, (30000 < date_now env k - savedTime s)%Z) →
  ¬ resolved (outcome (handleChanges env n s))
  ∧ loading (final (handleChanges env n s)) = true.
Proof.
  intros Hl Hc Hp Ht.
  destruct (handleChanges env n s) as [[r s'] ev] eqn:H.
  unfold outcome, final; simpl. unfold handleChanges in H.
  set (proj := λ s : Sync, (loading s, savedTime s, changesSinceSave s)).
  apply bind_inv in H
    as [([] & s1 & e1 & e2 & Hloop & H & ->) | [(r' & Hloop & _) Hr]].
  2:{ apply (loop_loading _ _ _ _ _ Hl) in Hloop as (L1 & _).
      split; [| done]. intros Hr'. by destruct Hr. }
  apply (loop_loading _ _ _ _ _ Hl) in Hloop as (L1 & T1 & K1 & N1 & R1).
  specialize (R1 I Hp Hc).
  apply bind_inv in H
    as [([] & s2 & e3 & e4 & Hflag & H & ->) | [(r' & Hflag & _) Hr]].
  2:{ apply (preserves_set_handlingRemoteChange proj) in Hflag; try done.
      injection Hflag as -> _ _. split; [| done]. intros Hr'. by destruct Hr. }
  apply (preserves_set_handlingRemoteChange proj) in Hflag; try done.
  injection Hflag as L2 T2 N2.
  apply bind_inv in H
    as [([] & s3 & e5 & e6 & Hnote & H & ->) | [(r' & Hnote & _) Hr]].
  2:{ apply (preserves_notifyChanges proj) in Hnote; try done.
      injection Hnote as -> _ _. split; [| by rewrite L2]. intros Hr'. by destruct Hr. }
  apply (preserves_notifyChanges proj) in Hnote; try done.
  injection Hnote as L3 T3 N3.
  unfold bind at 1, lift, Date_now in H. simpl in H. rewrite bind_get in H.
  rewrite bool_decide_eq_true_2 in H.
  2:{ simpl. rewrite T3, T2, T1. apply Ht. }
  rewrite bool_decide_eq_true_2 in H by (simpl; lia). simpl in H.
  rewrite save_waits in H by (simpl; by rewrite L3, L2, L1).
  injection H as <- <- _. simpl. split; [by intros [] | congruence].
Qed.

End PollerMore.

(** ** The polling interval and the poller's failure *)


Section PollerEdges.
Context (env : Env).

(** X15: the polling interval never leaves the range between the minimum
    and the maximum, and the poller sleeps for exactly the interval it
    hands to the next turn. *)
Theorem poll_delay_bounded (n : nat) (d d' : Qc) (s s' : Sync)
    (ev : list Event) :
  (minDelay ≤ d)%Qc →
  watch_iteration env n d s = (Ok d', s', ev) →
  (minDelay ≤ d')%Qc ∧ (d' ≤ maxDelay)%Qc
  ∧ last ev = Some (Io (Delay d')).
Proof.
  intros Hd. unfold watch_iteration. rewrite bind_get.
  intros H. apply bind_Ok_inv in H as (d0 & s1 & e1 & e2 & H1 & H2 & ->).
  assert (Hb : (minDelay ≤ d0)%Qc ∧ (d0 ≤ maxDelay)%Qc).
  { destruct (negb (syncing s) && synced s).
    - apply bind_Ok_inv in H1 as (b & s2 & e3 & e4 & _ & H1 & _).
      injection H1 as <- _ _. destruct b.
      + split; [apply Qcle_refl | done].
      + apply Math_min_bounds; [by apply backoff_grows | done].
    - injection H1 as <- _ _. by split. }
  unfold lift, delay, emit in H2. simpl in H2. injection H2 as <- _ <-.
  destruct Hb as [Hb1 Hb2]. split; [done |]. split; [done |].
  by rewrite last_snoc.
Qed.

(** X16: when the poller fails, it gives up its place and lowers the
    remote-change flag before it rethrows, so that it can be started
    again; a second poller never starts while one is running. *)
Theorem watchChanges_failure_resets (n iters : nat) (s : Sync) :
  (∀ e s' ev, watchChanges env n iters s = (Throw e, s', ev) →
     watchingChanges s' = false ∧ handlingRemoteChange s' = false)
  ∧ (watchingChanges s = true → watchChanges env n iters s = (Ok tt, s, [])).
Proof.
  split.
  - intros e s' ev. unfold watchChanges. rewrite bind_get.
    destruct (watchingChanges s); [by intros [=] |].
    rewrite bind_modify. unfold try_catch.
    match goal with
    | |- context [bind ?a ?b ?c] => destruct (bind a b c) as [[[[]|e0| |] s1] e1]
    end; try by intros [=].
    rewrite bind_modify.
    destruct (lower_flag_run (set_watchingChanges false s1))
      as (s2 & e3 & Hlow & Hf2 & _ & _ & _ & _ & Hw2 & _).
    rewrite (bind_Ok _ _ _ _ _ _ Hlow). unfold after, throw; simpl.
    by intros [= _ <- _].
  - intros Hw. unfold watchChanges. by rewrite bind_get, Hw.
Qed.

End PollerEdges.

(** ** Path delta and the batch lookup *)

Lemma filter_all_in (old new : list string) :
  (∀ p, p ∈ old → p ∈ new) → filter (λ p, p ∉ new) old = [].
Proof.
  intros H. induction old as [|p old IH]; [done |].
  rewrite filter_cons, decide_False.
  - apply IH. intros q Hq. apply H. by apply elem_of_cons; right.
  - intros Hn. apply Hn, H. by apply elem_of_cons; left.
Qed.

(** X17: the path delta touches the disk only: the Metadata Cache, the Path
    Index, the Materialized Set and the side cache are as before, and no
    call goes to the remote; and when the old and the new paths are the
    same up to order and repetition it does nothing at all. *)
Theorem changePaths_touches_only_disk (old new : list string) (st : Recon) :
  (fileInfo (final (changePaths old new st)) = fileInfo st
   ∧ paths (final (changePaths old new st)) = paths st
   ∧ onLocalDrive (final (changePaths old new st)) = onLocalDrive st
   ∧ parentInfoCache (final (changePaths old new st)) = parentInfoCache st
   ∧ tick (final (changePaths old new st)) = tick st)
  ∧ ((∀ p, p ∈ old ↔ p ∈ new) → changePaths old new st = (Ok tt, st, [])).
Proof.
  split.
  - destruct (changePaths old new st) as [[r st'] ev] eqn:H.
    unfold final; simpl. split_and!.
    + eapply (preserves_changePaths fileInfo); [done | exact H].
    + eapply (preserves_changePaths paths); [done | exact H].
    + eapply (preserves_changePaths onLocalDrive); [done | exact H].
    + eapply (preserves_changePaths parentInfoCache); [done | exact H].
    + eapply (preserves_changePaths tick); [done | exact H].
  - intros H. unfold changePaths. case_bool_decide; [done |].
    rewrite !filter_all_in; [done | intros p; apply H..].
Qed.

(** ** The batch lookup *)

Section BatchMore.
Context (env : Env).

Lemma foldl_insert_cached (fi : gmap string File.info) (ids : list string)
    (res : gmap string (option File.info)) (k : string) :
  foldl (λ res i, <[i := fi !! i]> res) res ids !! k
  = if decide (k ∈ ids) then Some (fi !! k) else res !! k.
Proof.
  revert res. induction ids as [|i ids IH]; intros res; cbn [foldl].
  - rewrite decide_False; [done | apply not_elem_of_nil].
  - rewrite IH. destruct (decide (k ∈ ids)) as [Hin|Hnin].
    + rewrite decide_True; [done | by apply elem_of_cons; right].
    + destruct (decide (k = i)) as [->|Hne].
      * rewrite lookup_insert_eq. rewrite decide_True; [done | by apply elem_of_cons; left].
      * rewrite lookup_insert_ne by done.
        rewrite decide_False; [done |]. by intros [?|?]%elem_of_cons.
Qed.

Lemma filter_uncached_nil (fi : gmap string File.info) (ids : list string) :
  (∀ i, i ∈ ids → is_Some (fi !! i)) →
  filter (λ i, fi !! i = None) ids = [].
Proof.
  intros H. induction ids as [|i ids IH]; [done |].
  rewrite filter_cons, decide_False.
  - apply IH. intros j Hj. apply H. by apply elem_of_cons; right.
  - intros Hn. destruct (H i) as [x Hx]; [by apply elem_of_cons; left |].
    by rewrite Hn in Hx.
Qed.

(** X18: when every requested id is in the Metadata Cache the batch makes
    no call, changes nothing, and answers each requested id with its
    cached record and no other id. *)
Theorem getFileInfoBatch_all_cached (n : nat) (ids : list string) (st : Recon) :
  (∀ i, i ∈ ids → is_Some (fileInfo st !! i)) →
  ∃ res, getFileInfoBatch env n ids st = (Ok res, st, [])
    ∧ ∀ k, res !! k = if decide (k ∈ ids) then Some (fileInfo st !! k)
                      else None.
Proof.
  intros H. unfold getFileInfoBatch, getFileInfoBatch_with.
  rewrite bind_get, filter_uncached_nil by done.
  rewrite bool_decide_eq_true_2 by done.
  eexists. split; [reflexivity |]. intros k.
  rewrite foldl_insert_cached. by destruct (decide _).
Qed.

Lemma map_async_tags {A B} (tag : B → A) (f : A → R B) (l : list A) :
  (∀ x s y s' e, f x s = (Ok y, s', e) → tag y = x) →
  ∀ s ys s' e, map_async f l s = (Ok ys, s', e) → tag <$> ys = l.
Proof.
  intros Hf. induction l as [|x l IH]; intros s ys s' e; simpl.
  - by intros [= <- _ _].
  - intros H. apply bind_Ok_inv in H as (y & s1 & e1 & e2 & H1 & H & _).
    apply bind_Ok_inv in H as (ys' & s2 & e3 & e4 & H2 & H & _).
    injection H as <- _ _. simpl. f_equal; [by eapply Hf | by eapply IH].
Qed.

Lemma settled_keys (settled : list (string * option File.info * bool))
    (m : gmap string (option File.info)) (k : string) :
  is_Some (foldl (λ res (r : string * option File.info * bool),
                    if r.2 then <[r.1.1 := r.1.2]> res else res) m settled
           !! k) →
  is_Some (m !! k) ∨ k ∈ (λ r, r.1.1) <$> settled.
Proof.
  revert m. induction settled as [|r l IH]; intros m; cbn [foldl];
    [by left |].
  intros H. apply IH in H as [H|H].
  - destruct (r.2); [| by left].
    destruct (decide (k = r.1.1)) as [->|Hne].
    + right. rewrite fmap_cons. by apply elem_of_cons; left.
    + rewrite lookup_insert_ne in H by done. by left.
  - right. rewrite fmap_cons. by apply elem_of_cons; right.
Qed.

Lemma backfill_keys (fi : gmap string File.info) (ids : list string)
    (m : gmap string (option File.info)) (k : string) :
  let out := foldl (λ res i,
                      match res !! i, fi !! i with
                      | None, Some x => <[i := Some x]> res
                      | _, _ => res
                      end) m ids in
  (is_Some (out !! k) → is_Some (m !! k) ∨ k ∈ ids)
  ∧ (is_Some (m !! k) → is_Some (out !! k))
  ∧ (k ∈ ids → is_Some (fi !! k) → is_Some (out !! k)).
Proof.
  revert m. induction ids as [|i ids IH]; intros m; cbn [foldl]; cbv zeta.
  { split_and!; [by left | done |]. by intros Hk%elem_of_nil. }
  set (m1 := match m !! i, fi !! i with
             | None, Some x => <[i := Some x]> m
             | _, _ => m
             end).
  destruct (IH m1) as (H1 & H2 & H3).
  assert (Hup : is_Some (m !! k) → is_Some (m1 !! k)).
  { unfold m1. destruct (m !! i) eqn:Hmi; [done |].
    destruct (fi !! i); [| done]. intros Hk.
    destruct (decide (k = i)) as [->|Hne]; [by rewrite lookup_insert_eq |].
    by rewrite lookup_insert_ne. }
  assert (Hdown : is_Some (m1 !! k) → is_Some (m !! k) ∨ k = i).
  { unfold m1. destruct (m !! i) eqn:Hmi; [by left |].
    destruct (fi !! i); [| by left]. intros Hk.
    destruct (decide (k = i)) as [->|Hne]; [by right |].
    rewrite lookup_insert_ne in Hk by done. by left. }
  split_and!.
  - intros Hk. apply H1 in Hk as [Hk|Hk].
    + apply Hdown in Hk as [Hk| ->]; [by left |]. right. by apply elem_of_cons; left.
    + right. by apply elem_of_cons; right.
  - intros Hk. by apply H2, Hup.
  - intros Hk Hfi. apply elem_of_cons in Hk as [->|Hk]; [| by apply H3].
    apply H2. unfold m1. destruct (m !! i) eqn:Hmi; [by rewrite Hmi |].
    destruct Hfi as [x ->]. by rewrite lookup_insert_eq.
Qed.

(** X19: the batch never rejects; it answers for requested ids only, and
    for every requested id that is in the Metadata Cache when it ends. *)
Theorem getFileInfoBatch_answers (n : nat) (ids : list string) (st : Recon) :
  (∀ e, outcome (getFileInfoBatch env n ids st) ≠ Throw e)
  ∧ ∀ res, outcome (getFileInfoBatch env n ids st) = Ok res →
      (∀ k, is_Some (res !! k) → k ∈ ids)
      ∧ (∀ k, k ∈ ids →
              is_Some (fileInfo (final (getFileInfoBatch env n ids st)) !! k) →
              is_Some (res !! k)).
Proof.
  split; [intros e; apply getFileInfoBatch_never_throws |].
  intros res. destruct (getFileInfoBatch env n ids st) as [[r st'] ev] eqn:H.
  unfold outcome, final; simpl. intros ->. revert H.
  unfold getFileInfoBatch, getFileInfoBatch_with. rewrite bind_get.
  case_bool_decide as Hnil.
  - intros [= <- <- _]. split; intros k; rewrite foldl_insert_cached.
    + destruct (decide (k ∈ ids)); [done |]. rewrite lookup_empty. by intros [].
    + intros Hk _. by rewrite decide_True.
  - intros H. apply bind_Ok_inv in H as (settled & s1 & e1 & e2 & Hs & H & _).
    rewrite bind_get in H. injection H as <- <- _.
    apply (map_async_tags (λ r, r.1.1)) in Hs.
    2:{ intros fid s y s' e. unfold try_catch.
        destruct (bind _ _ s) as [[[y'|e'| |] s2] e3] eqn:Hb; try by intros [=].
        - apply bind_Ok_inv in Hb as (fi & ? & ? & ? & _ & Hb & _).
          injection Hb as <-. by intros [= <- _ _].
        - case_bool_decide; by intros [= <- _ _]. }
    split; intros k.
    + intros Hk. apply (backfill_keys (fileInfo s1) ids) in Hk as [Hk|Hk]; [| done].
      apply settled_keys in Hk as [Hk|Hk].
      * rewrite lookup_empty in Hk. by destruct Hk.
      * rewrite Hs in Hk. by apply list_elem_of_filter in Hk as [_ Hk].
    + intros Hk Hfi. by apply (backfill_keys (fileInfo s1) ids).
Qed.

End BatchMore.

(** ** The theorems at work *)


Lemma storeFileInfo_stores_witness :
  ∃ st' ev,
    storeFileInfo Scenario.env0 5 Scenario.fileA Scenario.st0
    = (Ok Scenario.fileA, st', ev)
    ∧ fileInfo st' !! "A" = Some Scenario.fileA.
Proof.
  eexists _, _. split; [vm_compute; reflexivity |].
  eapply (storeFileInfo_stores Scenario.env0 5 Scenario.fileA Scenario.fileA
            Scenario.st0).
  vm_compute; reflexivity.
Defined.

Lemma handleChange_cache_membership_witness :
  ∃ st' ev,
    handleChange Scenario.env0 5 Scenario.trashA Scenario.stA
    = (Ok true, st', ev)
    ∧ marked_gone Scenario.trashA
    ∧ fileInfo st' !! "A" = None.
Proof.
  assert (Hg : marked_gone Scenario.trashA).
  { right. eexists. split; [reflexivity |]. reflexivity. }
  eexists _, _. split; [vm_compute; reflexivity |]. split; [exact Hg |].
  refine (proj1 (handleChange_cache_membership Scenario.env0 5 Scenario.trashA
                   Scenario.stA _ true _ _) Hg).
  vm_compute; reflexivity.
Defined.

Lemma getFileInfo_null_witness :
  ∃ st' ev,
    getFileInfo Scenario.env0 5 "Z" Scenario.st0 = (Ok None, st', ev)
    ∧ fileInfo st' = fileInfo Scenario.st0.
Proof.
  eexists _, _. split; [vm_compute; reflexivity |].
  eapply (getFileInfo_null Scenario.env0 5 "Z" Scenario.st0).
  vm_compute; reflexivity.
Defined.

Lemma removeFileLocally_without_paths_witness :
  ∃ st1 ev,
    fileInfo Cases.stO !! "O" = Some Cases.orphan
    ∧ getPaths Scenario.env0 5 (Some Cases.orphan) Cases.stO = (Ok [], st1, ev)
    ∧ removeFileLocally Scenario.env0 5 "O" Cases.stO
      = (Ok false, with_fileInfo (delete "O") st1, ev).
Proof.
  eexists _, _. split; [vm_compute; reflexivity |].
  split; [vm_compute; reflexivity |].
  eapply (removeFileLocally_without_paths Scenario.env0 5 "O" Cases.orphan
            Cases.stO);
    vm_compute; reflexivity.
Defined.

Lemma downloadFile_folder_witness :
  ∃ st1 ev1,
    getPaths Scenario.env0 5 (Some Scenario.folderF) Scenario.st0
    = (Ok ["/d/F"], st1, ev1)
    ∧ downloadFile Scenario.env0 5 Scenario.folderF Scenario.st0
      = (Ok true, with_disk (disk_mkdirp "/d/F") st1,
         ev1 ++ [WatcherIgnore "/d/F"; Mkdirp "/d/F"]).
Proof.
  eexists _, _. split; [vm_compute; reflexivity |].
  eapply (downloadFile_folder Scenario.env0 5 Scenario.folderF Scenario.st0 _
            ["/d/F"]); [vm_compute; reflexivity.. | done].
Defined.

Lemma downloadFile_false_witness :
  downloadFile Scenario.env0 5 Scenario.rootInfo Scenario.st0
  = (Ok false, Scenario.st0, [])
  ∧ disk Scenario.st0 = disk Scenario.st0.
Proof.
  split; [vm_compute; reflexivity |].
  eapply (downloadFile_false Scenario.env0 5 Scenario.rootInfo Scenario.st0
            Scenario.st0 []).
  vm_compute; reflexivity.
Defined.

Lemma handleChange_unchanged_record_witness :
  ∃ st1 ev,
    storeFileInfo Scenario.env0 5 Scenario.fileA Scenario.stA
    = (Ok Scenario.fileA, st1, ev)
    ∧ handleChange Scenario.env0 5 Scenario.addA Scenario.stA
      = (Ok false, st1, ev).
Proof.
  eexists _, _. split; [vm_compute; reflexivity |].
  eapply (handleChange_unchanged_record Scenario.env0 5 Scenario.addA
            Scenario.fileA Scenario.fileA Scenario.fileA Scenario.stA);
    vm_compute; reflexivity.
Defined.

Lemma handleChange_removal_replayed_witness :
  ∃ st' ev,
    handleChange Scenario.env0 5 Scenario.trashA Scenario.stA
    = (Ok true, st', ev)
    ∧ handleChange Scenario.env0 5 Scenario.trashA st' = (Ok false, st', []).
Proof.
  eexists _, _. split; [vm_compute; reflexivity |].
  eapply (handleChange_removal_replayed Scenario.env0 5 Scenario.trashA
            Scenario.stA _ true).
  - right. eexists. split; [reflexivity |]. reflexivity.
  - vm_compute; reflexivity.
Defined.

Lemma handleChanges_drains_queue_witness :
  ∃ s' ev,
    closed Cases.syPending = false
    ∧ handleChanges Scenario.env1 5 Cases.syPending = (Ok tt, s', ev)
    ∧ applied_changes ev = pending_changes Cases.syPending
    ∧ pending_changes s' = []
    ∧ handlingRemoteChange s' = false
    ∧ (locally_idle Cases.syPending → lastChanges (recon s') = ∅).
Proof.
  eexists _, _. split; [reflexivity |]. split; [vm_compute; reflexivity |].
  eapply (handleChanges_drains_queue Scenario.env1 5 Cases.syPending).
  - reflexivity.
  - vm_compute; reflexivity.
Defined.

Lemma closed_object_is_inert_witness :
  closed Cases.syClosed = true
  ∧ applied_changes (trace (handleChanges Scenario.env1 5 Cases.syClosed)) = [].
Proof.
  split; [reflexivity |].
  eapply (closed_object_is_inert Scenario.env1 5 0 (Q2Qc 8000) Cases.syClosed).
  reflexivity.
Defined.

Lemma poll_delay_bounded_witness :
  ∃ s' ev,
    (minDelay ≤ initialDelay)%Qc
    ∧ watch_iteration Scenario.env1 5 initialDelay Scenario.sy0
      = (Ok minDelay, s', ev)
    ∧ (minDelay ≤ minDelay)%Qc.
Proof.
  eexists _, _. split; [done |]. split; [vm_compute; reflexivity |].
  eapply (poll_delay_bounded Scenario.env1 5 initialDelay minDelay Scenario.sy0).
  - done.
  - vm_compute; reflexivity.
Defined.

Lemma watchChanges_failure_resets_witness :
  ∃ s' ev,
    watchChanges Scenario.env0 5 3 Cases.syUnwatched
    = (Throw (HttpError 500), s', ev)
    ∧ watchingChanges s' = false.
Proof.
  eexists _, _. split; [vm_compute; reflexivity |].
  eapply (proj1 (watchChanges_failure_resets Scenario.env0 5 3
                   Cases.syUnwatched) (HttpError 500)).
  vm_compute; reflexivity.
Defined.

Lemma changePaths_touches_only_disk_witness :
  (∀ p, p ∈ ["/d/a"; "/d/b"] ↔ p ∈ ["/d/b"; "/d/a"; "/d/a"])
  ∧ changePaths ["/d/a"; "/d/b"] ["/d/b"; "/d/a"; "/d/a"] Scenario.st0
    = (Ok tt, Scenario.st0, []).
Proof.
  assert (H : ∀ p : string, p ∈ ["/d/a"; "/d/b"] ↔ p ∈ ["/d/b"; "/d/a"; "/d/a"]).
  { intros p. rewrite !elem_of_cons, !elem_of_nil. tauto. }
  split; [exact H |].
  exact (proj2 (changePaths_touches_only_disk _ _ Scenario.st0) H).
Defined.

Lemma getFileInfoBatch_all_cached_witness :
  (∀ i, i ∈ ["F"; "R"] → is_Some (fileInfo Scenario.st0 !! i))
  ∧ ∃ res, getFileInfoBatch Scenario.env0 5 ["F"; "R"] Scenario.st0
           = (Ok res, Scenario.st0, []).
Proof.
  assert (H : ∀ i : string, i ∈ ["F"; "R"] → is_Some (fileInfo Scenario.st0 !! i)).
  { intros i Hi. apply elem_of_cons in Hi as [->|Hi]; [by eexists |].
    apply elem_of_cons in Hi as [->|Hi]; [by eexists |].
    by apply elem_of_nil in Hi. }
  split; [exact H |].
  destruct (getFileInfoBatch_all_cached Scenario.env0 5 ["F"; "R"] Scenario.st0 H)
    as (res & Hres & _).
  by exists res.
Defined.

Lemma getFileInfoBatch_answers_witness :
  ∃ res,
    outcome (getFileInfoBatch Scenario.env2 5 ["X"; "Y"] Scenario.st0) = Ok res
    ∧ ∀ k, is_Some (res !! k) → k ∈ ["X"; "Y"].
Proof.
  eexists. split; [vm_compute; reflexivity |].
  eapply (proj2 (getFileInfoBatch_answers Scenario.env2 5 ["X"; "Y"]
                   Scenario.st0)).
  vm_compute; reflexivity.
Defined.

(** ** Paths made of proper segments *)

Lemma append_cons (x : ascii) (a b : string) :
  String x a +:+ b = String x (a +:+ b).
Proof. reflexivity. Qed.

Lemma append_nil_l (a : string) : EmptyString +:+ a = a.
Proof. reflexivity. Qed.

Lemma append_assoc (a b c : string) : (a +:+ b) +:+ c = a +:+ (b +:+ c).
Proof.
  induction a as [|x a IH]; [done |]. rewrite !append_cons. by f_equal.
Qed.

Lemma append_nil_r (a : string) : a +:+ EmptyString = a.
Proof.
  induction a as [|x a IH]; [done |]. rewrite append_cons. by f_equal.
Qed.

Lemma segment_inv (s : string) :
  segment s = true →
  plain s = true ∧ s ≠ EmptyString ∧ s ≠ "." ∧ s ≠ "..".
Proof.
  unfold segment. rewrite !andb_true_iff, !negb_true_iff.
  intros [[[H1 H2] H3] H4]. by repeat case_bool_decide.
Qed.

Lemma split_slash_plain (seg rest h : string) (t : list string) :
  plain seg = true →
  split_slash rest = h :: t →
  split_slash (seg +:+ rest) = (seg +:+ h) :: t.
Proof.
  intros Hp Hrest. induction seg as [|c seg IH]; [done |].
  simpl in Hp. apply andb_true_iff in Hp as [Hc Hp].
  rewrite append_cons. cbn [split_slash].
  apply negb_true_iff in Hc. by rewrite Hc, (IH Hp).
Qed.

Lemma split_slash_abs (segs : list string) :
  Forall (λ x, segment x = true) segs →
  split_slash (abs_path segs) = EmptyString :: segs.
Proof.
  induction 1 as [|seg segs Hseg _ IH]; [done |].
  apply segment_inv in Hseg as (Hp & _).
  cbn [abs_path]. change ("/" +:+ seg +:+ abs_path segs)
    with (String "/"%char (seg +:+ abs_path segs)).
  cbn [split_slash]. change (is_slash "/") with true. cbv iota.
  by rewrite (split_slash_plain _ _ _ _ Hp IH), append_nil_r.
Qed.

Lemma normalize_segments_proper (above : bool) (segs : list string) :
  Forall (λ x, segment x = true) segs →
  ∀ res, normalize_segments above res segs = reverse res ++ segs.
Proof.
  induction 1 as [|seg segs Hseg _ IH]; intros res; simpl.
  - by rewrite app_nil_r.
  - apply segment_inv in Hseg as (_ & H1 & H2 & H3).
    rewrite !bool_decide_eq_false_2 by done. simpl.
    by rewrite IH, reverse_cons, <- (assoc_L (++)).
Qed.

Lemma join_slash_abs (segs : list string) :
  segs ≠ [] → "/" +:+ join_slash segs = abs_path segs.
Proof.
  induction segs as [|seg segs IH]; [done |]. intros _.
  destruct segs as [|seg' segs].
  - simpl. by rewrite append_nil_r.
  - change (join_slash (seg :: seg' :: segs))
      with (seg +:+ "/" +:+ join_slash (seg' :: segs)).
    change (abs_path (seg :: seg' :: segs))
      with ("/" +:+ seg +:+ abs_path (seg' :: segs)).
    by rewrite <- IH.
Qed.

Lemma abs_path_app (a b : list string) :
  abs_path (a ++ b) = abs_path a +:+ abs_path b.
Proof.
  induction a as [|seg a IH]; [done |].
  cbn [abs_path app]. by rewrite IH, !append_assoc.
Qed.

Lemma ends_with_slash_cons (c : ascii) (s : string) :
  s ≠ EmptyString → ends_with_slash (String c s) = ends_with_slash s.
Proof. by destruct s. Qed.

Lemma ends_with_slash_app (a b : string) :
  b ≠ EmptyString → ends_with_slash (a +:+ b) = ends_with_slash b.
Proof.
  intros Hb. induction a as [|c a IH]; [done |].
  rewrite append_cons, ends_with_slash_cons; [done |].
  by destruct a, b.
Qed.

Lemma ends_with_slash_plain (s : string) :
  plain s = true → ends_with_slash s = false.
Proof.
  induction s as [|c s IH]; [done |]. simpl.
  intros [Hc Hp]%andb_true_iff. apply negb_true_iff in Hc.
  destruct s; [done | by apply IH].
Qed.

Lemma abs_path_nonempty (segs : list string) :
  segs ≠ [] → abs_path segs ≠ EmptyString.
Proof. by destruct segs. Qed.

Lemma ends_with_slash_abs (segs : list string) :
  Forall (λ x, segment x = true) segs →
  ends_with_slash (abs_path segs) = false.
Proof.
  induction 1 as [|seg segs Hseg _ IH]; [done |].
  apply segment_inv in Hseg as (Hp & Hne & _).
  cbn [abs_path]. destruct segs as [|seg' segs].
  - cbn [abs_path]. rewrite append_nil_r.
    change ("/" +:+ seg) with (String "/"%char seg).
    rewrite ends_with_slash_cons by done. by apply ends_with_slash_plain.
  - rewrite <- append_assoc, ends_with_slash_app; [done |].
    by apply abs_path_nonempty.
Qed.

(** A clean path is its own normal form. *)
Lemma path_normalize_abs (segs : list string) :
  segs ≠ [] → Forall (λ x, segment x = true) segs →
  path_normalize (abs_path segs) = abs_path segs.
Proof.
  intros Hne Hsegs. unfold path_normalize.
  rewrite bool_decide_eq_false_2 by (by apply abs_path_nonempty).
  rewrite ends_with_slash_abs, split_slash_abs by done.
  assert (starts_with_slash (abs_path segs) = true) as ->
    by (destruct segs; [done | reflexivity]).
  cbn [negb normalize_segments].
  rewrite (bool_decide_eq_true_2 (EmptyString = EmptyString)) by done.
  cbn [orb]. rewrite normalize_segments_proper by done.
  rewrite app_nil_l, append_nil_r, join_slash_abs by done.
  rewrite bool_decide_eq_false_2; [done |].
  destruct segs as [|seg segs]; [done |].
  apply Forall_cons in Hsegs as [Hseg _].
  apply segment_inv in Hseg as (_ & H1 & _).
  destruct segs; simpl; by destruct seg.
Qed.

(** Joining a proper segment to a clean path only appends it. *)
Lemma path_join_clean (p name : string) :
  clean p → segment name = true →
  path_join p name = p +:+ "/" +:+ name ∧ clean (path_join p name).
Proof.
  intros (segs & Hne & Hsegs & ->) Hname.
  pose proof (segment_inv _ Hname) as (_ & Hn & _).
  assert (abs_path segs +:+ "/" +:+ name = abs_path (segs ++ [name])) as Heq.
  { rewrite abs_path_app. simpl. by rewrite append_nil_r. }
  unfold path_join.
  rewrite (bool_decide_eq_false_2 (abs_path segs = _))
    by (by apply abs_path_nonempty).
  rewrite bool_decide_eq_false_2 by done.
  rewrite Heq, path_normalize_abs.
  - split; [done |]. exists (segs ++ [name]). split; [by destruct segs |].
    split; [| done]. apply Forall_app. by split; [| constructor].
  - by destruct segs.
  - apply Forall_app. by split; [| constructor].
Qed.

Lemma list_ascii_app (a b : string) :
  String.list_ascii_of_string (a +:+ b)
  = String.list_ascii_of_string a ++ String.list_ascii_of_string b.
Proof. induction a as [|c a IH]; [done |]. simpl. by rewrite IH. Qed.

Lemma drop_while_all {A} (f : A → bool) (l1 l2 : list A) :
  Forall (λ x, f x = true) l1 → drop_while f (l1 ++ l2) = drop_while f l2.
Proof. induction 1 as [|x l Hx _ IH]; [done |]. simpl. by rewrite Hx. Qed.

Lemma plain_chars (s : string) :
  plain s = true →
  Forall (λ c, negb (is_slash c) = true) (String.list_ascii_of_string s).
Proof.
  induction s as [|c s IH]; [constructor |]. simpl.
  intros [Hc Hp]%andb_true_iff. constructor; [done | by apply IH].
Qed.

(** The directory of a proper segment joined to a clean path is that
    path. *)
Lemma dirname_join (p name : string) :
  clean p → segment name = true →
  path_dirname (path_join p name) = p.
Proof.
  intros Hp Hname. destruct (path_join_clean p name Hp Hname) as [-> _].
  destruct Hp as (segs & Hne & Hsegs & ->).
  apply segment_inv in Hname as (Hplain & Hn & _).
  destruct segs as [|seg segs]; [done |]. clear Hne.
  cbn [abs_path]. unfold path_dirname.
  change (("/" +:+ seg +:+ abs_path segs) +:+ "/" +:+ name)
    with (String "/"%char ((seg +:+ abs_path segs) +:+ "/" +:+ name)).
  cbn [String.list_ascii_of_string].
  rewrite list_ascii_app. change ("/" +:+ name) with (String "/"%char name).
  cbn [String.list_ascii_of_string]. rewrite reverse_app, reverse_cons.
  rewrite <- !(assoc_L (++)).
  set (ns := String.list_ascii_of_string name).
  set (cs := String.list_ascii_of_string (seg +:+ abs_path segs)).
  assert (Hns : Forall (λ c, negb (is_slash c) = true) (reverse ns)).
  { apply Forall_reverse. by apply plain_chars. }
  assert (drop_while is_slash (reverse ns ++ ["/"%char] ++ reverse cs)
          = reverse ns ++ ["/"%char] ++ reverse cs) as ->.
  { destruct (reverse ns) as [|c l] eqn:Hr.
    - apply (f_equal reverse) in Hr. rewrite reverse_involutive in Hr.
      unfold ns in Hr. by destruct name.
    - apply Forall_cons in Hns as [Hc _]. simpl.
      apply negb_true_iff in Hc. by rewrite Hc. }
  rewrite drop_while_all by done. cbn [app drop_while].
  change (negb (is_slash "/")) with false. cbv iota.
  change (is_slash "/") with true. cbn [andb].
  rewrite bool_decide_eq_false_2.
  - rewrite reverse_involutive. unfold cs.
    change ("/"%char :: String.list_ascii_of_string (seg +:+ abs_path segs))
      with (String.list_ascii_of_string (String "/"%char (seg +:+ abs_path segs))).
    by rewrite String.string_of_list_ascii_of_string.
  - intros Hr. apply (f_equal reverse) in Hr.
    rewrite reverse_involutive in Hr. unfold cs in Hr.
    apply Forall_cons in Hsegs as [Hseg _].
    apply segment_inv in Hseg as (_ & H1 & _). by destruct seg.
Qed.

(** ** Lookups by path *)

Section LookupByPath.
Context (env : Env).

(** X20: what [storeFileInfo] has stored is found again by path: each of the
    record's paths leads [fileInfoFromPath] to the record, and when such a
    path is a normalised absolute one, [getParent] of any proper segment
    joined to it is the record's id. *)
Theorem lookup_by_path_after_store (n : nat) (info r : File.info)
    (st st' : Recon) (ev : list Effect) :
  storeFileInfo env n info st = (Ok r, st', ev) →
  ∃ ps st1, getPaths env n (Some info) st = (Ok ps, st1, ev)
    ∧ ∀ p, p ∈ ps →
        fileInfoFromPath st' p = Some info
        ∧ ∀ name, segment name = true → clean p →
            getParent st' (path_join p name) = Some (File.id info).
Proof.
  intros H. apply storeFileInfo_run in H as (ps & st1 & Hw & _ & ->).
  exists ps, st1. split; [done |]. intros p Hp.
  assert (Hfi : fileInfo
                  (with_fileInfo (<[File.id info := info]>)
                     (with_parentInfoCache
                        (λ c, match File.parents info with
                              | Some qs => foldl (λ c p, delete p c) c qs
                              | None => c
                              end)
                        (with_paths
                           (λ m, foldl (λ m p, <[p := File.id info]> m) m ps)
                           st1))) !! File.id info = Some info)
    by apply lookup_insert_eq.
  match type of Hfi with fileInfo ?s !! _ = _ => set (st' := s) in * end.
  assert (paths st' !! p = Some (File.id info)) as Hidx.
  { unfold st'; simpl. by rewrite foldl_insert_lookup, decide_True. }
  split.
  - unfold fileInfoFromPath. by rewrite Hidx.
  - intros name Hn Hclean. unfold getParent. by rewrite dirname_join.
Qed.

End LookupByPath.

(** ** Where the walk leads *)

Lemma prefix_app_r (s t u : string) :
  String.prefix s t = true → String.prefix s (t +:+ u) = true.
Proof.
  revert t. induction s as [|c s IH]; intros t.
  - intros _. by destruct (t +:+ u).
  - destruct t as [|c' t]; simpl; [done|].
    destruct (ascii_dec c c'); [apply IH | done].
Qed.

Lemma prefix_app_same (s t u : string) :
  String.prefix t u = true → String.prefix (s +:+ t) (s +:+ u) = true.
Proof.
  intros H. induction s as [|c s IH]; simpl; [done|].
  by destruct (ascii_dec c c).
Qed.

Lemma under_refl (f : string) : under f f = true.
Proof. unfold under. by rewrite bool_decide_eq_true_2. Qed.

Lemma under_append (f pp name : string) :
  under f pp = true → under f (pp +:+ "/" +:+ name) = true.
Proof.
  unfold under. intros H.
  apply orb_true_iff in H as [H|H]; apply orb_true_iff; right.
  - apply bool_decide_eq_true in H as ->.
    apply prefix_app_same. simpl. by destruct (_ +:+ name).
  - by apply prefix_app_r.
Qed.

Lemma lands_in_root (root : string) : clean root → lands_in root root.
Proof. intros H. split; [done | apply under_refl]. Qed.

Lemma lands_in_join (root pp name : string) :
  lands_in root pp → segment name = true → lands_in root (path_join pp name).
Proof.
  intros [Hc Hu] Hn.
  destruct (path_join_clean pp name Hc Hn) as [Heq Hclean].
  split; [done |]. rewrite Heq. by apply under_append.
Qed.

Section Yields.
Context {St Ev : Type} (I : St → Prop).

Lemma yields_ret {A} (a : A) (Q : A → Prop) :
  Q a → yields (Ev:=Ev) I (ret a) Q.
Proof. intros Ha s r s' ev Hs [= <- <- _]. split; [done |]. by intros ? [= <-]. Qed.

Lemma yields_throw {A} e (Q : A → Prop) : yields (Ev:=Ev) I (throw e) Q.
Proof. intros s r s' ev Hs [= <- <- _]. by split. Qed.

Lemma yields_emit (e : Ev) (Q : unit → Prop) : Q tt → yields I (emit e) Q.
Proof. intros Hq s r s' ev Hs [= <- <- _]. split; [done |]. by intros [] _. Qed.

Lemma yields_modify (g : St → St) (Q : unit → Prop) :
  (∀ s, I s → I (g s)) → Q tt → yields (Ev:=Ev) I (modify g) Q.
Proof.
  intros Hg Hq s r s' ev Hs [= <- <- _]. split; [by apply Hg |]. by intros [] _.
Qed.

Lemma yields_weaken {A} (m : M St Ev A) (Q Q' : A → Prop) :
  (∀ a, Q a → Q' a) → yields I m Q → yields I m Q'.
Proof.
  intros HQ Hm s r s' ev Hs H. destruct (Hm _ _ _ _ Hs H) as [Hs' Hr].
  split; [done |]. intros a Ha. by apply HQ, Hr.
Qed.

Lemma yields_bind {A B} (m : M St Ev A) (f : A → M St Ev B)
    (Q : A → Prop) (Q' : B → Prop) :
  yields I m Q → (∀ a, Q a → yields I (f a) Q') → yields I (bind m f) Q'.
Proof.
  intros Hm Hf s r s' ev Hs H. apply bind_inv in H
    as [(a & s1 & e1 & e2 & H1 & H2 & ->) | [(r' & H1 & _) Hr]].
  - destruct (Hm _ _ _ _ Hs H1) as [Hs1 Ha].
    by apply (Hf a (Ha a eq_refl) _ _ _ _ Hs1 H2).
  - destruct (Hm _ _ _ _ Hs H1) as [Hs1 _]. split; [done |].
    intros b ->. by destruct Hr.
Qed.

Lemma yields_bind_get {B} (f : St → M St Ev B) (Q : B → Prop) :
  (∀ s0, I s0 → yields I (f s0) Q) → yields I (bind get f) Q.
Proof. intros Hf s r s' ev Hs. rewrite bind_get. by apply Hf. Qed.

Lemma yields_try_catch {A} (m : M St Ev A) h (Q : A → Prop) :
  yields I m Q → (∀ e, yields I (h e) Q) → yields I (try_catch m h) Q.
Proof.
  intros Hm Hh s r s' ev Hs. unfold try_catch.
  destruct (m s) as [[[a|e| |] s1] e1] eqn:H1.
  - intros [= <- <- _]. by eapply Hm.
  - destruct (h e s1) as [[r2 s2] e2] eqn:H2. intros [= <- <- _].
    destruct (Hm _ _ _ _ Hs H1) as [Hs1 _]. by eapply Hh.
  - intros [= <- <- _]. by eapply Hm.
  - intros [= <- <- _]. by eapply Hm.
Qed.

Lemma yields_map_async {A B} (f : A → M St Ev B) l (Q : B → Prop) :
  (∀ x, yields I (f x) Q) → yields I (map_async f l) (Forall Q).
Proof.
  intros Hf. induction l as [|x l IH]; simpl.
  - by apply yields_ret.
  - eapply yields_bind; [apply Hf | intros y Hy].
    eapply yields_bind; [apply IH | intros ys Hys].
    apply yields_ret. by constructor.
Qed.

Lemma yields_flat_mapM {A B} (f : A → M St Ev (list B)) l (Q : B → Prop) :
  (∀ x, x ∈ l → yields I (f x) (Forall Q)) →
  yields I (flat_mapM f l) (Forall Q).
Proof.
  induction l as [|x l IH]; intros Hf; simpl.
  - by apply yields_ret.
  - eapply yields_bind; [apply Hf; by left | intros ys Hys].
    eapply yields_bind; [apply IH; intros; apply Hf; by right | intros zs Hzs].
    apply yields_ret. by apply Forall_app.
Qed.

End Yields.

Section UnderFolder.
Context (env : Env) (root : string).
Context (Hremote : proper_remote env).

Lemma tidy_tick st : tidy root st → tidy root (next_tick st).
Proof. by intros (? & ? & ? & ?). Qed.

Lemma tidy_paths f st : tidy root st → tidy root (with_paths f st).
Proof. by intros (? & ? & ? & ?). Qed.

Lemma tidy_cache_insert k i st :
  proper i → tidy root st → tidy root (with_parentInfoCache (<[k := i]>) st).
Proof.
  intros Hi (? & ? & ? & ?). repeat split; try done.
  by apply map_Forall_insert_2.
Qed.

Lemma tidy_cache_delete (ps : list string) st :
  tidy root st →
  tidy root (with_parentInfoCache (λ c, foldl (λ c p, delete p c) c ps) st).
Proof.
  intros (? & ? & ? & Hc). repeat split; try done. simpl.
  revert Hc. generalize (parentInfoCache st).
  induction ps as [|p ps IH]; intros c Hc; simpl; [done |].
  apply IH. by apply map_Forall_delete.
Qed.

Lemma tidy_store i st :
  proper i → tidy root st → tidy root (with_fileInfo (<[File.id i := i]>) st).
Proof.
  intros Hi (? & ? & ? & ?). repeat split; try done.
  by apply map_Forall_insert_2.
Qed.

Lemma tidy_cache_batch (batch : gmap string (option File.info)) st :
  map_Forall (λ _ o, ∀ i, o = Some i → proper i) batch →
  tidy root st → tidy root (with_parentInfoCache (cache_batch batch) st).
Proof.
  intros Hb (? & ? & ? & Hc). repeat split; try done. simpl.
  intros k i Hk. unfold cache_batch in Hk.
  apply lookup_union_Some_raw in Hk as [Hk | [_ Hk]]; [| by eapply Hc].
  rewrite lookup_omap in Hk.
  destruct (batch !! k) as [o|] eqn:Ho; [| done]. simpl in Hk.
  by eapply Hb.
Qed.

Lemma yields_drive_files_get fid :
  yields (tidy root) (drive_files_get env fid) proper.
Proof.
  intros st r st' ev Hst. unfold drive_files_get. intros [= <- <- _].
  split; [by apply tidy_tick |]. intros i Hi.
  destruct (files_get env (tick st) fid) as [i'|e] eqn:Hg; [| done].
  injection Hi as ->. by eapply Hremote.
Qed.

Lemma yields_tryTwice {A} (fn : R A) (Q : A → Prop) :
  yields (tidy root) fn Q → yields (tidy root) (tryTwice fn) Q.
Proof.
  intros Hfn. unfold tryTwice. apply yields_try_catch; [done | intros e].
  case_bool_decide; [| apply yields_throw].
  eapply yields_bind; [| intros _ _; exact Hfn].
  by apply (yields_emit _ _ (λ _, True)).
Qed.

Section Walk.
Context (walk : option File.info → R (list string)).
Context (Hwalk : ∀ x, (∀ i, x = Some i → proper i) →
                      yields (tidy root) (walk x) (Forall (lands_in root))).

Lemma yields_storeFileInfo_with info :
  proper info → yields (tidy root) (storeFileInfo_with walk info) proper.
Proof.
  intros Hi. unfold storeFileInfo_with, computePaths_with.
  eapply yields_bind with (Q := λ _, True).
  { eapply yields_bind; [apply Hwalk; by intros ? [= <-] | intros ps _].
    apply yields_modify; [apply tidy_paths | done]. }
  intros _ _. eapply yields_bind with (Q := λ _, True).
  { apply yields_modify; [| done]. intros st Hst.
    destruct (File.parents info); [by apply tidy_cache_delete |].
    by destruct Hst as (? & ? & ? & ?). }
  intros _ _. eapply yields_bind with (Q := λ _, True).
  { apply yields_modify; [| done]. intros st. by apply tidy_store. }
  intros _ _. by apply yields_ret.
Qed.

Lemma yields_getFileInfo_with fid :
  yields (tidy root) (getFileInfo_with env walk fid)
    (λ o, ∀ i, o = Some i → proper i).
Proof.
  unfold getFileInfo_with. apply yields_bind_get. intros st Hst.
  destruct (fileInfo st !! fid) as [i|] eqn:Hi.
  { apply yields_ret. intros ? [= <-].
    destruct Hst as (_ & _ & Hf & _). by eapply Hf. }
  eapply yields_bind with (Q := λ o, ∀ i, o = Some i → proper i).
  { apply yields_try_catch.
    - eapply yields_bind; [apply yields_tryTwice, yields_drive_files_get |].
      intros i Hp. apply yields_ret. by intros ? [= <-].
    - intros e. case_bool_decide; [by apply yields_ret | apply yields_throw]. }
  intros [i|] Hp; [| by apply yields_ret].
  eapply yields_bind; [apply yields_storeFileInfo_with; by apply Hp |].
  intros r Hr. apply yields_ret. by intros ? [= <-].
Qed.

Lemma yields_getFileInfoBatch_with ids :
  yields (tidy root) (getFileInfoBatch_with env walk ids)
    (map_Forall (λ _ o, ∀ i, o = Some i → proper i)).
Proof.
  unfold getFileInfoBatch_with. apply yields_bind_get. intros st Hst.
  case_bool_decide as Hids.
  { clear Hids. apply yields_ret.
    assert (H0 : map_Forall (λ _ o, ∀ i : File.info, o = Some i → proper i)
                   (∅ : gmap string (option File.info)))
      by apply map_Forall_empty.
    revert H0. generalize (∅ : gmap string (option File.info)).
    induction ids as [|k ids IH]; intros res Hres; simpl; [done |].
    apply IH. apply map_Forall_insert_2; [| done].
    intros i Hi. destruct Hst as (_ & _ & Hf & _). by eapply Hf. }
  clear Hids.
  eapply yields_bind
    with (Q := Forall (λ r : string * option File.info * bool,
                         ∀ i, r.1.2 = Some i → proper i)).
  { apply yields_map_async. intros fid. apply yields_try_catch.
    - eapply yields_bind; [apply yields_getFileInfo_with | intros o Ho].
      by apply yields_ret.
    - intros e. case_bool_decide; by apply yields_ret. }
  intros settled Hsettled. apply yields_bind_get. intros st' Hst'.
  apply yields_ret.
  assert (Hres : map_Forall (λ _ o, ∀ i : File.info, o = Some i → proper i)
                   (foldl (λ res (r : string * option File.info * bool),
                             if r.2 then <[r.1.1 := r.1.2]> res else res)
                          (∅ : gmap string (option File.info)) settled)).
  { assert (H0 : map_Forall (λ _ o, ∀ i : File.info, o = Some i → proper i)
                   (∅ : gmap string (option File.info)))
      by apply map_Forall_empty.
    revert H0. generalize (∅ : gmap string (option File.info)).
    induction Hsettled as [|r rs Hr Hrs IH]; intros res Hres; simpl; [done |].
    apply IH. destruct r.2; [| done]. by apply map_Forall_insert_2. }
  revert Hres.
  generalize (foldl (λ res (r : string * option File.info * bool),
                       if r.2 then <[r.1.1 := r.1.2]> res else res)
                    (∅ : gmap string (option File.info)) settled).
  induction ids as [|k ids IH]; intros res Hres; simpl; [done |].
  apply IH. destruct (res !! k); [done |].
  destruct (fileInfo st' !! k) as [fi|] eqn:Hfi; [| done].
  apply map_Forall_insert_2; [| done]. intros i [= <-].
  destruct Hst' as (_ & _ & Hf & _). by eapply Hf.
Qed.

Lemma yields_parent_paths name parent :
  segment name = true →
  yields (tidy root) (parent_paths env walk name parent)
    (Forall (lands_in root)).
Proof.
  intros Hn. unfold parent_paths. apply yields_bind_get. intros st Hst.
  eapply yields_bind with (Q := λ o, ∀ i, o = Some i → proper i).
  { destruct (parentInfoCache st !! parent) as [pi|] eqn:Hpc.
    { apply yields_ret. intros ? [= <-].
      destruct Hst as (_ & _ & _ & Hc). by eapply Hc. }
    destruct (fileInfo st !! parent) as [pi|] eqn:Hfi.
    { assert (proper pi) by (destruct Hst as (_ & _ & Hf & _); by eapply Hf).
      eapply yields_bind with (Q := λ _, True).
      - apply yields_modify; [| done]. intros s0. by apply tidy_cache_insert.
      - intros _ _. apply yields_ret. by intros ? [= <-]. }
    eapply yields_bind; [apply yields_getFileInfo_with | intros [pi|] Hp].
    - eapply yields_bind with (Q := λ _, True).
      + apply yields_modify; [| done]. intros s0.
        apply tidy_cache_insert. by apply Hp.
      + intros _ _. apply yields_ret. intros ? [= <-]. by apply Hp.
    - by apply yields_ret. }
  intros o Ho. eapply yields_bind; [by apply Hwalk | intros pps Hpps].
  apply yields_ret. apply Forall_fmap. eapply Forall_impl; [exact Hpps |].
  intros pp Hpp. by apply lands_in_join.
Qed.

Lemma yields_getPaths_body x :
  (∀ i, x = Some i → proper i) →
  yields (tidy root) (getPaths_body env walk x) (Forall (lands_in root)).
Proof.
  intros Hx. unfold getPaths_body.
  destruct x as [info|]; [| by apply yields_ret].
  apply yields_bind_get. intros st Hst. case_bool_decide.
  { apply yields_ret. constructor; [| done].
    destruct Hst as (-> & Hc & _). by apply lands_in_root. }
  destruct (File.parents info) as [parents|]; [| by apply yields_ret].
  eapply yields_bind with (Q := λ _, True).
  { case_bool_decide; [by apply yields_ret |].
    eapply yields_bind; [apply yields_getFileInfoBatch_with | intros b Hb].
    apply yields_modify; [| done]. intros s0. by apply tidy_cache_batch. }
  intros _ _. apply yields_flat_mapM. intros parent _.
  apply yields_parent_paths. by apply Hx.
Qed.

End Walk.

Lemma yields_getPaths n : ∀ x,
  (∀ i, x = Some i → proper i) →
  yields (tidy root) (getPaths env n x) (Forall (lands_in root)).
Proof.
  induction n as [|n IH]; intros x Hx; simpl.
  - intros s r s' ev Hs [= <- <- _]; by split.
  - by apply yields_getPaths_body.
Qed.

End UnderFolder.

(** X2: when the mirrored folder is a normalised absolute path, every
    cached record has a proper segment for a name and the remote answers
    with such records only, every path the walk returns for such a record
    is a normalised path that is the mirrored folder or lies below it, and
    the caches are left holding proper records, however the walk ends. *)
Theorem getPaths_stays_in_folder (env : Env) (n : nat) (x : option File.info)
    (st : Recon) :
  proper_remote env →
  tidy (folder st) st →
  (∀ i, x = Some i → proper i) →
  tidy (folder st) (final (getPaths env n x st))
  ∧ ∀ ps, outcome (getPaths env n x st) = Ok ps →
          all_under (folder st) ps ∧ Forall clean ps.
Proof.
  intros Hremote Hst Hx.
  destruct (getPaths env n x st) as [[r st'] ev] eqn:H.
  destruct (yields_getPaths env (folder st) Hremote n x Hx _ _ _ _ Hst H)
    as [Hst' Hps].
  split; [done |]. unfold outcome; simpl. intros ps ->.
  specialize (Hps ps eq_refl). split.
  - eapply Forall_impl; [exact Hps |]. by intros p [_ Hp].
  - eapply Forall_impl; [exact Hps |]. by intros p [Hp _].
Qed.

(** ** Lifting the reconciler and the poller into the object *)

Lemma liftP_inv {A} (m : P A) s r s' ev :
  liftP m s = (r, s', ev) → ∃ ev0, m s = (r, s', ev0) ∧ ev = Ev <$> ev0.
Proof.
  unfold liftP. destruct (m s) as [[r0 s0] ev0]. intros [= <- <- <-].
  by exists ev0.
Qed.

Lemma liftP_run {A} (m : P A) s r s' ev0 :
  m s = (r, s', ev0) → liftP m s = (r, s', Ev <$> ev0).
Proof. unfold liftP. by intros ->. Qed.

Lemma liftR_inv {A} (m : R A) s r s' ev :
  liftR m s = (r, s', ev) →
  ∃ rc ev0, m (recon s) = (r, rc, ev0)
    ∧ s' = with_recon (λ _, rc) s ∧ ev = Ev <$> (Io <$> ev0).
Proof.
  unfold liftR, liftP, lift. destruct (m (recon s)) as [[r0 rc] ev0].
  intros [= <- <- <-]. by exists rc, ev0.
Qed.

Lemma liftR_run {A} (m : R A) s r rc ev0 :
  m (recon s) = (r, rc, ev0) →
  liftR m s = (r, with_recon (λ _, rc) s, Ev <$> (Io <$> ev0)).
Proof. unfold liftR, liftP, lift. by intros ->. Qed.

Lemma preserves_lift {X A} (proj : Sync → X) (m : R A) :
  (∀ f s, proj (with_recon f s) = proj s) → preserves proj (lift m).
Proof.
  intros Hp s r s' ev. unfold lift. destruct (m (recon s)) as [[r0 rc] ev0].
  intros [= _ <- _]. apply Hp.
Qed.

Lemma preserves_liftP {X A} (proj : Sync → X) (m : P A) :
  preserves proj m → preserves proj (liftP m).
Proof.
  intros Hm s r s' ev H. apply liftP_inv in H as (ev0 & H & _). by eapply Hm.
Qed.

Lemma preserves_liftR {X A} (proj : Sync → X) (m : R A) :
  (∀ f s, proj (with_recon f s) = proj s) → preserves proj (liftR m).
Proof. intros Hp. by apply preserves_liftP, preserves_lift. Qed.

Lemma preserves_liftR_recon {X A} (proj : Recon → X) (m : R A) :
  preserves proj m → preserves (λ s, proj (recon s)) (liftR m).
Proof.
  intros Hm s r s' ev H. apply liftR_inv in H as (rc & ev0 & H & -> & _).
  simpl. by eapply Hm.
Qed.

Lemma keeps_liftR_recon {A} (rel : Recon → Recon → Prop) (m : R A) :
  keeps rel m → keeps (λ s s', rel (recon s) (recon s')) (liftR m).
Proof.
  intros Hm s r s' ev H. apply liftR_inv in H as (rc & ev0 & H & -> & _).
  simpl. by eapply Hm.
Qed.

Lemma remote_removals_app e1 e2 :
  remote_removals (e1 ++ e2) = remote_removals e1 ++ remote_removals e2.
Proof. apply filter_app. Qed.

Lemma remote_removals_Ev (l : list Event) : remote_removals (Ev <$> l) = [].
Proof.
  induction l as [|e l IH]; [done |]. rewrite fmap_cons.
  unfold remote_removals. rewrite filter_cons_False; [exact IH | done].
Qed.

(** ** Local removals *)

Section LocalRemoval.
Context (env : Env) (drive : Drive) (permanentlyDeleteSetting : bool).

(** The remote call a local removal ends with. *)
Lemma remote_removal_run (id : string) s r s' ev :
  (if permanentlyDeleteSetting then permanentlyDelete drive id
   else moveToTrash drive id) s = (r, s', ev) →
  fileInfo (recon s') = fileInfo (recon s)
  ∧ Forall (λ a, a = if permanentlyDeleteSetting then FilesDelete id
                     else FilesTrash id) (remote_removals ev)
  ∧ (resolved r → remote_removals ev ≠ []).
Proof.
  destruct permanentlyDeleteSetting;
    unfold permanentlyDelete, moveToTrash, tryTwice_L, try_catch, bind,
      drive_files_delete, drive_files_trash, liftR, liftP, lift, delay, emit,
      logChange, modify, ret, throw; simpl.
  - destruct (files_delete drive (tick (recon s)) id) as [[]|e]; simpl.
    + intros [= <- <- <-]. simpl. split; [done |]. split; [| done].
      by repeat constructor.
    + case_bool_decide; simpl.
      * destruct (files_delete drive (S (tick (recon s))) id) as [[]|e'];
          simpl; intros [= <- <- <-]; simpl;
          (split; [done |]); (split; [by repeat constructor | done]).
      * intros [= <- <- <-]. simpl. split; [done |].
        split; [by repeat constructor | done].
  - destruct (files_trash drive (tick (recon s)) id) as [[]|e]; simpl.
    + intros [= <- <- <-]. simpl. split; [done |]. split; [| done].
      by repeat constructor.
    + case_bool_decide; simpl.
      * destruct (files_trash drive (S (tick (recon s))) id) as [[]|e'];
          simpl; intros [= <- <- <-]; simpl;
          (split; [done |]); (split; [by repeat constructor | done]).
      * intros [= <- <- <-]. simpl. split; [done |].
        split; [by repeat constructor | done].
Qed.

(** What comes before the remote call: the local copies go, and the
    record leaves the Metadata Cache. *)
Lemma local_part_run (n : nat) (src id : string) s r s' ev :
  (match fileInfo (recon s) !! id with
   | Some _ =>
       let* r := liftR (removeFileLocally env n id) in
       if (r : bool) then liftP (save env) else ret tt
   | None => modify (with_recon (with_paths (delete src)))
   end) s = (r, s', ev) →
  remote_removals ev = []
  ∧ (resolved r → fileInfo (recon s') !! id = None).
Proof.
  destruct (fileInfo (recon s) !! id) as [info|] eqn:Hid.
  - intros H. apply bind_inv in H
      as [(b & s1 & e1 & e2 & H1 & H2 & ->) | [(r' & H1 & Hr') Hr]].
    + apply liftR_inv in H1 as (rc & ev0 & H1 & -> & ->).
      apply (removeFileLocally_uncached env n id (λ _, True) _ _ _ _ I) in H1.
      destruct b.
      * apply liftP_inv in H2 as (ev1 & H2 & ->).
        rewrite remote_removals_app, !remote_removals_Ev. split; [done |].
        intros _.
        apply (preserves_save env (λ s, fileInfo (recon s))) in H2; try done.
        by rewrite H2.
      * injection H2 as <- <- <-.
        rewrite remote_removals_app, !remote_removals_Ev. by split.
    + apply liftR_inv in H1 as (rc & ev0 & H1 & -> & ->).
      by rewrite remote_removals_Ev.
  - intros [= <- <- <-]. split; [done |]. by intros _.
Qed.

(** X21: a removal on disk of a path the Path Index does not know does
    nothing. For a path the index knows, the only calls that remove
    anything on the remote are for the id the path stood for: deletions
    when the account asks for permanent deletion, moves to the trash
    otherwise; and when the handler resolves it has made such a call and
    the id is no longer in the Metadata Cache. *)
Theorem onLocalFileRemoved_remote (n : nat) (src : string) (s : Sync) :
  (paths (recon s) !! src = None →
   onLocalFileRemoved env drive permanentlyDeleteSetting n src s = (Ok tt, s, []))
  ∧ ∀ id, paths (recon s) !! src = Some id →
      let x := onLocalFileRemoved env drive permanentlyDeleteSetting n src s in
      Forall (λ a, a = if permanentlyDeleteSetting then FilesDelete id
                         else FilesTrash id) (remote_removals (trace x))
      ∧ (resolved (outcome x) →
         remote_removals (trace x) ≠ []
         ∧ fileInfo (recon (final x)) !! id = None).
Proof.
  split.
  - intros Hp. unfold onLocalFileRemoved. by rewrite bind_get, Hp.
  - intros id Hp. cbv zeta. unfold onLocalFileRemoved. rewrite bind_get, Hp.
    match goal with
    | |- context [bind ?m ?f s] =>
        destruct (bind m f s) as [[r s'] ev] eqn:H
    end.
    unfold trace, outcome, final; simpl.
    apply bind_inv in H
      as [([] & s1 & e1 & e2 & H1 & H2 & ->) | [(r' & H1 & Hr') Hr]].
    + apply local_part_run in H1 as [He1 Hc1].
      apply remote_removal_run in H2 as (Hf & He2 & Hne).
      rewrite remote_removals_app, He1. simpl. split; [done |].
      intros Hr. split; [by apply Hne |]. rewrite Hf. by apply Hc1.
    + apply local_part_run in H1 as [He1 _]. rewrite He1.
      split; [constructor | done].
Qed.

(** X22: when the mirrored folder itself is removed the process exits and
    nothing else happens: no removal reaches the remote. For any other
    directory the handler never rejects. *)
Theorem onLocalDirRemoved_guard (n : nat) (src : string) (s : Sync) :
  (src = folder (recon s) →
   onLocalDirRemoved env drive permanentlyDeleteSetting n src s
   = (Pending, s, [ProcessExit 1]))
  ∧ ∀ e, outcome (onLocalDirRemoved env drive permanentlyDeleteSetting n src s)
         ≠ Throw e.
Proof.
  unfold onLocalDirRemoved. rewrite bind_get. split.
  - intros ->. rewrite bool_decide_eq_true_2 by done. by rewrite bind_emit.
  - intros e. case_bool_decide; [by rewrite bind_emit |].
    unfold detached, outcome.
    destruct (onLocalFileRemoved _ _ _ _ _ _) as [[[]] ?]; by simpl.
Qed.

End LocalRemoval.

(** ** What the initial sync leaves alone *)

Section ObjectFrames.
Context (env : Env) (drive : Drive) (values : Recon → list File.info).
Context {X : Type} (proj : Recon → X).
(** The projection looks at neither the caches, the index, the clock nor
    the disk. *)
Context (Hfi : ∀ g st, proj (with_fileInfo g st) = proj st).
Context (Hpa : ∀ g st, proj (with_paths g st) = proj st).
Context (Hpc : ∀ g st, proj (with_parentInfoCache g st) = proj st).
Context (Htk : ∀ st, proj (next_tick st) = proj st).
Context (Hdisk : ∀ g st, proj (with_disk g st) = proj st).

Lemma preserves_downloadFile n info : preserves proj (downloadFile env n info).
Proof.
  unfold downloadFile. apply preserves_bind; [apply preserves_get | intros st].
  destruct (shouldIgnoreFile st info); [apply preserves_ret |].
  apply preserves_bind; [by apply preserves_getPaths | intros ps].
  by apply preserves_download_tail.
Qed.

Lemma preserves_prefetch_parents n infos :
  preserves proj (prefetch_parents env n infos).
Proof.
  unfold prefetch_parents. apply preserves_bind; [apply preserves_get | intros st].
  case_bool_decide; [apply preserves_ret |].
  apply preserves_bind; [| intros b; by apply preserves_modify].
  apply preserves_getFileInfoBatch_with; try done.
  intros x. by apply preserves_getPaths.
Qed.

Lemma preserves_computePaths n info : preserves proj (computePaths env n info).
Proof.
  unfold computePaths, computePaths_with.
  apply preserves_bind; [by apply preserves_getPaths | intros ps].
  by apply preserves_modify.
Qed.

Lemma preserves_computePaths_all n :
  preserves proj (computePaths_all env values n).
Proof.
  unfold computePaths_all. apply preserves_bind; [apply preserves_get | intros st].
  apply preserves_bind; [apply preserves_prefetch_parents | intros _].
  apply preserves_bind; [apply preserves_get | intros st'].
  apply preserves_forM_. intros info. apply preserves_computePaths.
Qed.

Lemma preserves_tryTwice_L {A} (fn : L A) :
  preserves (λ s, proj (recon s)) fn → preserves (λ s, proj (recon s)) (tryTwice_L fn).
Proof.
  intros Hfn. apply preserves_try_catch; [done |]. intros e.
  case_bool_decide; [| apply preserves_throw].
  apply preserves_bind; [| done].
  apply (preserves_liftR_recon proj), preserves_delay.
Qed.

Lemma preserves_filesListChunk tok q :
  preserves (λ s, proj (recon s)) (filesListChunk drive tok q).
Proof.
  apply preserves_tryTwice_L. intros s r s' ev [= _ <- _]. apply Htk.
Qed.

Lemma preserves_folderContents_loop n q : ∀ tok files,
  preserves (λ s, proj (recon s)) (folderContents_loop drive n q tok files).
Proof.
  induction n as [|n IH]; intros tok files; simpl;
    (destruct (truthy tok); [| apply preserves_ret]).
  - apply preserves_out_of_fuel.
  - apply preserves_bind; [apply (preserves_liftR_recon proj), preserves_delay |].
    intros _. apply preserves_bind; [apply preserves_filesListChunk | intros d].
    apply IH.
Qed.

Lemma preserves_folderContents n folder :
  preserves (λ s, proj (recon s)) (folderContents drive n folder).
Proof.
  unfold folderContents.
  apply preserves_bind; [apply preserves_filesListChunk | intros c].
  apply preserves_folderContents_loop.
Qed.

Lemma preserves_storeFileInfo n info : preserves proj (storeFileInfo env n info).
Proof.
  apply preserves_storeFileInfo_with; try done.
  intros x. by apply preserves_getPaths.
Qed.

Lemma preserves_downloadFolderStructure n : ∀ folder,
  preserves (λ s, proj (recon s)) (downloadFolderStructure env drive n folder).
Proof.
  induction n as [|n IH]; intros folder; simpl; [apply preserves_out_of_fuel |].
  apply preserves_bind; [apply (preserves_liftR_recon proj), preserves_delay |].
  intros _. apply preserves_bind; [apply preserves_folderContents | intros files].
  apply preserves_bind; [| intros; apply preserves_ret].
  apply preserves_flat_mapM. intros file.
  apply preserves_bind; [destruct (isFolder file); [apply IH | apply preserves_ret] |].
  intros sub. apply preserves_bind; [| intros; apply preserves_ret].
  apply (preserves_liftR_recon proj), preserves_storeFileInfo.
Qed.

Lemma preserves_flow_one n acc file :
  preserves (λ s, proj (recon s)) (flow_one env n acc file).
Proof.
  unfold flow_one. apply preserves_bind; [apply preserves_get | intros s].
  destruct (shouldIgnoreFile (recon s) file); [apply preserves_ret |].
  apply preserves_bind; [| intros; apply preserves_ret].
  apply (preserves_liftR_recon proj), preserves_downloadFile.
Qed.

Lemma preserves_flow_window n q : ∀ acc,
  preserves (λ s, proj (recon s)) (flow_window env n acc q).
Proof.
  induction q as [|file q IH]; intros acc; simpl; [apply preserves_ret |].
  apply preserves_bind; [apply preserves_flow_one | intros acc'; apply IH].
Qed.

Lemma preserves_ParallelMapFlow_loop n : ∀ files acc,
  preserves (λ s, proj (recon s)) (ParallelMapFlow_loop env n files acc).
Proof.
  induction n as [|n IH]; intros [|f files] acc; cbn [ParallelMapFlow_loop];
    try apply preserves_ret; [apply preserves_out_of_fuel |].
  apply preserves_bind;
    [apply (preserves_liftR_recon proj), preserves_prefetch_parents | intros _].
  apply preserves_bind; [apply preserves_flow_window | intros acc'].
  apply IH.
Qed.

End ObjectFrames.

(** ** The initial sync *)

Section InitialSync.
Context (env : Env) (drive : Drive) (values : Recon → list File.info).

Lemma set_syncing_run b s :
  ∃ s' ev, set_syncing b s = (Ok tt, s', ev)
    ∧ syncing s' = b ∧ synced s' = synced s ∧ stored s' = stored s
    ∧ rootId (recon s') = rootId (recon s).
Proof.
  unfold set_syncing. rewrite bind_get. case_bool_decide as Hb.
  { exists s, []. by repeat split. }
  rewrite bind_modify, bind_get, bind_emit.
  destruct (notifyChanges_run (set_syncing_field b s)) as (ev & -> & _).
  eexists _, _. split; [reflexivity |]. unfold notified.
  destruct (handlingChanges _); [done |]. by case_bool_decide.
Qed.

Lemma preserves_startWatchingChanges {X} (proj : Recon → X) :
  (∀ st, proj (next_tick st) = proj st) →
  preserves (λ s, proj (recon s)) (startWatchingChanges env).
Proof.
  intros Htk. unfold startWatchingChanges.
  apply preserves_bind; [apply preserves_get | intros s].
  destruct (truthy (changeToken s)); [apply preserves_ret |].
  apply preserves_bind.
  { intros s0 r s' ev. unfold lift, drive_getStartPageToken.
    intros [= _ <- _]. simpl. apply Htk. }
  intros t. apply preserves_bind; [apply preserves_get | intros s1].
  destruct (truthy (changeToken s1)); [apply preserves_ret |].
  by apply preserves_modify.
Qed.

(** X23: [start] never settles with the [syncing] flag raised; and when it
    resolves the object is synced and the datastore holds a checkpoint
    that says so and names the root id the remote gave. *)
Theorem start_flags (n : nat) (s : Sync) :
  syncing s = false →
  let x := start env drive values n s in
  (settles (outcome x) → syncing (final x) = false)
  ∧ (resolved (outcome x) →
     synced (final x) = true
     ∧ ∃ cp, stored (final x) = Some cp ∧ cp_synced cp = true
             ∧ is_Some (cp_rootId cp)
             ∧ cp_rootId cp = rootId (recon (final x))).
Proof.
  intros Hs. cbv zeta. unfold start.
  destruct (set_syncing_run true s) as (s1 & e1 & Hup & _).
  rewrite (bind_Ok _ _ _ _ _ _ (liftP_run _ _ _ _ _ Hup)).
  unfold try_catch.
  match goal with
  | |- context [bind ?m ?f s1] =>
      destruct (bind m f s1) as [[[a|e| |] s2] e2] eqn:Hb
  end; unfold after, outcome, final; simpl; try done.
  - apply bind_Ok_inv in Hb as (ri & s3 & e3 & e4 & _ & Hb & _).
    destruct ri as [ri|]; [| done].
    rewrite bind_modify in Hb.
    apply bind_Ok_inv in Hb as ([] & s4 & e5 & e6 & H4 & Hb & _).
    apply liftP_inv in H4 as (e5' & H4 & _).
    apply (preserves_startWatchingChanges rootId) in H4; [| done]. simpl in H4.
    apply bind_Ok_inv in Hb as (files & s5 & e7 & e8 & H5 & Hb & _).
    apply (preserves_downloadFolderStructure env drive rootId) in H5; try done.
    apply bind_Ok_inv in Hb as ([] & s6 & e9 & e10 & H6 & Hb & _).
    apply (preserves_liftR_recon rootId) in H6;
      [| by apply preserves_computePaths_all].
    apply bind_Ok_inv in Hb as (res & s7 & e11 & e12 & H7 & Hb & _).
    apply (preserves_ParallelMapFlow_loop env rootId) in H7; try done.
    destruct (set_syncing_run false s7) as (s8 & e13 & Hdown & Hf8 & _ & _ & Hr8).
    rewrite (bind_Ok _ _ _ _ _ _ (liftP_run _ _ _ _ _ Hdown)), bind_modify in Hb.
    destruct (liftP (save env) (set_synced true s8)) as [[rz sz] ez] eqn:Hsave.
    unfold after in Hb. injection Hb as -> -> _.
    apply liftP_inv in Hsave as (e14 & Hsave & _).
    assert (Hroot : rootId (recon s8) = Some (File.id ri)).
    { by rewrite Hr8, H7, H6, H5, H4. }
    pose proof Hsave as Hsyncing. pose proof Hsave as Hsynced.
    pose proof Hsave as Hroot2.
    apply (preserves_save env syncing) in Hsyncing; try done.
    apply (preserves_save env synced) in Hsynced; try done.
    apply (preserves_save env (λ s, rootId (recon s))) in Hroot2; try done.
    destruct a. apply save_resolved in Hsave as (Hstored & _).
    simpl in Hsyncing, Hsynced, Hroot2.
    split; intros _; [by rewrite Hsyncing |].
    split; [done |]. eexists. split; [exact Hstored |].
    simpl. rewrite Hroot2, Hroot. by repeat split.
  - destruct (set_syncing_run false s2) as (s3 & e3 & Hdown & Hf3 & _).
    rewrite (bind_Ok _ _ _ _ _ _ (liftP_run _ _ _ _ _ Hdown)). simpl.
    by split.
Qed.

End InitialSync.

(** ** Counting the initial downloads *)

Lemma shouldIgnoreFile_rootId st st' info :
  rootId st = rootId st' → shouldIgnoreFile st info = shouldIgnoreFile st' info.
Proof. unfold shouldIgnoreFile. by intros ->. Qed.

Lemma skipped_rootId st st' files :
  rootId st = rootId st' → skipped st files = skipped st' files.
Proof.
  intros H. unfold skipped. induction files as [|f files IH]; [done |].
  rewrite !filter_cons, IH, (shouldIgnoreFile_rootId st st' f H). done.
Qed.

Lemma fetched_rootId st st' files :
  rootId st = rootId st' → fetched st files = fetched st' files.
Proof.
  intros H. unfold fetched. induction files as [|f files IH]; [done |].
  rewrite !filter_cons, IH, (shouldIgnoreFile_rootId st st' f H). done.
Qed.

Lemma skipped_fetched_length st files :
  length (fetched st files) + length (skipped st files) = length files.
Proof.
  unfold fetched, skipped. induction files as [|f files IH]; [done |].
  rewrite !filter_cons. destruct (shouldIgnoreFile st f).
  - rewrite decide_False by done. rewrite decide_True by done. simpl. lia.
  - rewrite decide_True by done. rewrite decide_False by done. simpl. lia.
Qed.

Lemma total_size_app l1 l2 :
  total_size (l1 ++ l2) = (total_size l1 + total_size l2)%N.
Proof.
  unfold total_size. induction l1 as [|f l1 IH]; simpl; [done |].
  rewrite IH. lia.
Qed.

(** Below 2^53 every integer is a double. *)
Lemma Number_of_exact (n : N) : (n < 2 ^ 53)%N → Number_of n = Some n.
Proof. intros H. unfold Number_of. by apply N.ltb_lt in H as ->. Qed.

Lemma js_add_exact (a b : N) :
  (a + b < 2 ^ 53)%N → js_add (Some a) (Number_of b) = Some (a + b)%N.
Proof.
  intros H. rewrite (Number_of_exact b).
  - simpl. by apply Number_of_exact.
  - set (B := (2 ^ 53)%N) in *. lia.
Qed.

Section Flow.
Context (env : Env).

Lemma flow_window_counts n q : ∀ acc s acc' s' ev,
  flow_window env n acc q s = (Ok acc', s', ev) →
  rootId (recon s') = rootId (recon s)
  ∧ ignored acc' = ignored acc + length (skipped (recon s) q)
  ∧ counter acc' = counter acc + length (fetched (recon s) q)
  ∧ ∀ a, fileSize acc = Some a →
      (a + total_size (fetched (recon s) q) < 2 ^ 53)%N →
      fileSize acc' = Some (a + total_size (fetched (recon s) q))%N.
Proof.
  induction q as [|f q IH]; intros acc s acc' s' ev; simpl.
  { intros [= <- <- _]. split_and!; [done | lia | lia | ].
    intros a Ha _. unfold total_size; simpl. by rewrite N.add_0_r. }
  intros H. apply bind_Ok_inv in H as (acc1 & s1 & e1 & e2 & H1 & H2 & _).
  assert (Hr1 : rootId (recon s1) = rootId (recon s)).
  { by eapply (preserves_flow_one env rootId). }
  apply IH in H2 as (Hr2 & Hi & Hc & Hz).
  rewrite (skipped_rootId _ _ q Hr1) in Hi.
  rewrite (fetched_rootId _ _ q Hr1) in Hc, Hz.
  split; [by rewrite Hr2 |].
  unfold flow_one in H1. rewrite bind_get in H1.
  unfold skipped, fetched. rewrite !filter_cons.
  fold (skipped (recon s) q). fold (fetched (recon s) q).
  destruct (shouldIgnoreFile (recon s) f) eqn:Hig.
  - injection H1 as <- _ _. simpl in *. split_and!; [lia | lia |].
    intros a Ha Hb. by apply Hz.
  - apply bind_Ok_inv in H1 as (b & s0 & e3 & e4 & _ & H1 & _).
    injection H1 as <- _ _. simpl in *. split_and!; [lia | lia |].
    intros a Ha. unfold total_size; simpl. fold (total_size (fetched (recon s) q)).
    set (B := (2 ^ 53)%N). intros Hb.
    destruct (File.size f) as [size|]; simpl in *.
    + rewrite (Hz (a + size)%N).
      * f_equal. lia.
      * rewrite Ha. apply js_add_exact. fold B. lia.
      * fold B. lia.
    + rewrite (Hz a); [done | done | by fold B].
Qed.

Lemma ParallelMapFlow_loop_counts n : ∀ files acc s acc' s' ev,
  ParallelMapFlow_loop env n files acc s = (Ok acc', s', ev) →
  ignored acc' = ignored acc + length (skipped (recon s) files)
  ∧ counter acc' = counter acc + length (fetched (recon s) files)
  ∧ ∀ a, fileSize acc = Some a →
      (a + total_size (fetched (recon s) files) < 2 ^ 53)%N →
      fileSize acc' = Some (a + total_size (fetched (recon s) files))%N.
Proof.
  induction n as [|n IH]; intros [|f files] acc s acc' s' ev;
    cbn [ParallelMapFlow_loop]; try done.
  1,2: intros [= <- _ _]; unfold total_size; simpl; split_and!;
    [lia | lia | intros a Ha _; by rewrite N.add_0_r].
  intros H. apply bind_Ok_inv in H as ([] & s1 & e1 & e2 & H1 & H & _).
  apply (preserves_liftR_recon rootId) in H1;
    [| by apply preserves_prefetch_parents].
  apply bind_Ok_inv in H as (acc1 & s2 & e3 & e4 & H2 & H3 & _).
  apply flow_window_counts in H2 as (Hr2 & Hi2 & Hc2 & Hz2).
  apply IH in H3 as (Hi3 & Hc3 & Hz3).
  assert (Hr : rootId (recon s2) = rootId (recon s)) by (by rewrite Hr2).
  rewrite (skipped_rootId _ _ _ Hr) in Hi3.
  rewrite (fetched_rootId _ _ _ Hr) in Hc3, Hz3.
  rewrite (skipped_rootId _ _ _ H1) in Hi2.
  rewrite (fetched_rootId _ _ _ H1) in Hc2, Hz2.
  rewrite <- (take_drop 10 (f :: files)).
  unfold skipped, fetched in *. rewrite !filter_app, !length_app, total_size_app.
  split_and!; [lia | lia |].
  intros a Ha. set (B := (2 ^ 53)%N) in *. intros Hb.
  rewrite (Hz3 (a + total_size
                      (filter (λ f0, shouldIgnoreFile (recon s) f0 = false)
                         (take 10 (f :: files))))%N).
  - f_equal. lia.
  - apply Hz2; [done | lia].
  - lia.
Qed.

(** X24: when the initial download resolves, its counters account for every
    file it was given, once: the ignored ones are those [shouldIgnoreFile]
    rejects and all the others are counted as downloaded; and the byte
    count is the sum of the sizes the downloaded ones announce as long as
    that sum is below 2^53, where the additions of the code are exact. *)
Theorem ParallelMapFlow_counts (n : nat) (files : list File.info)
    (s s' : Sync) (r : FlowResult) (ev : list Action) :
  ParallelMapFlow env n files s = (Ok r, s', ev) →
  ignored r = length (skipped (recon s) files)
  ∧ counter r = length (fetched (recon s) files)
  ∧ counter r + ignored r = length files
  ∧ ((total_size (fetched (recon s) files) < 2 ^ 53)%N →
     fileSize r = Some (total_size (fetched (recon s) files))).
Proof.
  intros H. apply ParallelMapFlow_loop_counts in H as (Hi & Hc & Hz).
  simpl in *. pose proof (skipped_fetched_length (recon s) files).
  split_and!; [lia | lia | lia |].
  intros Hb. by rewrite (Hz 0%N).
Qed.

End Flow.

(** ** The remote tree in the Metadata Cache *)

#[global] Instance grows_in_preorder : PreOrder grows_in.
Proof.
  split.
  - intros s. unfold grows_in. reflexivity.
  - intros a b c. unfold grows_in. apply transitivity.
Qed.

Lemma grows_in_of_preserves {A} (m : L A) :
  preserves (λ s, fileInfo (recon s)) m →
  preserves (λ s, paths (recon s)) m →
  keeps grows_in m.
Proof.
  intros H1 H2 s r s' ev H. split.
  - by rewrite (H1 _ _ _ _ H).
  - by rewrite (H2 _ _ _ _ H).
Qed.

Lemma cached_grows_in fid s s' :
  cached fid (recon s) → grows_in s s' → cached fid (recon s').
Proof. intros H [Hg _]. by apply Hg. Qed.

Section RemoteTree.
Context (env : Env) (drive : Drive).

Lemma grows_in_storeFileInfo n file :
  keeps grows_in (liftR (storeFileInfo env n file)).
Proof. apply (keeps_liftR_recon grows), grows_storeFileInfo. Qed.

Lemma grows_in_folderContents n folder :
  keeps grows_in (folderContents drive n folder).
Proof.
  apply grows_in_of_preserves.
  - by apply (preserves_folderContents drive fileInfo).
  - by apply (preserves_folderContents drive paths).
Qed.

Lemma grows_in_delay d : keeps grows_in (liftR (delay d)).
Proof.
  apply grows_in_of_preserves.
  - apply (preserves_liftR_recon fileInfo), preserves_delay.
  - apply (preserves_liftR_recon paths), preserves_delay.
Qed.

Lemma grows_in_downloadFolderStructure n : ∀ folder,
  keeps grows_in (downloadFolderStructure env drive n folder).
Proof.
  induction n as [|n IH]; intros folder; simpl;
    [by apply (keeps_out_of_fuel grows_in) |].
  apply (keeps_bind grows_in); [apply grows_in_delay | intros _].
  apply (keeps_bind grows_in); [apply grows_in_folderContents | intros files].
  apply (keeps_bind grows_in); [| intros; by apply (keeps_ret grows_in)].
  apply (keeps_flat_mapM grows_in). intros file.
  apply (keeps_bind grows_in);
    [destruct (isFolder file); [apply IH | by apply (keeps_ret grows_in)] |].
  intros sub. apply (keeps_bind grows_in);
    [apply grows_in_storeFileInfo | intros; by apply (keeps_ret grows_in)].
Qed.

(** One level of the tree: every file of the list, and every file found
    below one of its folders, ends up cached. *)
Lemma level_cached (n : nat)
    (below : string → L (list File.info)) :
  (∀ folder, keeps grows_in (below folder)) →
  (∀ folder s res s' ev, below folder s = (Ok res, s', ev) →
     Forall (λ f, cached (File.id f) (recon s')) res) →
  ∀ files s res s' ev,
    flat_mapM (λ file,
                 let* sub := (if isFolder file then below (File.id file)
                              else ret []) in
                 liftR (storeFileInfo env n file) >>> ret sub) files s
    = (Ok res, s', ev) →
    Forall (λ f, cached (File.id f) (recon s')) files
    ∧ Forall (λ f, cached (File.id f) (recon s')) res
    ∧ grows_in s s'.
Proof.
  intros Hk Hb. induction files as [|file files IH]; intros s res s' ev; simpl.
  { intros [= <- <- _]. by repeat split. }
  intros H. apply bind_Ok_inv in H as (sub & s1 & e1 & e2 & H1 & H & _).
  apply bind_Ok_inv in H as (rest & s2 & e3 & e4 & H2 & H & _).
  injection H as <- <- _.
  apply bind_Ok_inv in H1 as (sub' & s0 & e5 & e6 & Hsub & H1 & _).
  apply bind_Ok_inv in H1 as (r & s0' & e7 & e8 & Hst & H1 & _).
  injection H1 as <- <- _.
  apply IH in H2 as (Hfiles & Hrest & Hg2).
  assert (Hg0 : grows_in s s0).
  { destruct (isFolder file); [by eapply Hk |]. by injection Hsub as _ <- _. }
  assert (Hsub0 : Forall (λ f, cached (File.id f) (recon s0)) sub').
  { destruct (isFolder file); [by eapply Hb |]. injection Hsub as <- _ _.
    constructor. }
  pose proof (grows_in_storeFileInfo n file _ _ _ _ Hst) as Hg1.
  apply liftR_inv in Hst as (rc & ev0 & Hst & -> & _).
  apply (storeFileInfo_cached env n file (λ _, True) _ _ _ _ I) in Hst.
  split_and!.
  - constructor; [| done]. eapply cached_grows_in; [| exact Hg2]. exact Hst.
  - apply Forall_app. split; [| done].
    eapply Forall_impl; [exact Hsub0 |]. intros f Hf. simpl in Hf.
    eapply cached_grows_in; [exact Hf |]. by etrans.
  - etrans; [exact Hg0 |]. by etrans.
Qed.

(** X25: when the listing of the remote tree resolves, every file it
    returns has a record in the Metadata Cache. *)
Theorem downloadFolderStructure_caches (n : nat) (folder : string)
    (s s' : Sync) (res : list File.info) (ev : list Action) :
  downloadFolderStructure env drive n folder s = (Ok res, s', ev) →
  Forall (λ f, cached (File.id f) (recon s')) res.
Proof.
  revert folder s s' res ev. induction n as [|n IH];
    intros folder s s' res ev; simpl; [done |].
  intros H. apply bind_Ok_inv in H as ([] & s1 & e1 & e2 & _ & H & _).
  apply bind_Ok_inv in H as (files & s2 & e3 & e4 & _ & H & _).
  apply bind_Ok_inv in H as (below & s3 & e5 & e6 & H & Hret & _).
  injection Hret as <- <- _.
  apply (level_cached (S n) (downloadFolderStructure env drive n)) in H
    as (H1 & H2 & _); [by apply Forall_app | |].
  - apply grows_in_downloadFolderStructure.
  - intros f s0 r0 s0' ev0. apply IH.
Qed.

End RemoteTree.

(** ** Loading the checkpoint *)

Lemma events_of_app e1 e2 : events_of (e1 ++ e2) = events_of e1 ++ events_of e2.
Proof. apply omap_app. Qed.

Lemma events_of_Ev (l : list Event) : events_of (Ev <$> l) = l.
Proof. induction l as [|e l IH]; [done |]. rewrite fmap_cons. simpl. by f_equal. Qed.

Lemma try_catch_rethrows_Ok {St Ev A} (m : M St Ev A) (h : Error → M St Ev A)
    s a s' ev :
  (∀ e s0, ¬ resolved (h e s0).1.1) →
  try_catch m h s = (Ok a, s', ev) → m s = (Ok a, s', ev).
Proof.
  intros Hh. unfold try_catch.
  destruct (m s) as [[[a0|e| |] s1] e1] eqn:Hm; try done.
  specialize (Hh e s1). destruct (h e s1) as [[[b|e'| |] s2] e2]; simpl in Hh;
    intros [=]. by destruct Hh.
Qed.

Section Load.
Context (env : Env) (values : Recon → list File.info).

Lemma restore_checkpoint_of (s : Sync) (folder : string)
    (disk : gmap string Node) (db : option Checkpoint) :
  changeToken s ≠ Some EmptyString →
  rootId (recon s) ≠ Some EmptyString →
  checkpoint_of (restore (checkpoint_of s) (constructed folder disk db))
  = checkpoint_of s.
Proof.
  intros Ht Hr. unfold checkpoint_of, restore; simpl. f_equal.
  - destruct (changeToken s) as [t|]; simpl; [| done].
    case_bool_decide; [by subst | done].
  - by rewrite orb_false_r.
  - destruct (rootId (recon s)) as [t|]; simpl; [| done].
    case_bool_decide; [by subst | done].
  - by destruct (changesToExecute s).
Qed.

(** X26: a checkpoint written by [save] restores, in a freshly constructed
    object, every field it saved, provided the token and the root id it
    holds are not empty strings; when [save] resolves, the datastore holds
    such a checkpoint; and [save] resolves when no [load] and no other
    [save] is under way and the datastore answers. *)
Theorem save_then_restore (s : Sync) (folder : string)
    (disk : gmap string Node) (db : option Checkpoint) :
  changeToken s ≠ Some EmptyString →
  rootId (recon s) ≠ Some EmptyString →
  (∀ cp, cp ∈ checkpoints (trace (save env s)) →
     checkpoint_of (restore cp (constructed folder disk db)) = checkpoint_of s)
  ∧ (resolved (outcome (save env s)) →
     ∃ cp, stored (final (save env s)) = Some cp
       ∧ checkpoint_of (restore cp (constructed folder disk db))
         = checkpoint_of s)
  ∧ (loading s || saving s = false →
     (∀ k, datastore env k = Reply tt) →
     resolved (outcome (save env s))).
Proof.
  intros Ht Hr. split; [| split].
  - intros cp Hcp. apply save_checkpoints in Hcp as ->.
    by apply restore_checkpoint_of.
  - destruct (save env s) as [[[[]|e| |] s'] ev] eqn:H; try done. intros _.
    apply save_resolved in H as (Hst & _). exists (checkpoint_of s).
    split; [done | by apply restore_checkpoint_of].
  - apply save_resolves.
Qed.

(** What [load] does between raising its flag and lowering it, with a
    change pending in the checkpoint: it does not get to the end, and the
    flag is still up where it stops. *)
Lemma load_body_stops (n : nat) (s : Sync) (cp : Checkpoint)
    (f : Sync → unit → L unit) r s' ev :
  loading s = true → closed s = false →
  stored s = Some cp →
  pending_changes (restore cp s) ≠ [] →
  (∀ k, (30000 < date_now env k - savedTime s)%Z) →
  (liftP (db_call env DbFindOne) >>>
   let* s0 := get in
   let obj := stored s0 in
   (match obj with
    | Some cp => modify (restore cp) >>> modify (set_running true)
    | None => ret tt
    end) >>>
   liftR (computePaths_all env values n) >>>
   emit WatcherInit >>>
   let* u := liftP (handleChanges env n) in
   f s0 u) s = (r, s', ev) →
  ¬ resolved r ∧ loading s' = true.
Proof.
  intros Hl Hc Hst Hp Ht H.
  apply bind_inv in H
    as [([] & s1 & e1 & e2 & Hdb & H & ->) | [(r' & Hdb & _) Hr]].
  2:{ split; [done |]. unfold liftP, db_call in Hdb.
      injection Hdb as _ <- _. exact Hl. }
  unfold liftP, db_call in Hdb. injection Hdb as _ <- _.
  rewrite bind_get in H. simpl in H. rewrite Hst in H.
  rewrite bind_assoc, bind_modify, bind_modify in H.
  set (proj := λ s : Sync,
         (loading s, closed s, savedTime s, pending_changes s)) in *.
  apply bind_inv in H
    as [([] & s2 & e3 & e4 & Hpaths & H & ->) | [(r' & Hpaths & _) Hr]].
  2:{ split; [done |].
      apply (preserves_liftR proj) in Hpaths; [| done].
      injection Hpaths as -> _ _ _. exact Hl. }
  apply (preserves_liftR proj) in Hpaths; [| done].
  injection Hpaths as L2 K2 T2 P2. simpl in L2, K2, T2, P2.
  rewrite bind_emit in H.
  destruct (bind _ _ s2) as [[r3 s3] e5] eqn:H3.
  unfold after in H. injection H as <- <- _.
  assert (Hs2 : ¬ resolved (outcome (handleChanges env n s2))
                ∧ loading (final (handleChanges env n s2)) = true).
  { apply handleChanges_loading.
    - by rewrite L2.
    - by rewrite K2.
    - unfold pending_changes in *. by rewrite P2.
    - intros k. rewrite T2. apply Ht. }
  destruct Hs2 as [Hnot Hup].
  apply bind_inv in H3
    as [([] & s4 & e6 & e7 & Hh & _ & _) | [(r' & Hh & _) Hr]].
  - apply liftP_inv in Hh as (e6' & Hh & _). rewrite Hh in Hnot.
    by destruct Hnot.
  - apply liftP_inv in Hh as (e6' & Hh & _). rewrite Hh in Hup.
    by split.
Qed.

(** X27: an open object that loads a checkpoint with a change left to apply,
    more than thirty seconds after the time of its last save (zero for a
    new object), does not finish loading.  The [save] that [handleChanges]
    makes inside [load] waits for the flag [load] itself holds: the call
    never resolves, and when it does not reject either, the flag stays up
    for good.  When it rejects, both flags are down. *)
Theorem load_waits_for_itself (n : nat) (s : Sync) (cp : Checkpoint) :
  loading s = false → saving s = false → closed s = false →
  stored s = Some cp →
  pending_changes (restore cp s) ≠ [] →
  (∀ k, (30000 < date_now env k - savedTime s)%Z) →
  let x := load env values n s in
  ¬ resolved (outcome x)
  ∧ (settles (outcome x) →
     loading (final x) = false ∧ handlingRemoteChange (final x) = false)
  ∧ (¬ settles (outcome x) → loading (final x) = true).
Proof.
  intros Hl Hs Hc Hst Hp Ht. cbv zeta.
  unfold load. rewrite bind_get, Hl, Hs. simpl. rewrite bind_modify.
  unfold try_catch.
  match goal with
  | |- context [match ?b (set_loading true s) with _ => _ end] =>
      destruct (b (set_loading true s)) as [[r1 s1] e1] eqn:Hbody
  end.
  apply load_body_stops with (cp := cp) in Hbody as [Hnot Hup]; try done.
  destruct r1 as [a|e| |]; unfold outcome, final; simpl.
  - by destruct Hnot.
  - rewrite bind_modify.
    destruct (lower_flag_run (set_loading false s1))
      as (s2 & e2 & Hlow & Hf & _).
    pose proof Hlow as Hload.
    apply (preserves_set_handlingRemoteChange loading) in Hload; try done.
    rewrite (bind_Ok _ _ _ _ _ _ (liftP_run _ _ _ _ _ Hlow)). simpl.
    split; [by intros [] |]. split; [| by intros []].
    intros _. split; [exact Hload | exact Hf].
  - split; [by intros [] |]. split; [by intros [] | done].
  - split; [by intros [] |]. split; [by intros [] | done].
Qed.

End Load.


(** ** Rebuilding the Path Index from a closed cache *)

Section Rebuild.
Context (env : Env) (values : Recon → list File.info).

(** X28: when every record the caches resolve has a finite chain of
    resolvable parents, the walk up from such a record returns as soon as
    the fuel exceeds the record's rank; it returns the paths [pathsOf]
    computes, makes no call at all, and leaves every id resolving as
    before. *)
Theorem getPaths_returns_from_cache (n : nat) (st : Recon)
    (rank : File.info → nat) (info : File.info) :
  (∀ p i, resolve st p = Some i → ranked st rank i) →
  ranked st rank info →
  rank info < n →
  ∃ ps st', getPaths env n (Some info) st = (Ok ps, st', [])
    ∧ pathsOf n st info = Some ps
    ∧ agree st st'.
Proof.
  intros Hall Hinfo Hlt.
  destruct (pathsOf_total st rank Hall n info Hinfo Hlt) as [ps Hps].
  destruct (getPaths_pure env n st (ranked_closed st rank Hall) st info
              (agree_refl st)) as (st' & Hrun & Hag).
  { intros Hroot qs q Hqs Hq.
    destruct (Hinfo Hroot qs q Hqs Hq) as (j & Hj & _). by eexists. }
  rewrite Hps in Hrun. by exists ps, st'.
Qed.

Lemma elem_of_concat {A} (x : A) (ls : list (list A)) :
  x ∈ concat ls → ∃ l, x ∈ l ∧ l ∈ ls.
Proof.
  induction ls as [|l ls IH]; simpl; [by intros ?%elem_of_nil |].
  intros [H|H]%elem_of_app.
  - exists l. split; [done | by apply elem_of_cons; left].
  - destruct (IH H) as (l' & H1 & H2). exists l'.
    split; [done | by apply elem_of_cons; right].
Qed.

Lemma nothing_to_prefetch (st : Recon) (infos : list File.info) :
  (∀ i q, i ∈ infos → q ∈ default [] (File.parents i) →
          is_Some (resolve st q)) →
  parents_to_fetch st infos = [].
Proof.
  intros H. unfold parents_to_fetch.
  rewrite no_parent_to_fetch; [done |].
  intros q Hq. apply elem_of_concat in Hq as (l & Hq & Hl).
  apply list_elem_of_fmap in Hl as (i & -> & Hi). by eapply H.
Qed.

Lemma agree_with_paths st0 st g : agree st0 st → agree st0 (with_paths g st).
Proof. by intros (H1 & H2 & H3). Qed.

Lemma rebuild_loop (n : nat) (st0 : Recon) (rank : File.info → nat)
    (l : list File.info) :
  (∀ p i, resolve st0 p = Some i → ranked st0 rank i) →
  (∀ i, i ∈ l → ranked st0 rank i ∧ rank i < n) →
  ∀ st, agree st0 st →
    ∃ st', forM_ (computePaths env n) l st = (Ok tt, st', [])
      ∧ agree st0 st'
      ∧ dom (paths st) ⊆ dom (paths st')
      ∧ ∀ j ps p, j ∈ l → pathsOf n st0 j = Some ps → p ∈ ps →
                  p ∈ dom (paths st').
Proof.
  intros Hall. induction l as [|x l IH]; intros Hl st Hag.
  { exists st. split_and!; try done. by intros j ps p Hj%elem_of_nil. }
  destruct (Hl x) as [Hx Hlt]; [by apply elem_of_cons; left |].
  destruct (pathsOf_total st0 rank Hall n x Hx Hlt) as [ps Hps].
  destruct (getPaths_pure env n st0 (ranked_closed st0 rank Hall) st x Hag)
    as (st1 & Hrun & Hag1).
  { intros Hroot qs q Hqs Hq.
    destruct (Hx Hroot qs q Hqs Hq) as (j & Hj & _). by eexists. }
  rewrite Hps in Hrun. simpl in Hrun.
  pose proof (grows_getPaths env n (Some x) _ _ _ _ Hrun) as [_ Hg1].
  set (st2 := with_paths (λ m, foldl (λ m p, <[p := File.id x]> m) m ps) st1).
  destruct (IH (λ i Hi, Hl i (proj2 (elem_of_cons _ _ _) (or_intror Hi))) st2)
    as (st' & Hrest & Hag' & Hdom & Hin).
  { by apply agree_with_paths. }
  exists st'. split_and!.
  - assert (Hstep : computePaths env n x st = (Ok tt, st2, [])).
    { unfold computePaths, computePaths_with.
      by rewrite (bind_Ok _ _ _ _ _ _ Hrun). }
    cbn [forM_]. rewrite (bind_Ok _ _ _ _ _ _ Hstep), after_nil.
    exact Hrest.
  - done.
  - etrans; [exact Hg1 |]. etrans; [| exact Hdom].
    unfold st2; simpl. rewrite foldl_insert_dom. apply union_subseteq_l.
  - intros j ps' p Hj Hps' Hp. apply elem_of_cons in Hj as [-> | Hj].
    + rewrite Hps in Hps'. injection Hps' as <-. apply Hdom.
      unfold st2; simpl. rewrite foldl_insert_dom.
      apply elem_of_union_r. by apply elem_of_list_to_set.
    + by eapply Hin.
Qed.

(** X29: over a cache in which every resolvable record has a finite chain
    of resolvable parents, rebuilding the Path Index makes no call and
    resolves; afterwards every path of every enumerated record is a key of
    the index, no key was lost, and every id resolves as before. *)
Theorem computePaths_all_indexes (n : nat) (st : Recon)
    (rank : File.info → nat) :
  (∀ p i, resolve st p = Some i → ranked st rank i) →
  (∀ i, i ∈ values st → ranked st rank i ∧ rank i < n) →
  (∀ i q, i ∈ values st → q ∈ default [] (File.parents i) →
          is_Some (resolve st q)) →
  ∃ st', computePaths_all env values n st = (Ok tt, st', [])
    ∧ agree st st'
    ∧ dom (paths st) ⊆ dom (paths st')
    ∧ ∀ j ps p, j ∈ values st → pathsOf n st j = Some ps → p ∈ ps →
                is_Some (paths st' !! p).
Proof.
  intros Hall Hvals Hres.
  destruct (rebuild_loop n st rank (values st) Hall Hvals st (agree_refl st))
    as (st' & Hrun & Hag & Hdom & Hin).
  exists st'. split_and!; try done.
  - unfold computePaths_all, prefetch_parents.
    rewrite bind_get, bind_assoc, bind_get.
    rewrite nothing_to_prefetch by done.
    rewrite bool_decide_eq_true_2 by done. by rewrite bind_ret, bind_get.
  - intros j ps p Hj Hps Hp. apply elem_of_dom. by eapply Hin.
Qed.

End Rebuild.

(** ** Listing a folder *)

Lemma listings_app e1 e2 : listings (e1 ++ e2) = listings e1 ++ listings e2.
Proof. apply omap_app. Qed.

Lemma listings_Ev (l : list Event) : listings (Ev <$> l) = [].
Proof. induction l as [|e l IH]; [done |]. by rewrite fmap_cons. Qed.

Section Listing.
Context (drive : Drive).

Lemma filesListChunk_listings (tok q : option string) s r s' ev :
  filesListChunk drive tok q s = (r, s', ev) →
  let req := (sent_query q, if truthy tok then tok else None) in
  listings ev = [req] ∨ listings ev = [req; req].
Proof.
  unfold filesListChunk, tryTwice_L, try_catch, bind, drive_files_list, liftR,
    liftP, lift, delay, emit, throw, sent_query; simpl.
  destruct (files_list drive (tick (recon s)) _ _) as [pg|e]; simpl.
  - intros [= _ _ <-]. by left.
  - case_bool_decide; simpl.
    + destruct (files_list drive (S (tick (recon s))) _ _) as [pg|e']; simpl;
        intros [= _ _ <-]; by right.
    + intros [= _ _ <-]. by left.
Qed.

Lemma folderContents_loop_listings n (q : option string) : ∀ tok files s r s' ev,
  folderContents_loop drive n q tok files s = (r, s', ev) →
  Forall (λ l, l.1 = sent_query q) (listings ev).
Proof.
  induction n as [|n IH]; intros tok files s r s' ev; simpl;
    (destruct (truthy tok); [| by intros [= _ _ <-]]).
  { by intros [= _ _ <-]. }
  intros H. apply bind_inv in H
      as [([] & s1 & e1 & e2 & H1 & H & ->) | [(r' & H1 & _) _]].
  2:{ apply liftR_inv in H1 as (rc & ev0 & _ & _ & ->).
      rewrite listings_Ev. constructor. }
  apply liftR_inv in H1 as (rc & ev0 & _ & _ & ->).
  rewrite listings_app, listings_Ev. simpl.
  apply bind_inv in H
      as [(pg & s2 & e3 & e4 & H2 & H & ->) | [(r' & H2 & _) _]].
  - rewrite listings_app. apply Forall_app. split.
    + apply filesListChunk_listings in H2 as [-> | ->]; by repeat constructor.
    + by eapply IH.
  - apply filesListChunk_listings in H2 as [-> | ->]; by repeat constructor.
Qed.

(** X30: every request [folderContents] sends, first page or later, retried
    or not, carries the query of the folder it lists, and the first
    request carries no page token. *)
Theorem folderContents_queries (n : nat) (folder : string) (s : Sync) :
  Forall (λ l, l.1 = sent_query (folder_query folder))
    (listings (trace (folderContents drive n folder s)))
  ∧ head (listings (trace (folderContents drive n folder s)))
    = Some (sent_query (folder_query folder), None).
Proof.
  destruct (folderContents drive n folder s) as [[r s'] ev] eqn:H.
  unfold trace; simpl. unfold folderContents in H.
  apply bind_inv in H
      as [(pg & s2 & e3 & e4 & H2 & H & ->) | [(r' & H2 & _) _]].
  - rewrite listings_app.
    apply folderContents_loop_listings in H.
    apply filesListChunk_listings in H2 as [-> | ->]; simpl;
      (split; [| done]); by repeat constructor.
  - apply filesListChunk_listings in H2 as [-> | ->]; simpl;
      (split; [| done]); by repeat constructor.
Qed.

End Listing.

(** ** The object's theorems at work *)

Lemma env0_proper : proper_remote Scenario.env0.
Proof. intros k fid i H. discriminate H. Qed.

Lemma stA_tidy : tidy "/d" Scenario.stA.
Proof.
  split; [done |]. split.
  { exists ["d"]. split; [done |]. split; [| done]. by repeat constructor. }
  split; [| apply map_Forall_empty].
  unfold Scenario.stA; simpl.
  repeat (apply map_Forall_insert_2; [reflexivity |]).
  apply map_Forall_empty.
Qed.

Lemma getPaths_stays_in_folder_witness :
  outcome (getPaths Scenario.env0 5 (Some Scenario.fileA) Scenario.stA)
  = Ok ["/d/F/a.txt"]
  ∧ all_under "/d" ["/d/F/a.txt"] ∧ Forall clean ["/d/F/a.txt"].
Proof.
  assert (Ho : outcome (getPaths Scenario.env0 5 (Some Scenario.fileA)
                          Scenario.stA) = Ok ["/d/F/a.txt"])
    by (vm_compute; reflexivity).
  split; [exact Ho |].
  refine (proj2 (getPaths_stays_in_folder Scenario.env0 5
                   (Some Scenario.fileA) Scenario.stA env0_proper stA_tidy _)
            _ Ho).
  by intros i [= <-].
Defined.

(** A name that is not a proper segment takes the walk out of the mirrored
    folder. *)
Example walk_leaves_folder :
  segment (File.name Cases.climber) = false
  ∧ outcome (getPaths Scenario.env0 5 (Some Cases.climber) Scenario.st0)
    = Ok ["/x.txt"]
  ∧ under "/d" "/x.txt" = false.
Proof. by vm_compute. Qed.

Lemma clean_d_F : clean "/d/F".
Proof. exists ["d"; "F"]. split; [done |]. split; [| done]. by repeat constructor. Qed.

Lemma lookup_by_path_after_store_witness :
  ∃ st' ev,
    storeFileInfo Scenario.env0 5 Scenario.folderF Scenario.st0
    = (Ok Scenario.folderF, st', ev)
    ∧ fileInfoFromPath st' "/d/F" = Some Scenario.folderF
    ∧ path_join "/d/F" "a.txt" = "/d/F/a.txt"
    ∧ getParent st' "/d/F/a.txt" = Some "F".
Proof.
  eexists _, _. split; [vm_compute; reflexivity |].
  destruct (lookup_by_path_after_store Scenario.env0 5 Scenario.folderF
              Scenario.folderF Scenario.st0 _ _ eq_refl)
    as (ps & st1 & Hw & Hall).
  assert (ps = ["/d/F"]) as -> by (by vm_compute in Hw; injection Hw as <-).
  destruct (Hall "/d/F") as [Hinfo Hparent]; [by left |].
  split; [exact Hinfo |]. split; [by vm_compute |].
  exact (Hparent "a.txt" eq_refl clean_d_F).
Defined.

Lemma start_flags_witness :
  syncing Cases.syNew = false
  ∧ outcome (start Cases.envTree Cases.driveTree Cases.values_by_key 6
               Cases.syNew) = Ok tt
  ∧ syncing (final (start Cases.envTree Cases.driveTree Cases.values_by_key 6
                      Cases.syNew)) = false.
Proof.
  split; [reflexivity |]. split; [vm_compute; reflexivity |].
  eapply (proj1 (start_flags Cases.envTree Cases.driveTree Cases.values_by_key
                   6 Cases.syNew eq_refl)).
  vm_compute. exact I.
Defined.

Lemma ParallelMapFlow_counts_witness :
  ∃ r s' ev,
    ParallelMapFlow Scenario.env1 5 [Scenario.rootInfo; Scenario.fileA]
      Scenario.sy0
    = (Ok r, s', ev)
    ∧ ignored r = 1 ∧ counter r = 1 ∧ fileSize r = Some 3%N.
Proof.
  eexists _, _, _. split; [vm_compute; reflexivity |].
  match goal with
  | |- ignored ?r = _ ∧ _ =>
      destruct (ParallelMapFlow_counts Scenario.env1 5
                  [Scenario.rootInfo; Scenario.fileA] Scenario.sy0 _ r _
                  ltac:(vm_compute; reflexivity))
        as (Hi & Hc & _ & Hz)
  end.
  split; [rewrite Hi; by vm_compute |].
  split; [rewrite Hc; by vm_compute |].
  rewrite Hz; by vm_compute.
Defined.

Lemma downloadFolderStructure_caches_witness :
  ∃ s' ev,
    downloadFolderStructure Cases.envTree Cases.driveTree 6 "root" Cases.syNew
    = (Ok [Scenario.folderF; Scenario.fileA], s', ev)
    ∧ Forall (λ f, cached (File.id f) (recon s'))
        [Scenario.folderF; Scenario.fileA].
Proof.
  eexists _, _. split; [vm_compute; reflexivity |].
  eapply (downloadFolderStructure_caches Cases.envTree Cases.driveTree 6 "root"
            Cases.syNew).
  vm_compute; reflexivity.
Defined.

Lemma save_then_restore_witness :
  changeToken Scenario.sy0 ≠ Some EmptyString
  ∧ rootId (recon Scenario.sy0) ≠ Some EmptyString
  ∧ resolved (outcome (save Scenario.env1 Scenario.sy0))
  ∧ ∃ cp, stored (final (save Scenario.env1 Scenario.sy0)) = Some cp
      ∧ checkpoint_of (restore cp (constructed "/d" ∅ None))
        = checkpoint_of Scenario.sy0.
Proof.
  assert (H1 : changeToken Scenario.sy0 ≠ Some EmptyString) by done.
  assert (H2 : rootId (recon Scenario.sy0) ≠ Some EmptyString) by done.
  destruct (save_then_restore Scenario.env1 Scenario.sy0 "/d" ∅ None H1 H2)
    as (_ & Hstored & Hresolves).
  assert (H3 : resolved (outcome (save Scenario.env1 Scenario.sy0)))
    by (apply Hresolves; [reflexivity | by intros k]).
  split; [exact H1 |]. split; [exact H2 |]. split; [exact H3 |].
  exact (Hstored H3).
Defined.

Lemma load_waits_for_itself_witness :
  pending_changes (restore Cases.cpPending Cases.syReloaded) = [Scenario.addA]
  ∧ outcome (load Cases.envClock Cases.values_by_key 5 Cases.syReloaded)
    = Pending
  ∧ loading (final (load Cases.envClock Cases.values_by_key 5
                      Cases.syReloaded)) = true.
Proof.
  split; [vm_compute; reflexivity |].
  assert (Hp : pending_changes (restore Cases.cpPending Cases.syReloaded) ≠ [])
    by (vm_compute; discriminate).
  assert (Ht : ∀ k, (30000 < date_now Cases.envClock k
                             - savedTime Cases.syReloaded)%Z).
  { intros k. change (30000 < 1600000000000 + Z.of_nat k - 0)%Z. lia. }
  destruct (load_waits_for_itself Cases.envClock Cases.values_by_key 5
              Cases.syReloaded Cases.cpPending eq_refl eq_refl eq_refl
              eq_refl Hp Ht) as (_ & _ & Hup).
  assert (Ho : outcome (load Cases.envClock Cases.values_by_key 5
                          Cases.syReloaded) = Pending)
    by (vm_compute; reflexivity).
  split; [exact Ho |]. apply Hup. rewrite Ho. by intros [].
Defined.

Lemma st0_ranked :
  ∀ p i, resolve Scenario.st0 p = Some i → ranked Scenario.st0 Cases.rank i.
Proof.
  intros p i Hres. unfold resolve in Hres. simpl in Hres.
  rewrite lookup_empty in Hres.
  destruct (decide (p = "F")) as [-> | HF].
  - rewrite lookup_insert_eq in Hres. injection Hres as <-.
    intros _ ps q [= <-] Hq. apply list_elem_of_singleton in Hq as ->.
    exists Scenario.rootInfo. split; [reflexivity |]. vm_compute. lia.
  - rewrite lookup_insert_ne in Hres by done.
    destruct (decide (p = "R")) as [-> | HR].
    + rewrite lookup_insert_eq in Hres. injection Hres as <-.
      intros Hroot. by destruct Hroot.
    + rewrite lookup_insert_ne in Hres by done.
      by rewrite lookup_empty in Hres.
Qed.

Lemma fileA_ranked : ranked Scenario.st0 Cases.rank Scenario.fileA.
Proof.
  intros _ ps q [= <-] Hq. apply list_elem_of_singleton in Hq as ->.
  exists Scenario.folderF. split; [reflexivity |]. vm_compute. lia.
Qed.

Lemma getPaths_returns_from_cache_witness :
  ∃ ps st',
    getPaths Scenario.env0 3 (Some Scenario.fileA) Scenario.st0
    = (Ok ps, st', [])
    ∧ pathsOf 3 Scenario.st0 Scenario.fileA = Some ps
    ∧ agree Scenario.st0 st'.
Proof.
  apply (getPaths_returns_from_cache Scenario.env0 3 Scenario.st0 Cases.rank
           Scenario.fileA st0_ranked fileA_ranked).
  vm_compute. lia.
Defined.

Lemma st0_values :
  Cases.values_by_key Scenario.st0 = [Scenario.folderF; Scenario.rootInfo].
Proof. vm_compute; reflexivity. Qed.

Lemma st0_values_ranked :
  ∀ i, i ∈ Cases.values_by_key Scenario.st0 →
       ranked Scenario.st0 Cases.rank i ∧ Cases.rank i < 3.
Proof.
  intros i Hi. rewrite st0_values in Hi.
  apply elem_of_cons in Hi as [-> | Hi].
  - split; [| vm_compute; lia].
    intros _ ps q [= <-] Hq. apply list_elem_of_singleton in Hq as ->.
    exists Scenario.rootInfo. split; [reflexivity |]. vm_compute. lia.
  - apply list_elem_of_singleton in Hi as ->.
    split; [| vm_compute; lia]. intros Hroot. by destruct Hroot.
Qed.

Lemma st0_values_resolvable :
  ∀ i q, i ∈ Cases.values_by_key Scenario.st0 →
         q ∈ default [] (File.parents i) →
         is_Some (resolve Scenario.st0 q).
Proof.
  intros i q Hi. rewrite st0_values in Hi.
  apply elem_of_cons in Hi as [-> | Hi].
  - simpl. intros ->%list_elem_of_singleton. by eexists.
  - apply list_elem_of_singleton in Hi as ->. by intros ?%elem_of_nil.
Qed.

Lemma computePaths_all_indexes_witness :
  ∃ st',
    computePaths_all Scenario.env0 Cases.values_by_key 3 Scenario.st0
    = (Ok tt, st', [])
    ∧ agree Scenario.st0 st'
    ∧ dom (paths Scenario.st0) ⊆ dom (paths st')
    ∧ ∀ j ps p, j ∈ Cases.values_by_key Scenario.st0 →
                pathsOf 3 Scenario.st0 j = Some ps → p ∈ ps →
                is_Some (paths st' !! p).
Proof.
  exact (computePaths_all_indexes Scenario.env0 Cases.values_by_key 3
           Scenario.st0 Cases.rank st0_ranked st0_values_ranked
           st0_values_resolvable).
Defined.

Lemma onLocalFileRemoved_remote_witness :
  ∃ s' ev,
    onLocalFileRemoved Scenario.env0 Cases.driveTree false 5 "/d/F/a.txt"
      Cases.syA = (Ok tt, s', ev)
    ∧ remote_removals ev = [FilesTrash "A"]
    ∧ fileInfo (recon s') !! "A" = None.
Proof.
  eexists _, _. split; [vm_compute; reflexivity |].
  split; [vm_compute; reflexivity |].
  eapply proj2, (proj2 (onLocalFileRemoved_remote Scenario.env0 Cases.driveTree
                          false 5 "/d/F/a.txt" Cases.syA) "A").
  - vm_compute; reflexivity.
  - vm_compute. exact I.
Defined.

Lemma onLocalDirRemoved_guard_witness :
  onLocalDirRemoved Scenario.env0 Cases.driveTree false 5 "/d" Cases.syA
  = (Pending, Cases.syA, [ProcessExit 1]).
Proof.
  apply (proj1 (onLocalDirRemoved_guard Scenario.env0 Cases.driveTree false 5
                  "/d" Cases.syA)).
  reflexivity.
Defined.
